(** * Drink/store discovery API: resource container and two-phase query engine

    A shallow embedding of
      - [api/app/driver/base.py]  ([Driver], [DriverConfig], [DriverContainer]),
      - [api/app/driver/mongo.py] (the pipeline builders and the two-phase
        queries of [MongoDriver], its life cycle and [find_nearby_stores]),
      - [api/app/driver/storage.py] (the life cycle of [StorageDriver]),
      - [api/app/service/mongo.py] (the conversion to simplified drinks),
    together with the properties the specification states about them (C1 to
    C10) and further properties of the code (X1 to X27). *)

From Stdlib Require Import ZArith QArith Qround Qabs Ascii Sorted Lia.
From stdpp Require Import base option list gmap strings fin_maps pretty.

Local Open Scope string_scope.
Local Open Scope list_scope.

(** ** Results of fallible Python code *)

(** The exceptions the modelled code can raise.  All of them derive from
    Python's [Exception], which is what the [except Exception] clauses of the
    source catch. *)
Inductive exn :=
| ValueError (msg : string)      (* raise ValueError(...) *)
| KeyError (key : string)        (* d[k] on a missing key *)
| TypeError (msg : string)       (* comparison of unordered values *)
| ExternalError (code : nat).    (* raised by a driver or by the transport *)

Inductive result (A : Type) :=
| Ok (a : A)
| Raise (e : exn).
Arguments Ok {A} a.
Arguments Raise {A} e.

#[export] Instance exn_eq_dec : EqDecision exn.
Proof. solve_decision. Defined.

#[export] Instance result_eq_dec `{EqDecision A} : EqDecision (result A).
Proof. solve_decision. Defined.

(** * Part I: the driver container ([driver/base.py]) *)

Module Container.

(** A Python object reference as the container sees it: [None] or an object
    identity. *)
Inductive pyobj :=
| PyNone
| PyRef (id : nat).

#[export] Instance pyobj_eq_dec : EqDecision pyobj.
Proof. solve_decision. Defined.

(** Calls made on the drivers, in the order they are issued. *)
Inductive event :=
| EvInitialize (name : string)
| EvCleanup (name : string) (instance : pyobj)
| EvHealthCheck (name : string) (instance : pyobj).

#[export] Instance event_eq_dec : EqDecision event.
Proof. solve_decision. Defined.

(** ** Python dictionaries in insertion order

    A Python [dict] keeps its keys in the order in which they were first
    inserted, and [items()] lists them in that order.  The local cache
    [_instances] is iterated by [cleanup_all] and [health_check_all], so it is
    modelled with its order: the list of its entries, oldest first.  A list
    built from the empty dictionary by assignments holds every key once, and
    [items] is that list; should a key be listed twice, its first entry is
    the one that counts, for [items] as for the lookup. *)
Record dict (V : Type) := Dict { entries : list (string * V) }.
Arguments Dict {V} _.
Arguments entries {V} _.

(** d.get(k): the first entry for [k]. *)
Fixpoint entries_get {V : Type} (k : string) (l : list (string * V)) : option V :=
  match l with
  | [] => None
  | kv :: l' => if decide (kv.1 = k) then Some kv.2 else entries_get k l'
  end.

(** d[k] = v: a key that is there keeps its place, a new key goes last. *)
Fixpoint entries_set {V : Type} (k : string) (v : V) (l : list (string * V))
  : list (string * V) :=
  match l with
  | [] => [(k, v)]
  | kv :: l' => if decide (kv.1 = k) then (k, v) :: l' else kv :: entries_set k v l'
  end.

Fixpoint entries_items {V : Type} (l : list (string * V)) : list (string * V) :=
  match l with
  | [] => []
  | kv :: l' => kv :: filter (fun x : string * V => x.1 <> kv.1) (entries_items l')
  end.

#[export] Instance dict_lookup {V : Type} : Lookup string V (dict V) :=
  fun k d => entries_get k (entries d).

#[export] Instance dict_insert {V : Type} : Insert string V (dict V) :=
  fun k v d => Dict (entries_set k v (entries d)).

(** {} and d.clear() *)
#[export] Instance dict_empty {V : Type} : Empty (dict V) := Dict [].

(** d.items() *)
Definition items {V : Type} (d : dict V) : list (string * V) :=
  entries_items (entries d).

Arguments dict_lookup : simpl never.
Arguments dict_insert : simpl never.
Arguments dict_empty : simpl never.
Arguments items : simpl never.

Lemma dict_lookup_empty {V : Type} (k : string) : (∅ : dict V) !! k = None.
Proof. reflexivity. Qed.

Lemma dict_lookup_insert_eq {V : Type} (d : dict V) (k : string) (v : V) :
  <[k := v]> d !! k = Some v.
Proof.
  destruct d as [l]. unfold lookup, insert, dict_lookup, dict_insert. cbn [entries].
  induction l as [|kv l IH]; cbn [entries_set entries_get].
  - rewrite decide_True by reflexivity. reflexivity.
  - destruct (decide (kv.1 = k)) as [Heq|Hne]; cbn [entries_get fst snd].
    + rewrite decide_True by reflexivity. reflexivity.
    + rewrite decide_False by exact Hne. exact IH.
Qed.

Lemma dict_lookup_insert_ne {V : Type} (d : dict V) (k k' : string) (v : V) :
  k <> k' -> <[k := v]> d !! k' = d !! k'.
Proof.
  intros Hkk. destruct d as [l]. unfold lookup, insert, dict_lookup, dict_insert.
  cbn [entries].
  induction l as [|kv l IH]; cbn [entries_set entries_get].
  - rewrite decide_False by exact Hkk. reflexivity.
  - destruct (decide (kv.1 = k)) as [Heq|Hne]; cbn [entries_get fst snd].
    + rewrite decide_False by exact Hkk.
      rewrite decide_False by congruence. reflexivity.
    + destruct (decide (kv.1 = k')); [reflexivity|exact IH].
Qed.

Lemma items_empty {V : Type} : items (∅ : dict V) = [].
Proof. reflexivity. Qed.

(** [items] lists exactly what the lookup finds. *)
Lemma elem_of_items {V : Type} (d : dict V) (k : string) (v : V) :
  (k, v) ∈ items d <-> d !! k = Some v.
Proof.
  destruct d as [l]. unfold items, lookup, dict_lookup. cbn [entries].
  induction l as [|[k0 v0] l IH]; cbn [entries_items entries_get fst snd].
  - split; [intros H; apply elem_of_nil in H; destruct H|discriminate].
  - rewrite elem_of_cons, list_elem_of_filter. cbn [fst].
    destruct (decide (k0 = k)) as [->|Hne].
    + split.
      * intros [H|[H _]]; [inversion H; reflexivity|congruence].
      * intros H. inversion H. left. reflexivity.
    + rewrite IH. split.
      * intros [H|[_ H]]; [inversion H; congruence|exact H].
      * intros H. right. split; [congruence|exact H].
Qed.

(** [items] lists every key once. *)
Lemma NoDup_fst_items {V : Type} (d : dict V) : NoDup (items d).*1.
Proof.
  destruct d as [l]. unfold items. cbn [entries].
  induction l as [|[k0 v0] l IH]; cbn [entries_items]; [constructor|].
  rewrite fmap_cons. apply NoDup_cons. cbn [fst]. split.
  - intros Hin. apply list_elem_of_fmap in Hin as ([k v] & Hk & Hin).
    apply list_elem_of_filter in Hin as [Hne _]. cbn [fst] in *. congruence.
  - revert IH. generalize (entries_items l). intros m Hm.
    induction m as [|x m IHm]; [constructor|].
    rewrite fmap_cons in Hm. apply NoDup_cons in Hm as [Hx Hm].
    rewrite filter_cons. destruct (decide (x.1 <> k0)); [|apply IHm; exact Hm].
    rewrite fmap_cons. apply NoDup_cons. split; [|apply IHm; exact Hm].
    intros Hin. apply Hx. apply list_elem_of_fmap in Hin as (y & Hy & Hin).
    apply list_elem_of_filter in Hin as [_ Hin].
    apply list_elem_of_fmap. exists y. split; assumption.
Qed.

(** A new key is listed last. *)
Lemma items_insert_new {V : Type} (d : dict V) (k : string) (v : V) :
  d !! k = None -> items (<[k := v]> d) = items d ++ [(k, v)].
Proof.
  destruct d as [l]. unfold items, lookup, insert, dict_lookup, dict_insert.
  cbn [entries].
  induction l as [|[k0 v0] l IH]; cbn [entries_items entries_set entries_get fst snd].
  - reflexivity.
  - destruct (decide (k0 = k)) as [->|Hne]; [discriminate|]. intros Hk.
    cbn [entries_items fst]. rewrite (IH Hk), filter_app, filter_cons, filter_nil.
    cbn [fst]. rewrite decide_True by congruence. reflexivity.
Qed.

Section WithWorld.

(** [World] is the state of everything outside the container (connections,
    servers, ...): a driver method reads and changes it, and may raise.
    [Cfg] is the type of a driver's configuration dictionary. *)
Context {World Cfg : Type}.
Variable empty_cfg : Cfg.

(** class Driver(ABC, Generic[T]) *)
Record Driver := {
  initialize : Cfg -> World -> result pyobj * World;
  cleanup : pyobj -> World -> result unit * World;
  health_check : pyobj -> World -> result bool * World;
}.

(** class DriverConfig: one dictionary per built-in driver. *)
Record DriverConfig := {
  httpx : Cfg;
  storage : Cfg;
  mongo : Cfg;
}.

(** getattr(self.config, name, {}) *)
Definition getattr_config (c : DriverConfig) (name : string) : Cfg :=
  if decide (name = "httpx") then httpx c
  else if decide (name = "storage") then storage c
  else if decide (name = "mongo") then mongo c
  else empty_cfg.

(** The container together with what it refers to: [app_state] is the shared
    external object ([None] when the container was built without one, else
    its attributes), [_instances] is the local cache, a dictionary whose
    order matters because it is iterated, [_locks] holds the [locked] flag
    of each [asyncio.Lock], [world] is the outside world and [calls] the
    driver calls made so far.  [_drivers] and [_locks] are only looked up by
    name. *)
Record state := {
  config : DriverConfig;
  app_state : option (gmap string pyobj);
  _instances : dict pyobj;
  _drivers : gmap string Driver;
  _locks : gmap string bool;
  world : World;
  calls : list event;
}.

Definition set_app_state (a : option (gmap string pyobj)) (st : state) : state :=
  {| config := config st; app_state := a; _instances := _instances st;
     _drivers := _drivers st; _locks := _locks st; world := world st;
     calls := calls st |}.

Definition set_instances (m : dict pyobj) (st : state) : state :=
  {| config := config st; app_state := app_state st; _instances := m;
     _drivers := _drivers st; _locks := _locks st; world := world st;
     calls := calls st |}.

Definition set_drivers (m : gmap string Driver) (st : state) : state :=
  {| config := config st; app_state := app_state st; _instances := _instances st;
     _drivers := m; _locks := _locks st; world := world st;
     calls := calls st |}.

Definition set_locks (m : gmap string bool) (st : state) : state :=
  {| config := config st; app_state := app_state st; _instances := _instances st;
     _drivers := _drivers st; _locks := m; world := world st;
     calls := calls st |}.

Definition set_world (w : World) (st : state) : state :=
  {| config := config st; app_state := app_state st; _instances := _instances st;
     _drivers := _drivers st; _locks := _locks st; world := w;
     calls := calls st |}.

Definition log_call (e : event) (st : state) : state :=
  {| config := config st; app_state := app_state st; _instances := _instances st;
     _drivers := _drivers st; _locks := _locks st; world := world st;
     calls := calls st ++ [e] |}.

(** DriverContainer.register_driver *)
Definition register_driver (name : string) (driver : Driver) (st : state) : state :=
  set_locks (<[name := false]> (_locks st))
    (set_drivers (<[name := driver]> (_drivers st)) st).

(** The attribute names probed by [_get_from_app_state], in order. *)
Definition possible_names (name : string) : list string :=
  [name; name +:+ "_driver"; "async_" +:+ name +:+ "_driver"; name +:+ "_pool"].

(** The loop of [_get_from_app_state]: the first attribute that exists and is
    not [None]. *)
Fixpoint probe (attrs : gmap string pyobj) (names : list string) : pyobj :=
  match names with
  | [] => PyNone
  | attr_name :: rest =>
      match attrs !! attr_name with
      | Some (PyRef i) => PyRef i
      | _ => probe attrs rest
      end
  end.

(** DriverContainer._get_from_app_state *)
Definition _get_from_app_state (name : string) (st : state) : pyobj :=
  match app_state st with
  | None => PyNone
  | Some attrs => probe attrs (possible_names name)
  end.

(** DriverContainer._store_to_app_state *)
Definition _store_to_app_state (name : string) (instance : pyobj) (st : state) : state :=
  match app_state st with
  | None => st
  | Some attrs =>
      let attr_name :=
        if decide (name = "mysql") then name +:+ "_pool" else name +:+ "_driver" in
      set_app_state (Some (<[attr_name := instance]> attrs)) st
  end.

(** *** [get_instance] as a coroutine

    A call of [get_instance] runs without interruption between two
    suspension points.  It can be suspended at [async with self._locks[name]]
    (when the lock is held) and at [await ...initialize(driver_config)]; the
    model also lets it be suspended between taking the lock and the double
    check, which only adds interleavings. *)
Inductive pc :=
| Start                      (* the call has been issued *)
| AwaitLock                  (* at [async with self._locks[name]] *)
| Locked                     (* lock taken, before the double check *)
| AwaitInit                  (* awaiting driver.initialize, lock held *)
| Done (r : result pyobj).   (* returned or raised *)

Definition release (name : string) (st : state) : state :=
  set_locks (<[name := false]> (_locks st)) st.

(** One uninterrupted stretch of [get_instance name] from program point [p];
    [None] when the call cannot run (finished, or waiting for a held lock). *)
Definition task_step (name : string) (p : pc) (st : state) : option (pc * state) :=
  match p with
  | Start =>
      if decide (is_Some (_drivers st !! name)) then
        match _get_from_app_state name st with
        | PyRef i => Some (Done (Ok (PyRef i)), st)
        | PyNone =>
            match _instances st !! name with
            | Some inst => Some (Done (Ok inst), st)
            | None =>
                match _locks st !! name with
                | Some _ => Some (AwaitLock, st)
                | None => Some (Done (Raise (KeyError name)), st)
                end
            end
        end
      else Some (Done (Raise (ValueError ("Driver '" +:+ name +:+ "' not registered"))), st)
  | AwaitLock =>
      match _locks st !! name with
      | Some false => Some (Locked, set_locks (<[name := true]> (_locks st)) st)
      | _ => None
      end
  | Locked =>
      match _get_from_app_state name st with
      | PyRef i => Some (Done (Ok (PyRef i)), release name st)
      | PyNone =>
          match _instances st !! name with
          | Some inst => Some (Done (Ok inst), release name st)
          | None =>
              match _drivers st !! name with
              | Some _ => Some (AwaitInit, log_call (EvInitialize name) st)
              | None => Some (Done (Raise (KeyError name)), release name st)
              end
          end
      end
  | AwaitInit =>
      match _drivers st !! name with
      | Some d =>
          match initialize d (getattr_config (config st) name) (world st) with
          | (Ok instance, w) =>
              let st1 := set_instances (<[name := instance]> (_instances st)) (set_world w st) in
              let st2 := _store_to_app_state name instance st1 in
              Some (Done (Ok instance), release name st2)
          | (Raise e, w) => Some (Done (Raise e), release name (set_world w st))
          end
      | None => Some (Done (Raise (KeyError name)), release name st)
      end
  | Done _ => None
  end.

(** A call that runs alone, with nothing interleaved. *)
Fixpoint run_task (fuel : nat) (name : string) (p : pc) (st : state)
  : option (result pyobj * state) :=
  match p with
  | Done r => Some (r, st)
  | _ =>
      match fuel with
      | O => None
      | S fuel' =>
          match task_step name p st with
          | Some (p', st') => run_task fuel' name p' st'
          | None => None
          end
      end
  end.

(** DriverContainer.get_instance, called with no other call in flight. *)
Definition get_instance (name : string) (st : state) : option (result pyobj * state) :=
  run_task 4 name Start st.

(** *** Concurrent calls: tasks interleaved by the event loop *)

Record sys := {
  sys_state : state;
  sys_tasks : list (string * pc);
}.

Inductive step : sys -> sys -> Prop :=
| step_task st ts i name p p' st' :
    ts !! i = Some (name, p) ->
    task_step name p st = Some (p', st') ->
    step {| sys_state := st; sys_tasks := ts |}
         {| sys_state := st'; sys_tasks := <[i := (name, p')]> ts |}.

Inductive steps : sys -> sys -> Prop :=
| steps_refl s : steps s s
| steps_step s1 s2 s3 : steps s1 s2 -> step s2 s3 -> steps s1 s3.

(** Running the tasks in the order a schedule gives; a task that cannot
    run when its turn comes is skipped. *)
Definition sched_step (i : nat) (s : sys) : sys :=
  match sys_tasks s !! i with
  | Some (name, p) =>
      match task_step name p (sys_state s) with
      | Some (p', st') =>
          {| sys_state := st'; sys_tasks := <[i := (name, p')]> (sys_tasks s) |}
      | None => s
      end
  | None => s
  end.

Definition run_schedule (schedule : list nat) (s : sys) : sys :=
  foldl (fun s i => sched_step i s) s schedule.

Definition is_done (t : string * pc) : Prop :=
  match t.2 with Done _ => True | _ => False end.

Definition all_done (s : sys) : Prop := Forall is_done (sys_tasks s).

(** Number of [initialize] calls issued for [name]. *)
Definition init_count (name : string) (st : state) : nat :=
  length (filter (fun e => e = EvInitialize name) (calls st)).

(** *** Cleanup and health check *)

(** DriverContainer._cleanup_instance: an exception raised in the [try] block
    is logged by the [except Exception] clause, and the method returns. *)
Definition _cleanup_instance (name : string) (instance : pyobj) (st : state)
  : result unit * state :=
  let attempt :=
    match _drivers st !! name with
    | Some d =>
        let '(r, w) := cleanup d instance (world st) in
        (r, set_world w (log_call (EvCleanup name instance) st))
    | None => (Raise (KeyError name), st)
    end in
  match attempt with
  | (Ok _, st') => (Ok tt, st')
  | (Raise _, st') => (Ok tt, st')
  end.

(** asyncio.gather with return_exceptions=True: every coroutine is run
    and its result, or the exception it raised, is collected.  The event
    loop starts the coroutines in the order in which they are passed; a
    driver method acts on the world in one step, so that each coroutine is
    over before the next one starts. *)
Fixpoint gather (tasks : list (state -> result unit * state)) (st : state)
  : list (result unit) * state :=
  match tasks with
  | [] => ([], st)
  | task :: rest =>
      let '(r, st1) := task st in
      let '(rs, st2) := gather rest st1 in
      (r :: rs, st2)
  end.

(** DriverContainer.cleanup_all *)
Definition cleanup_all (st : state) : result unit * state :=
  let cleanup_tasks :=
    map (fun ni : string * pyobj => _cleanup_instance ni.1 ni.2)
      (filter (fun ni => is_Some (_drivers st !! ni.1)) (items (_instances st))) in
  let st' :=
    match cleanup_tasks with
    | [] => st
    | _ => (gather cleanup_tasks st).2
    end in
  (Ok tt, set_instances ∅ st').

(** One iteration of the loop of [health_check_all]. *)
Definition health_check_one (acc : gmap string bool * state) (ni : string * pyobj)
  : gmap string bool * state :=
  let '(health_status, st) := acc in
  match _drivers st !! ni.1 with
  | Some d =>
      let st1 := log_call (EvHealthCheck ni.1 ni.2) st in
      match health_check d ni.2 (world st) with
      | (Ok is_healthy, w) => (<[ni.1 := is_healthy]> health_status, set_world w st1)
      | (Raise _, w) => (<[ni.1 := false]> health_status, set_world w st1)
      end
  | None => acc
  end.

(** DriverContainer.health_check_all *)
Definition health_check_all (st : state) : gmap string bool * state :=
  foldl health_check_one (∅, st) (items (_instances st)).

(** ** Properties of the container *)

(** *** Basic facts on the state updates *)

Lemma init_count_log (name name' : string) (st : state) :
  init_count name (log_call (EvInitialize name') st)
  = init_count name st + (if decide (name' = name) then 1 else 0).
Proof.
  unfold init_count, log_call; simpl.
  rewrite filter_app, length_app. f_equal.
  rewrite filter_cons, filter_nil.
  destruct (decide (name' = name)) as [->|Hne].
  - rewrite decide_True by reflexivity. reflexivity.
  - rewrite decide_False by congruence. reflexivity.
Qed.

(** Storing into the shared object can only make the probe find the stored
    instance. *)
Lemma probe_insert (attrs : gmap string pyobj) (a : string) (inst : pyobj)
    (names : list string) :
  probe attrs names = PyNone ->
  probe (<[a := inst]> attrs) names = PyNone \/ probe (<[a := inst]> attrs) names = inst.
Proof.
  induction names as [|k names IH]; simpl; intros Hp.
  - left; reflexivity.
  - destruct (decide (a = k)) as [->|Hne].
    + rewrite lookup_insert_eq. destruct inst as [|i].
      * destruct (attrs !! k) as [[|j]|]; try discriminate; auto.
      * right; reflexivity.
    + rewrite lookup_insert_ne by assumption.
      destruct (attrs !! k) as [[|j]|]; try discriminate; auto.
Qed.

Lemma get_after_store (name : string) (inst : pyobj) (st : state) :
  _get_from_app_state name st = PyNone ->
  _get_from_app_state name (_store_to_app_state name inst st) = PyNone
  \/ _get_from_app_state name (_store_to_app_state name inst st) = inst.
Proof.
  unfold _get_from_app_state, _store_to_app_state.
  destruct (app_state st) as [attrs|] eqn:Ha.
  - intros Hp. cbn [set_app_state app_state]. apply probe_insert, Hp.
  - rewrite Ha. auto.
Qed.

(** *** A measure that every step decreases *)

Definition weight (p : pc) : nat :=
  match p with
  | Start => 4
  | AwaitLock => 3
  | Locked => 2
  | AwaitInit => 1
  | Done _ => 0
  end.

Definition measure (s : sys) : nat :=
  sum_list (map (fun t => weight t.2) (sys_tasks s)).

Lemma task_step_weight (name : string) (p p' : pc) (st st' : state) :
  task_step name p st = Some (p', st') -> weight p' < weight p.
Proof.
  destruct p; simpl; intros H;
    repeat (match type of H with
            | context [match ?x with _ => _ end] => destruct x
            end; simpl in H; try discriminate);
    inversion H; subst; simpl; lia.
Qed.

Lemma sum_insert_lt {A : Type} (f : A -> nat) (l : list A) (i : nat) (x y : A) :
  l !! i = Some x -> f y < f x ->
  sum_list (map f (<[i := y]> l)) < sum_list (map f l).
Proof.
  revert i. induction l as [|a l IH]; intros [|i] Hl Hlt; simpl in *;
    try discriminate.
  - inversion Hl; subst. lia.
  - specialize (IH i Hl Hlt). lia.
Qed.

Lemma step_decreases (s s' : sys) : step s s' -> measure s' < measure s.
Proof.
  intros [st ts i name p p' st' Hi Hs]. unfold measure; simpl.
  apply (sum_insert_lt (fun t => weight t.2) ts i (name, p) (name, p') Hi).
  simpl. eapply task_step_weight; eassumption.
Qed.

Lemma run_schedule_steps (schedule : list nat) (s : sys) :
  steps s (run_schedule schedule s).
Proof.
  revert s. induction schedule as [|i schedule IH] using rev_ind; intros s.
  - apply steps_refl.
  - unfold run_schedule. rewrite foldl_snoc. fold (run_schedule schedule s).
    specialize (IH s). unfold sched_step.
    destruct (run_schedule schedule s) as [st ts] eqn:Hrun. simpl.
    destruct (ts !! i) as [[name p]|] eqn:Hi; [|exact IH].
    destruct (task_step name p st) as [[p' st']|] eqn:Hs; [|exact IH].
    eapply steps_step; [exact IH|]. eapply step_task; eassumption.
Qed.

Lemma steps_trans (s1 s2 s3 : sys) : steps s1 s2 -> steps s2 s3 -> steps s1 s3.
Proof.
  intros H12 H23. induction H23; [assumption|].
  eapply steps_step; [|eassumption]. auto.
Qed.

(** *** Single flight: the invariant of [N] concurrent calls for one name *)

Section SingleFlight.

Variable n : string.            (* the requested name *)
Variable d : Driver.            (* its driver *)
Variable cfg0 : DriverConfig.   (* the container's configuration *)
Variable calls0 : list event.   (* the driver calls made earlier *)
Variable w0 : World.            (* the world when the calls are issued *)
Variable inst0 : pyobj.         (* what [initialize] returns in that world *)
Variable w1 : World.            (* and the world it leaves *)

Hypothesis init_ok : initialize d (getattr_config cfg0 n) w0 = (Ok inst0, w1).

Definition holding (p : pc) : bool :=
  match p with
  | Locked | AwaitInit => true
  | _ => false
  end.

Definition has_holder (ts : list (string * pc)) : Prop :=
  exists j p, ts !! j = Some (n, p) /\ holding p = true.

Definition one_holder (ts : list (string * pc)) : Prop :=
  forall j k pj pk, ts !! j = Some (n, pj) -> ts !! k = Some (n, pk) ->
    holding pj = true -> holding pk = true -> j = k.

Definition no_init (ts : list (string * pc)) : Prop :=
  forall j name, ts !! j = Some (name, AwaitInit) -> False.

Definition no_done (ts : list (string * pc)) : Prop :=
  forall j name r, ts !! j = Some (name, Done r) -> False.

Definition all_named (ts : list (string * pc)) : Prop :=
  forall j name p, ts !! j = Some (name, p) -> name = n.

(** Where the initialization of [n] stands. *)
Inductive phase (st : state) (ts : list (string * pc)) : Prop :=
| phase_idle :
    calls st = calls0 -> world st = w0 -> _instances st !! n = None ->
    _get_from_app_state n st = PyNone -> no_init ts -> no_done ts ->
    phase st ts
| phase_running :
    calls st = calls0 ++ [EvInitialize n] -> world st = w0 ->
    _instances st !! n = None -> _get_from_app_state n st = PyNone ->
    (exists j, ts !! j = Some (n, AwaitInit)) -> no_done ts ->
    phase st ts
| phase_ready :
    calls st = calls0 ++ [EvInitialize n] -> world st = w1 ->
    _instances st !! n = Some inst0 ->
    (_get_from_app_state n st = PyNone \/ _get_from_app_state n st = inst0) ->
    no_init ts ->
    (forall j name r, ts !! j = Some (name, Done r) -> r = Ok inst0) ->
    phase st ts.

Record inv (s : sys) : Prop := {
  inv_names : all_named (sys_tasks s);
  inv_driver : _drivers (sys_state s) !! n = Some d;
  inv_config : config (sys_state s) = cfg0;
  inv_lock : exists b, _locks (sys_state s) !! n = Some b
                       /\ (b = true <-> has_holder (sys_tasks s));
  inv_holder : one_holder (sys_tasks s);
  inv_phase : phase (sys_state s) (sys_tasks s);
}.

Lemma lookup_upd (ts : list (string * pc)) (i j : nat) (t q : string * pc) :
  <[i := t]> ts !! j = Some q -> (j = i /\ q = t) \/ (j <> i /\ ts !! j = Some q).
Proof.
  rewrite list_lookup_insert_Some. intros [(-> & -> & _)|(Hne & Hq)]; auto.
Qed.

Lemma all_named_upd ts i p :
  all_named ts -> all_named (<[i := (n, p)]> ts).
Proof.
  intros H j name q Hq. apply lookup_upd in Hq as [[_ Hq]|[_ Hq]].
  - congruence.
  - eapply H; eassumption.
Qed.

(** A task that neither takes nor gives up the lock leaves the holders as
    they are. *)
Lemma has_holder_same ts i p p' :
  ts !! i = Some (n, p) -> holding p = holding p' ->
  has_holder (<[i := (n, p')]> ts) <-> has_holder ts.
Proof.
  intros Hi Hh. split.
  - intros (j & q & Hq & Hq'). apply lookup_upd in Hq as [[-> Hq]|[_ Hq]].
    + inversion Hq; subst. exists i, p. split; [assumption|congruence].
    + exists j, q. auto.
  - intros (j & q & Hq & Hq'). destruct (decide (j = i)) as [->|Hne].
    + exists i, p'. split.
      * apply list_lookup_insert_eq. eapply lookup_lt_Some; eassumption.
      * rewrite Hi in Hq. inversion Hq; subst. congruence.
    + exists j, q. split; [|assumption].
      rewrite list_lookup_insert_ne by congruence. assumption.
Qed.

Lemma one_holder_same ts i p p' :
  ts !! i = Some (n, p) -> holding p = holding p' ->
  one_holder ts -> one_holder (<[i := (n, p')]> ts).
Proof.
  intros Hi Hh H j k pj pk Hj Hk Hpj Hpk.
  apply lookup_upd in Hj as [[-> Hj]|[Hnj Hj]];
    apply lookup_upd in Hk as [[-> Hk]|[Hnk Hk]]; try reflexivity.
  - inversion Hj; subst. apply (H i k p pk); auto; congruence.
  - inversion Hk; subst. apply (H j i pj p); auto; congruence.
  - eapply H; eauto.
Qed.

Lemma has_holder_take ts i p p' :
  ts !! i = Some (n, p) -> holding p' = true ->
  has_holder (<[i := (n, p')]> ts).
Proof.
  intros Hi Hh. exists i, p'. split; [|assumption].
  apply list_lookup_insert_eq. eapply lookup_lt_Some; eassumption.
Qed.

Lemma one_holder_take ts i p' :
  ~ has_holder ts -> one_holder (<[i := (n, p')]> ts).
Proof.
  intros Hno j k pj pk Hj Hk Hpj Hpk.
  apply lookup_upd in Hj as [[-> Hj]|[Hnj Hj]];
    apply lookup_upd in Hk as [[-> Hk]|[Hnk Hk]]; try reflexivity.
  - exfalso. apply Hno. exists k, pk. auto.
  - exfalso. apply Hno. exists j, pj. auto.
  - exfalso. apply Hno. exists k, pk. auto.
Qed.

Lemma no_holder_give ts i p p' :
  ts !! i = Some (n, p) -> holding p = true -> holding p' = false ->
  one_holder ts -> ~ has_holder (<[i := (n, p')]> ts).
Proof.
  intros Hi Hp Hp' H (j & q & Hq & Hq').
  apply lookup_upd in Hq as [[-> Hq]|[Hne Hq]].
  - inversion Hq; subst. congruence.
  - apply Hne. eapply (H j i); eauto.
Qed.

Lemma one_holder_give ts i p p' :
  ts !! i = Some (n, p) -> holding p = true -> holding p' = false ->
  one_holder ts -> one_holder (<[i := (n, p')]> ts).
Proof.
  intros Hi Hp Hp' H j k pj pk Hj Hk Hpj Hpk. exfalso.
  eapply (no_holder_give ts i p p'); eauto. exists j, pj. auto.
Qed.

Lemma no_init_upd ts i name p' :
  p' <> AwaitInit -> no_init ts -> no_init (<[i := (name, p')]> ts).
Proof.
  intros Hp H j name' Hj. apply lookup_upd in Hj as [[_ Hj]|[_ Hj]].
  - congruence.
  - eapply H; eassumption.
Qed.

Lemma no_done_upd ts i name p' :
  (forall r, p' <> Done r) -> no_done ts -> no_done (<[i := (name, p')]> ts).
Proof.
  intros Hp H j name' r Hj. apply lookup_upd in Hj as [[_ Hj]|[_ Hj]].
  - inversion Hj; subst. eapply Hp; reflexivity.
  - eapply H; eassumption.
Qed.

Lemma store_frame (name : string) (inst : pyobj) (st : state) :
  config (_store_to_app_state name inst st) = config st
  /\ _instances (_store_to_app_state name inst st) = _instances st
  /\ _drivers (_store_to_app_state name inst st) = _drivers st
  /\ _locks (_store_to_app_state name inst st) = _locks st
  /\ world (_store_to_app_state name inst st) = world st
  /\ calls (_store_to_app_state name inst st) = calls st.
Proof.
  unfold _store_to_app_state. destruct (app_state st); simpl; auto 10.
Qed.

Lemma done_upd_ready (ts : list (string * pc)) (i : nat) :
  (forall j name r, ts !! j = Some (name, Done r) -> r = Ok inst0) ->
  forall j name r, <[i := (n, Done (Ok inst0))]> ts !! j = Some (name, Done r) ->
    r = Ok inst0.
Proof.
  intros H j name r Hj. apply lookup_upd in Hj as [[_ Hj]|[_ Hj]].
  - congruence.
  - eapply H; eassumption.
Qed.

Lemma done_upd_first (ts : list (string * pc)) (i : nat) :
  no_done ts ->
  forall j name r, <[i := (n, Done (Ok inst0))]> ts !! j = Some (name, Done r) ->
    r = Ok inst0.
Proof.
  intros H. apply done_upd_ready. intros j name r Hj. destruct (H j name r Hj).
Qed.

(** Every step of every call keeps the invariant. *)
Lemma inv_step (s s' : sys) : inv s -> step s s' -> inv s'.
Proof.
  intros [Hnames Hdrv Hcfg (b & Hlock & Hb) Hone Hphase] Hstep.
  destruct Hstep as [st ts i name p p' st' Hi Hs]. simpl in *.
  assert (name = n) as -> by (eapply Hnames; eassumption).
  destruct p; cbn [task_step] in Hs.
  - (* Start: the checks made before the lock *)
    rewrite decide_True in Hs by (rewrite Hdrv; eauto).
    destruct Hphase as [Hc Hw Hcache Happ Hni Hnd
                       |Hc Hw Hcache Happ Hrun Hnd
                       |Hc Hw Hcache Happ Hni Hdone].
    + rewrite Happ, Hcache, Hlock in Hs. inversion Hs; subst.
      constructor; simpl; auto using all_named_upd.
      * exists b. split; [assumption|].
        rewrite (has_holder_same ts i Start AwaitLock); auto.
      * apply (one_holder_same ts i Start AwaitLock); auto.
      * apply phase_idle; auto.
        -- apply no_init_upd; [discriminate|assumption].
        -- apply no_done_upd; [discriminate|assumption].
    + rewrite Happ, Hcache, Hlock in Hs. inversion Hs; subst.
      constructor; simpl; auto using all_named_upd.
      * exists b. split; [assumption|].
        rewrite (has_holder_same ts i Start AwaitLock); auto.
      * apply (one_holder_same ts i Start AwaitLock); auto.
      * apply phase_running; auto.
        -- destruct Hrun as [j Hj]. exists j.
           rewrite list_lookup_insert_ne; [assumption|congruence].
        -- apply no_done_upd; [discriminate|assumption].
    + assert (p' = Done (Ok inst0) /\ st' = st) as [-> ->].
      { destruct (_get_from_app_state n st) as [|r] eqn:Eg.
        - rewrite Hcache in Hs. inversion Hs; auto.
        - destruct Happ as [Happ|Happ]; [discriminate|].
          inversion Hs; subst; auto. }
      constructor; simpl; auto using all_named_upd.
      * exists b. split; [assumption|].
        rewrite (has_holder_same ts i Start (Done (Ok inst0))); auto.
      * apply (one_holder_same ts i Start (Done (Ok inst0))); auto.
      * apply phase_ready; auto.
        -- apply no_init_upd; [discriminate|assumption].
        -- apply done_upd_ready; assumption.
  - (* AwaitLock: the lock is free and is taken *)
    rewrite Hlock in Hs. destruct b; [discriminate|]. inversion Hs; subst.
    assert (~ has_holder ts) as Hfree by (intros Hh; apply Hb in Hh; discriminate).
    constructor; simpl; auto using all_named_upd.
    + exists true. split; [apply lookup_insert_eq|].
      split; [intros _|reflexivity].
      apply (has_holder_take ts i AwaitLock Locked); auto.
    + apply one_holder_take; assumption.
    + destruct Hphase as [Hc Hw Hcache Happ Hni Hnd
                         |Hc Hw Hcache Happ Hrun Hnd
                         |Hc Hw Hcache Happ Hni Hdone].
      * apply phase_idle; auto.
        -- apply no_init_upd; [discriminate|assumption].
        -- apply no_done_upd; [discriminate|assumption].
      * destruct Hrun as [j Hj]. exfalso. apply Hfree. exists j, AwaitInit. auto.
      * apply phase_ready; auto.
        -- apply no_init_upd; [discriminate|assumption].
        -- intros j name r Hj. apply lookup_upd in Hj as [[_ Hj]|[_ Hj]];
             [discriminate|eapply Hdone; eassumption].
  - (* Locked: the double check, then the call of initialize *)
    destruct Hphase as [Hc Hw Hcache Happ Hni Hnd
                       |Hc Hw Hcache Happ Hrun Hnd
                       |Hc Hw Hcache Happ Hni Hdone].
    + rewrite Happ, Hcache, Hdrv in Hs. inversion Hs; subst.
      constructor; simpl; auto using all_named_upd.
      * exists b. split; [assumption|].
        rewrite (has_holder_same ts i Locked AwaitInit); auto.
      * apply (one_holder_same ts i Locked AwaitInit); auto.
      * apply phase_running; auto.
        -- simpl. rewrite Hc. reflexivity.
        -- exists i. apply list_lookup_insert_eq. eapply lookup_lt_Some; eassumption.
        -- apply no_done_upd; [discriminate|assumption].
    + destruct Hrun as [j Hj]. exfalso.
      assert (j = i) as -> by (apply (Hone j i AwaitInit Locked); auto).
      congruence.
    + assert (p' = Done (Ok inst0) /\ st' = release n st) as [-> ->].
      { destruct (_get_from_app_state n st) as [|r] eqn:Eg.
        - rewrite Hcache in Hs. inversion Hs; auto.
        - destruct Happ as [Happ|Happ]; [discriminate|].
          inversion Hs; subst; auto. }
      constructor; simpl; auto using all_named_upd.
      * exists false. split; [apply lookup_insert_eq|].
        split; [discriminate|]. intros Hh. exfalso.
        eapply (no_holder_give ts i Locked (Done (Ok inst0))); eauto.
      * apply (one_holder_give ts i Locked (Done (Ok inst0))); auto.
      * apply phase_ready; auto.
        -- apply no_init_upd; [discriminate|assumption].
        -- apply done_upd_ready; assumption.
  - (* AwaitInit: initialize returns *)
    destruct Hphase as [Hc Hw Hcache Happ Hni Hnd
                       |Hc Hw Hcache Happ Hrun Hnd
                       |Hc Hw Hcache Happ Hni Hdone].
    + destruct (Hni i n Hi).
    + rewrite Hdrv, Hcfg, Hw, init_ok in Hs.
      inversion Hs; subst p' st'. clear Hs.
      set (st1 := set_instances (<[n := inst0]> (_instances st)) (set_world w1 st)).
      destruct (store_frame n inst0 st1) as (Fc & Fi & Fd & Fl & Fw & Fk).
      constructor; simpl; auto using all_named_upd.
      * rewrite Fd. assumption.
      * rewrite Fc. exact Hcfg.
      * exists false. split; [apply lookup_insert_eq|].
        split; [discriminate|]. intros Hh. exfalso.
        eapply (no_holder_give ts i AwaitInit (Done (Ok inst0))); eauto.
      * apply (one_holder_give ts i AwaitInit (Done (Ok inst0))); auto.
      * apply phase_ready.
        -- simpl. rewrite Fk. assumption.
        -- simpl. rewrite Fw. reflexivity.
        -- simpl. rewrite Fi. apply dict_lookup_insert_eq.
        -- apply (get_after_store n inst0 st1). assumption.
        -- intros j name Hj. apply lookup_upd in Hj as [[_ Hj]|[Hne Hj]];
             [discriminate|].
           assert (name = n) as -> by (eapply Hnames; eassumption).
           apply Hne. apply (Hone j i AwaitInit AwaitInit); auto.
        -- apply done_upd_first; assumption.
    + destruct (Hni i n Hi).
  - discriminate.
Qed.

Lemma inv_steps (s s' : sys) : inv s -> steps s s' -> inv s'.
Proof.
  intros Hinv Hsteps. induction Hsteps; [assumption|].
  eapply inv_step; [|eassumption]. auto.
Qed.

Lemma step_length (s s' : sys) :
  step s s' -> length (sys_tasks s') = length (sys_tasks s).
Proof. intros [st ts i name p p' st' _ _]. simpl. apply length_insert. Qed.

Lemma steps_length (s s' : sys) :
  steps s s' -> length (sys_tasks s') = length (sys_tasks s).
Proof.
  induction 1 as [|s1 s2 s3 _ IH Hs]; [reflexivity|].
  rewrite (step_length _ _ Hs). exact IH.
Qed.

(** A call that is neither finished nor waiting for the lock can run. *)
Lemma task_step_total (name : string) (p : pc) (st : state) :
  p = Start \/ holding p = true -> is_Some (task_step name p st).
Proof.
  intros [->|Hp].
  - cbn [task_step]. repeat case_match; eauto.
  - destruct p; try discriminate; cbn [task_step]; repeat case_match; eauto.
Qed.

#[local] Instance is_done_dec (t : string * pc) : Decision (is_done t).
Proof. unfold is_done. destruct (t.2); apply _. Defined.

(** No deadlock: while a call is unfinished, some call can run. *)
Lemma inv_progress (s : sys) : inv s -> all_done s \/ exists s', step s s'.
Proof.
  intros [Hnames Hdrv Hcfg (b & Hlock & Hb) Hone Hphase].
  destruct (decide (all_done s)) as [Hd|Hd]; [left; assumption|right].
  destruct s as [st ts]. unfold all_done in Hd. simpl in *.
  apply not_Forall_Exists in Hd; [|intros t; apply _].
  apply Exists_exists in Hd as ([name p] & Hin & Hnd).
  apply list_elem_of_lookup in Hin as [j Hj].
  assert (name = n) as -> by (eapply Hnames; eassumption).
  assert (forall k q, ts !! k = Some (n, q) -> q = Start \/ holding q = true ->
            exists s', step {| sys_state := st; sys_tasks := ts |} s') as Hrun.
  { intros k q Hk Hq. destruct (task_step_total n q st Hq) as [[q' st'] Hs].
    eexists. eapply step_task; eassumption. }
  destruct p.
  - apply (Hrun j Start); auto.
  - destruct b.
    + destruct (proj1 Hb eq_refl) as (k & q & Hk & Hq). apply (Hrun k q); auto.
    + eexists. eapply step_task; [eassumption|].
      cbn [task_step]. rewrite Hlock. reflexivity.
  - apply (Hrun j Locked); auto.
  - apply (Hrun j AwaitInit); auto.
  - destruct Hnd. exact I.
Qed.

(** Every run can be completed. *)
Lemma inv_completes (m : nat) (s : sys) :
  measure s <= m -> inv s -> exists s', steps s s' /\ all_done s'.
Proof.
  revert s. induction m as [|m IH]; intros s Hm Hinv.
  - destruct (inv_progress s Hinv) as [Hd|[s' Hs]].
    + exists s. split; [apply steps_refl|assumption].
    + apply step_decreases in Hs. lia.
  - destruct (inv_progress s Hinv) as [Hd|[s' Hs]].
    + exists s. split; [apply steps_refl|assumption].
    + destruct (IH s') as (s'' & Hs'' & Hd'').
      * apply step_decreases in Hs. lia.
      * eapply inv_step; eassumption.
      * exists s''. split; [|assumption].
        eapply steps_trans; [|eassumption].
        eapply steps_step; [apply steps_refl|assumption].
Qed.

(** What the invariant says once every call is over. *)
Lemma inv_final (s : sys) :
  inv s -> all_done s -> 0 < length (sys_tasks s) ->
  calls (sys_state s) = calls0 ++ [EvInitialize n]
  /\ world (sys_state s) = w1
  /\ _instances (sys_state s) !! n = Some inst0
  /\ Forall (fun t => t.2 = Done (Ok inst0)) (sys_tasks s).
Proof.
  intros [Hnames Hdrv Hcfg _ Hone Hphase] Hd Hlen.
  destruct s as [st ts]. unfold all_done in Hd. simpl in *.
  assert (exists name r, ts !! 0 = Some (name, Done r)) as (name0 & r0 & H0).
  { destruct ts as [|[name p] ts]; simpl in Hlen; [lia|].
    inversion Hd as [|? ? Hp _]; subst. unfold is_done in Hp; simpl in Hp.
    destruct p; try contradiction. eauto. }
  destruct Hphase as [Hc Hw Hcache Happ Hni Hnd
                     |Hc Hw Hcache Happ Hrun Hnd
                     |Hc Hw Hcache Happ Hni Hdone].
  - destruct (Hnd 0 name0 r0 H0).
  - destruct (Hnd 0 name0 r0 H0).
  - split; [assumption|]. split; [assumption|]. split; [assumption|].
    apply Forall_lookup. intros j [name p] Hj.
    pose proof (Forall_lookup_1 _ _ _ _ Hd Hj) as Hp.
    unfold is_done in Hp; simpl in *. destruct p; try contradiction.
    f_equal. eapply Hdone; eassumption.
Qed.

End SingleFlight.

Lemma inv_initial (n : string) (d : Driver) (st0 : state) (N : nat) (inst0 : pyobj)
    (w1 : World) :
  _drivers st0 !! n = Some d ->
  _locks st0 !! n = Some false ->
  _instances st0 !! n = None ->
  _get_from_app_state n st0 = PyNone ->
  inv n d (config st0) (calls st0) (world st0) inst0 w1
    {| sys_state := st0; sys_tasks := replicate N (n, Start) |}.
Proof.
  intros Hdrv Hlock Hcache Happ.
  assert (forall j name p, replicate N (n, Start) !! j = Some (name, p) ->
            name = n /\ p = Start) as Hrep.
  { intros j name p Hj. apply lookup_replicate in Hj as [Hj _].
    inversion Hj; auto. }
  constructor; simpl; auto.
  - intros j name p Hj. apply (Hrep j name p Hj).
  - exists false. split; [assumption|]. split; [discriminate|].
    intros (j & p & Hj & Hp). apply Hrep in Hj as [_ ->]. discriminate.
  - intros j k pj pk Hj _ Hpj _. apply Hrep in Hj as [_ ->]. discriminate.
  - apply phase_idle; auto.
    + intros j name Hj. apply Hrep in Hj as [_ Hj]. discriminate.
    + intros j name r Hj. apply Hrep in Hj as [_ Hj]. discriminate.
Qed.

(** The number of [initialize] calls after one more. *)
Lemma init_count_snoc (n : string) (st st0 : state) :
  calls st = calls st0 ++ [EvInitialize n] -> init_count n st = init_count n st0 + 1.
Proof.
  unfold init_count. intros ->.
  rewrite filter_app, length_app, filter_cons, filter_nil.
  rewrite decide_True by reflexivity. reflexivity.
Qed.

(** C1 (as amended).  [N >= 1] calls of [get_instance n] are issued while no
    instance of [n] exists (neither in the local cache nor in the shared
    object), and [initialize], in the world as it is then, returns [inst] and
    leaves the world [w'].  Whatever the interleaving: the run never
    deadlocks and can always be completed, every step brings it closer to
    completion, and once all calls are over the only driver call made is one
    [initialize] (so it has been invoked exactly once), the world is the one
    that invocation left, the cache holds [inst], and all [N] calls have
    returned [inst]. *)
Theorem get_instance_single_flight (n : string) (d : Driver) (st0 : state) (N : nat)
    (inst : pyobj) (w' : World) :
  1 <= N ->
  _drivers st0 !! n = Some d ->
  _locks st0 !! n = Some false ->
  _instances st0 !! n = None ->
  _get_from_app_state n st0 = PyNone ->
  initialize d (getattr_config (config st0) n) (world st0) = (Ok inst, w') ->
  forall s, steps {| sys_state := st0; sys_tasks := replicate N (n, Start) |} s ->
    (all_done s \/ exists s', step s s')
    /\ (forall s', step s s' -> measure s' < measure s)
    /\ (exists s', steps s s' /\ all_done s')
    /\ (all_done s ->
        calls (sys_state s) = calls st0 ++ [EvInitialize n]
        /\ init_count n (sys_state s) = init_count n st0 + 1
        /\ world (sys_state s) = w'
        /\ _instances (sys_state s) !! n = Some inst
        /\ Forall (fun t => t.2 = Done (Ok inst)) (sys_tasks s)).
Proof.
  intros HN Hdrv Hlock Hcache Happ Hinit s Hsteps.
  pose proof (inv_initial n d st0 N inst w' Hdrv Hlock Hcache Happ) as Hinv0.
  pose proof (inv_steps n d _ _ _ _ _ Hinit _ _ Hinv0 Hsteps) as Hinv.
  split; [|split; [|split]].
  - eapply inv_progress; eassumption.
  - intros s'. apply step_decreases.
  - exact (inv_completes n d _ _ _ _ _ Hinit _ s (Nat.le_refl _) Hinv).
  - intros Hd.
    destruct (inv_final n d _ _ _ _ _ Hinit s Hinv Hd) as (Hc & Hw & Hi & Hall).
    { rewrite (steps_length _ _ Hsteps). simpl. rewrite length_replicate. lia. }
    split; [exact Hc|]. split; [apply init_count_snoc; exact Hc|]. auto.
Qed.

(** *** A call that runs alone *)

(** The fast path: the instance is found in the shared object, before the
    local cache is even looked at; nothing changes. *)
Lemma get_instance_fast (n : string) (i : nat) (st : state) :
  is_Some (_drivers st !! n) ->
  _get_from_app_state n st = PyRef i ->
  get_instance n st = Some (Ok (PyRef i), st).
Proof.
  intros Hdrv Happ. unfold get_instance. cbn [run_task task_step].
  rewrite decide_True by assumption. rewrite Happ. reflexivity.
Qed.

(** The state in which [initialize] is awaited, and the one left by a
    failure of [initialize]. *)
Definition awaiting (n : string) (st : state) : state :=
  log_call (EvInitialize n) (set_locks (<[n := true]> (_locks st)) st).

(** The slow path: nothing is cached, the lock is free, [initialize] runs. *)
Lemma get_instance_cold (n : string) (d : Driver) (st : state) :
  _drivers st !! n = Some d ->
  _locks st !! n = Some false ->
  _instances st !! n = None ->
  _get_from_app_state n st = PyNone ->
  get_instance n st =
    match initialize d (getattr_config (config st) n) (world st) with
    | (Ok instance, w) =>
        Some (Ok instance,
              release n (_store_to_app_state n instance
                (set_instances (<[n := instance]> (_instances st))
                   (set_world w (awaiting n st)))))
    | (Raise e, w) => Some (Raise e, release n (set_world w (awaiting n st)))
    end.
Proof.
  intros Hdrv Hlock Hcache Happ. unfold get_instance.
  cbn [run_task task_step].
  rewrite decide_True by (rewrite Hdrv; eauto).
  rewrite Happ, Hcache, Hlock. cbn [run_task task_step]. rewrite Hlock.
  cbn [run_task task_step].
  change (_get_from_app_state n (set_locks (<[n:=true]> (_locks st)) st))
    with (_get_from_app_state n st).
  rewrite Happ. cbn [set_locks _instances _drivers]. rewrite Hcache, Hdrv.
  cbn [run_task task_step log_call set_locks _drivers config world].
  rewrite Hdrv.
  destruct (initialize d (getattr_config (config st) n) (world st)) as [[inst|e] w];
    reflexivity.
Qed.

(** *** Well-formed containers: every cached name is a registered one *)

Definition wf (st : state) : Prop :=
  forall name, is_Some (_instances st !! name) -> is_Some (_drivers st !! name).

(** DriverContainer.__init__ with _register_default_drivers *)
Definition new_container (c : DriverConfig) (a : option (gmap string pyobj))
    (HttpxDriver StorageDriver MongoDriver : Driver) (w : World) : state :=
  let drivers :=
    <["mongo" := MongoDriver]> (<["storage" := StorageDriver]>
      (<["httpx" := HttpxDriver]> ∅)) in
  {| config := c; app_state := a; _instances := ∅; _drivers := drivers;
     _locks := (fun _ => false) <$> drivers; world := w; calls := [] |}.

Lemma wf_new_container c a h s m w : wf (new_container c a h s m w).
Proof. intros name [x Hx]. simpl in Hx. rewrite dict_lookup_empty in Hx. discriminate. Qed.

Lemma wf_register_driver (name : string) (driver : Driver) (st : state) :
  wf st -> wf (register_driver name driver st).
Proof.
  intros H k Hk. simpl in *. destruct (decide (name = k)) as [->|Hne].
  - rewrite lookup_insert_eq. eauto.
  - rewrite lookup_insert_ne by assumption. auto.
Qed.

Lemma wf_task_step (n : string) (p p' : pc) (st st' : state) :
  wf st -> task_step n p st = Some (p', st') -> wf st'.
Proof.
  intros H Hs. destruct p; cbn [task_step] in Hs;
    repeat case_match; simplify_eq; try exact H.
  intros k Hk. cbn [release set_locks _instances _drivers] in *.
  destruct (store_frame n a (set_instances (<[n:=a]> (_instances st)) (set_world w st)))
    as (_ & Fi & Fd & _).
  rewrite Fi in Hk. rewrite Fd. simpl in *.
  destruct (decide (n = k)) as [->|Hne]; [eauto|].
  rewrite dict_lookup_insert_ne in Hk by assumption. auto.
Qed.

(** *** [cleanup_all] *)

Lemma filter_all {A : Type} (P : A -> Prop) `{forall x, Decision (P x)} (l : list A) :
  Forall P l -> filter P l = l.
Proof.
  induction 1 as [|x l Hx _ IH]; [reflexivity|].
  rewrite filter_cons, decide_True by assumption. f_equal. exact IH.
Qed.

Lemma cleanup_instance_frame (name : string) (inst : pyobj) (st : state) :
  _drivers (_cleanup_instance name inst st).2 = _drivers st
  /\ app_state (_cleanup_instance name inst st).2 = app_state st
  /\ _instances (_cleanup_instance name inst st).2 = _instances st.
Proof.
  unfold _cleanup_instance. destruct (_drivers st !! name) as [d|]; [|auto].
  destruct (cleanup d inst (world st)) as [[u|e] w]; auto.
Qed.

Lemma cleanup_instance_calls (name : string) (inst : pyobj) (st : state) :
  is_Some (_drivers st !! name) ->
  calls (_cleanup_instance name inst st).2 = calls st ++ [EvCleanup name inst].
Proof.
  intros [d Hd]. unfold _cleanup_instance. rewrite Hd.
  destruct (cleanup d inst (world st)) as [[u|e] w]; reflexivity.
Qed.

(** [_cleanup_instance] never raises. *)
Lemma cleanup_instance_ok (name : string) (inst : pyobj) (st : state) :
  (_cleanup_instance name inst st).1 = Ok tt.
Proof.
  unfold _cleanup_instance. destruct (_drivers st !! name) as [d|]; [|reflexivity].
  destruct (cleanup d inst (world st)) as [[u|e] w]; reflexivity.
Qed.

(** The cleanup calls are exactly those collected, whatever each one does. *)
Lemma cleanup_gather_calls (l : list (string * pyobj)) (st : state) :
  Forall (fun ni => is_Some (_drivers st !! ni.1)) l ->
  calls (gather (map (fun ni : string * pyobj => _cleanup_instance ni.1 ni.2) l) st).2
  = calls st ++ map (fun ni => EvCleanup ni.1 ni.2) l.
Proof.
  revert st. induction l as [|[name inst] l IH]; intros st Hl; simpl.
  - rewrite app_nil_r. reflexivity.
  - inversion Hl as [|? ? Hx Hl']; subst. simpl in Hx.
    pose proof (cleanup_instance_calls name inst st Hx) as Hc.
    destruct (cleanup_instance_frame name inst st) as (Hd & _).
    destruct (_cleanup_instance name inst st) as [r st1]. simpl in Hc, Hd.
    assert (Forall (fun ni => is_Some (_drivers st1 !! ni.1)) l) as Hl1.
    { eapply Forall_impl; [exact Hl'|]. intros ni Hni. rewrite Hd. exact Hni. }
    specialize (IH st1 Hl1).
    destruct (gather (map (fun ni : string * pyobj => _cleanup_instance ni.1 ni.2) l) st1)
      as [rs st2].
    simpl in *. rewrite IH, Hc, <- app_assoc. reflexivity.
Qed.

(** The driver calls [cleanup_all] makes. *)
Definition cleanup_calls (st : state) : list event :=
  map (fun ni => EvCleanup ni.1 ni.2)
    (filter (fun ni => is_Some (_drivers st !! ni.1)) (items (_instances st))).

Lemma cleanup_all_calls (st : state) :
  calls (cleanup_all st).2 = calls st ++ cleanup_calls st.
Proof.
  unfold cleanup_all, cleanup_calls. cbn [snd set_instances calls].
  set (l := filter (fun ni => is_Some (_drivers st !! ni.1)) (items (_instances st))).
  assert (Forall (fun ni => is_Some (_drivers st !! ni.1)) l) as Hl.
  { apply Forall_forall. intros ni Hni. apply list_elem_of_filter in Hni as [Hni _].
    exact Hni. }
  pose proof (cleanup_gather_calls l st Hl) as Hg.
  destruct l as [|ni l]; [simpl; rewrite app_nil_r; reflexivity|].
  exact Hg.
Qed.

(** *** [health_check_all] *)

Lemma health_fold_dom (l : list (string * pyobj)) (acc : gmap string bool * state)
    (name : string) :
  (forall inst, (name, inst) ∉ l) ->
  (foldl health_check_one acc l).1 !! name = acc.1 !! name.
Proof.
  revert acc. induction l as [|[k inst] l IH]; intros [hs st] Hl; [reflexivity|].
  cbn [foldl]. rewrite IH.
  - assert (k <> name) as Hne.
    { intros ->. apply (Hl inst). left. }
    unfold health_check_one. cbn [fst snd].
    destruct (_drivers st !! k) as [d|]; [|reflexivity].
    destruct (health_check d inst (world st)) as [[b|e] w]; cbn [fst];
      rewrite lookup_insert_ne by assumption; reflexivity.
  - intros inst' Hin. apply (Hl inst'). right. exact Hin.
Qed.

Lemma cleanup_calls_cached (st : state) (name : string) (inst : pyobj) :
  EvCleanup name inst ∈ cleanup_calls st -> _instances st !! name = Some inst.
Proof.
  unfold cleanup_calls. intros Hin.
  apply list_elem_of_fmap in Hin as ([k i] & Heq & Hin). simpl in Heq.
  inversion Heq; subst.
  apply list_elem_of_filter in Hin as [_ Hin].
  apply elem_of_items in Hin. exact Hin.
Qed.

(** The world after the cleanup of one cached instance: the one the
    [cleanup] of its driver leaves, whether it returns or raises. *)
Definition cleaned (st : state) (w : World) (ni : string * pyobj) : World :=
  match _drivers st !! ni.1 with
  | Some d => (cleanup d ni.2 w).2
  | None => w
  end.

Lemma cleanup_instance_world (name : string) (inst : pyobj) (st : state) :
  world (_cleanup_instance name inst st).2 = cleaned st (world st) (name, inst).
Proof.
  unfold _cleanup_instance, cleaned. cbn [fst snd].
  destruct (_drivers st !! name) as [d|]; [|reflexivity].
  destruct (cleanup d inst (world st)) as [[u|e] w]; reflexivity.
Qed.

(** The cleanups collected act on the world one after the other, each in
    the world the previous one left; none of them ends with an exception. *)
Lemma cleanup_gather_world (st : state) (l : list (string * pyobj)) (st0 : state) :
  _drivers st0 = _drivers st ->
  world (gather (map (fun ni : string * pyobj => _cleanup_instance ni.1 ni.2) l) st0).2
  = foldl (cleaned st) (world st0) l
  /\ (gather (map (fun ni : string * pyobj => _cleanup_instance ni.1 ni.2) l) st0).1
     = map (fun _ => Ok tt) l.
Proof.
  revert st0. induction l as [|[name inst] l IH]; intros st0 Hd; [split; reflexivity|].
  cbn [map gather foldl fst snd].
  pose proof (cleanup_instance_world name inst st0) as Hw.
  pose proof (cleanup_instance_ok name inst st0) as Hr.
  destruct (cleanup_instance_frame name inst st0) as (Hd1 & _).
  destruct (_cleanup_instance name inst st0) as [r st1]. cbn [fst snd] in *.
  destruct (IH st1) as (IHw & IHr); [congruence|].
  destruct (gather (map (fun ni : string * pyobj => _cleanup_instance ni.1 ni.2) l) st1)
    as [rs st2].
  cbn [fst snd] in *. split.
  - rewrite IHw, Hw. unfold cleaned at 2 4. rewrite Hd. reflexivity.
  - rewrite Hr, IHr. reflexivity.
Qed.

Lemma wf_items (st : state) :
  wf st ->
  filter (fun ni : string * pyobj => is_Some (_drivers st !! ni.1)) (items (_instances st))
  = items (_instances st).
Proof.
  intros Hwf. apply filter_all. apply Forall_forall. intros [name inst] Hin. simpl.
  apply elem_of_items in Hin. apply Hwf. eauto.
Qed.

(** C7.  In a well-formed container [cleanup_all] calls the [cleanup] of its
    driver once on every cached instance, in the order in which the
    instances were cached, whatever these calls do (return or raise): each one
    acts on the world that the previous ones have left, no cleanup task ends
    with an exception, [cleanup_all] returns normally, and the local cache
    is empty afterwards.  In particular the cleanup of a cached instance
    takes effect, and those after it still do, when an earlier one has
    raised. *)
Theorem cleanup_all_isolated (st : state) :
  wf st ->
  (cleanup_all st).1 = Ok tt
  /\ _instances (cleanup_all st).2 = ∅
  /\ (gather (map (fun ni : string * pyobj => _cleanup_instance ni.1 ni.2)
                (items (_instances st))) st).1
     = map (fun _ => Ok tt) (items (_instances st))
  /\ calls (cleanup_all st).2
     = calls st ++ map (fun ni => EvCleanup ni.1 ni.2) (items (_instances st))
  /\ world (cleanup_all st).2 = foldl (cleaned st) (world st) (items (_instances st))
  /\ forall name inst, _instances st !! name = Some inst ->
       EvCleanup name inst ∈ calls (cleanup_all st).2
       /\ exists d before after,
            _drivers st !! name = Some d
            /\ items (_instances st) = before ++ (name, inst) :: after
            /\ world (cleanup_all st).2
               = foldl (cleaned st)
                   (cleanup d inst (foldl (cleaned st) (world st) before)).2 after.
Proof.
  intros Hwf.
  assert (calls (cleanup_all st).2
          = calls st ++ map (fun ni => EvCleanup ni.1 ni.2) (items (_instances st))) as Hcalls.
  { rewrite cleanup_all_calls. unfold cleanup_calls. rewrite wf_items by exact Hwf.
    reflexivity. }
  assert (world (cleanup_all st).2 = foldl (cleaned st) (world st) (items (_instances st)))
    as Hworld.
  { unfold cleanup_all. cbn [snd set_instances world]. rewrite wf_items by exact Hwf.
    destruct (cleanup_gather_world st (items (_instances st)) st eq_refl) as (Hw & _).
    destruct (items (_instances st)) as [|ni l]; [reflexivity|exact Hw]. }
  split; [reflexivity|]. split; [reflexivity|]. split; [|split; [exact Hcalls|split]].
  - apply (cleanup_gather_world st (items (_instances st)) st eq_refl).
  - exact Hworld.
  - intros name inst Hin. split.
    + rewrite Hcalls. apply elem_of_app. right.
      apply (list_elem_of_fmap_2 (fun ni => EvCleanup ni.1 ni.2) _ (name, inst)).
      apply elem_of_items. exact Hin.
    + destruct (Hwf name) as [d Hd]; [eauto|].
      apply elem_of_items, list_elem_of_split in Hin as (before & after & Hsplit).
      exists d, before, after. split; [exact Hd|]. split; [exact Hsplit|].
      rewrite Hworld, Hsplit, foldl_app. cbn [foldl].
      unfold cleaned at 2. cbn [fst snd]. rewrite Hd. reflexivity.
Qed.

(** C8.  When a call of [get_instance] reaches [initialize] and
    [initialize] raises, the call raises the same error, the lock is
    released, neither the local cache nor the shared object is changed, and
    the next call for that name invokes [initialize] once more. *)
Theorem get_instance_initialize_fails (n : string) (d : Driver) (st : state)
    (e : exn) (w : World) :
  _drivers st !! n = Some d ->
  _locks st !! n = Some false ->
  _instances st !! n = None ->
  _get_from_app_state n st = PyNone ->
  initialize d (getattr_config (config st) n) (world st) = (Raise e, w) ->
  exists st',
    get_instance n st = Some (Raise e, st')
    /\ _instances st' = _instances st
    /\ app_state st' = app_state st
    /\ _locks st' !! n = Some false
    /\ init_count n st' = init_count n st + 1
    /\ exists r st'', get_instance n st' = Some (r, st'')
                      /\ init_count n st'' = init_count n st + 2.
Proof.
  intros Hdrv Hlock Hcache Happ Hinit.
  exists (release n (set_world w (awaiting n st))).
  assert (init_count n (release n (set_world w (awaiting n st)))
          = init_count n st + 1) as Hcount.
  { change (init_count n (release n (set_world w (awaiting n st))))
      with (init_count n (log_call (EvInitialize n) st)).
    rewrite init_count_log, decide_True by reflexivity. reflexivity. }
  split; [|split; [|split; [|split; [|split]]]].
  - rewrite (get_instance_cold n d st Hdrv Hlock Hcache Happ), Hinit. reflexivity.
  - reflexivity.
  - reflexivity.
  - simpl. apply lookup_insert_eq.
  - exact Hcount.
  - set (st' := release n (set_world w (awaiting n st))) in *.
    assert (get_instance n st' =
      match initialize d (getattr_config (config st') n) (world st') with
      | (Ok instance, w0) =>
          Some (Ok instance,
                release n (_store_to_app_state n instance
                  (set_instances (<[n := instance]> (_instances st'))
                     (set_world w0 (awaiting n st')))))
      | (Raise e0, w0) => Some (Raise e0, release n (set_world w0 (awaiting n st')))
      end) as Hnext.
    { apply get_instance_cold; try assumption. simpl. apply lookup_insert_eq. }
    rewrite Hnext.
    destruct (initialize d (getattr_config (config st') n) (world st'))
      as [[inst|e0] w0].
    + eexists _, _. split; [reflexivity|].
      match goal with |- init_count n (release n (_store_to_app_state n inst ?s)) = _ =>
        destruct (store_frame n inst s) as (_ & _ & _ & _ & _ & Fk) end.
      unfold init_count in *. cbn [release set_locks calls]. rewrite Fk.
      cbn [set_instances set_world awaiting log_call set_locks calls].
      rewrite filter_app, length_app.
      rewrite filter_cons, filter_nil, decide_True by reflexivity.
      simpl. unfold st' in Hcount. simpl in Hcount. lia.
    + eexists _, _. split; [reflexivity|].
      unfold init_count in *.
      cbn [release set_locks set_world awaiting log_call calls].
      rewrite filter_app, length_app.
      rewrite filter_cons, filter_nil, decide_True by reflexivity.
      simpl. unfold st' in Hcount. simpl in Hcount. lia.
Qed.

(** C10 (as amended).  A call answered from the shared object returns the
    instance found there and changes nothing, the local cache included.
    Hence, if that instance is not in the local cache, [cleanup_all] does not
    clean it up; and if the name has no entry in the local cache, it is not a
    key of the map of [health_check_all]. *)
Theorem fast_path_leaves_cache (n : string) (i : nat) (st : state) :
  is_Some (_drivers st !! n) ->
  _get_from_app_state n st = PyRef i ->
  get_instance n st = Some (Ok (PyRef i), st)
  /\ calls (cleanup_all st).2 = calls st ++ cleanup_calls st
  /\ ((forall name, _instances st !! name <> Some (PyRef i)) ->
      forall name, EvCleanup name (PyRef i) ∉ cleanup_calls st)
  /\ (_instances st !! n = None -> (health_check_all st).1 !! n = None).
Proof.
  intros Hdrv Happ. split; [|split; [|split]].
  - apply get_instance_fast; assumption.
  - apply cleanup_all_calls.
  - intros Hnot name Hin. apply cleanup_calls_cached in Hin.
    exact (Hnot name Hin).
  - intros Hcache. unfold health_check_all.
    rewrite health_fold_dom; [apply lookup_empty|].
    intros inst Hin. apply elem_of_items in Hin. congruence.
Qed.

(** ** Further properties of the container *)

(** *** A call that runs alone, in closed form *)

Lemma get_instance_alone (n : string) (st : state) :
  get_instance n st =
    match _drivers st !! n with
    | None => Some (Raise (ValueError ("Driver '" +:+ n +:+ "' not registered")), st)
    | Some d =>
        match _get_from_app_state n st with
        | PyRef i => Some (Ok (PyRef i), st)
        | PyNone =>
            match _instances st !! n with
            | Some inst => Some (Ok inst, st)
            | None =>
                match _locks st !! n with
                | Some false =>
                    match initialize d (getattr_config (config st) n) (world st) with
                    | (Ok instance, w) =>
                        Some (Ok instance,
                              release n (_store_to_app_state n instance
                                (set_instances (<[n := instance]> (_instances st))
                                   (set_world w (awaiting n st)))))
                    | (Raise e, w) =>
                        Some (Raise e, release n (set_world w (awaiting n st)))
                    end
                | Some true => None
                | None => Some (Raise (KeyError n), st)
                end
            end
        end
    end.
Proof.
  destruct (_drivers st !! n) as [d|] eqn:Hdrv.
  - assert (is_Some (_drivers st !! n)) as Hreg by (rewrite Hdrv; eauto).
    destruct (_get_from_app_state n st) as [|i] eqn:Happ;
      [|apply get_instance_fast; assumption].
    destruct (_instances st !! n) as [inst|] eqn:Hcache.
    { unfold get_instance. cbn [run_task task_step].
      rewrite decide_True by assumption. rewrite Happ, Hcache. reflexivity. }
    destruct (_locks st !! n) as [[|]|] eqn:Hlock.
    + unfold get_instance. cbn [run_task task_step].
      rewrite decide_True by assumption. rewrite Happ, Hcache, Hlock.
      cbn [run_task task_step]. rewrite Hlock. reflexivity.
    + apply get_instance_cold; assumption.
    + unfold get_instance. cbn [run_task task_step].
      rewrite decide_True by assumption. rewrite Happ, Hcache, Hlock. reflexivity.
  - unfold get_instance. cbn [run_task task_step].
    rewrite decide_False; [reflexivity|]. rewrite Hdrv. intros [x Hx]. discriminate.
Qed.

(** The state a successful [initialize] leaves. *)
Definition initialized (n : string) (instance : pyobj) (w : World) (st : state) : state :=
  release n (_store_to_app_state n instance
    (set_instances (<[n := instance]> (_instances st)) (set_world w (awaiting n st)))).

Lemma initialized_frame (n : string) (instance : pyobj) (w : World) (st : state) :
  _drivers (initialized n instance w st) = _drivers st
  /\ _instances (initialized n instance w st) = <[n := instance]> (_instances st)
  /\ calls (initialized n instance w st) = calls st ++ [EvInitialize n]
  /\ config (initialized n instance w st) = config st.
Proof.
  unfold initialized.
  destruct (store_frame n instance
              (set_instances (<[n := instance]> (_instances st))
                 (set_world w (awaiting n st)))) as (Fc & Fi & Fd & _ & _ & Fk).
  cbn [release set_locks _drivers _instances calls config].
  rewrite Fc, Fi, Fd, Fk. auto.
Qed.

Lemma initialized_probe (n : string) (instance : pyobj) (w : World) (st : state) :
  _get_from_app_state n st = PyNone ->
  _get_from_app_state n (initialized n instance w st) = PyNone
  \/ _get_from_app_state n (initialized n instance w st) = instance.
Proof.
  intros Happ.
  apply (get_after_store n instance
           (set_instances (<[n := instance]> (_instances st))
              (set_world w (awaiting n st)))).
  exact Happ.
Qed.

(** A call that has returned an instance can be repeated. *)
Lemma get_instance_again (n : string) (st st' : state) (inst : pyobj) :
  get_instance n st = Some (Ok inst, st') ->
  get_instance n st' = Some (Ok inst, st').
Proof.
  rewrite get_instance_alone.
  destruct (_drivers st !! n) as [d|] eqn:Hdrv; [|discriminate].
  destruct (_get_from_app_state n st) as [|i] eqn:Happ.
  2:{ intros H; inversion H; subst. apply get_instance_fast; [rewrite Hdrv; eauto|].
      exact Happ. }
  destruct (_instances st !! n) as [c|] eqn:Hcache.
  { intros H; inversion H; subst. rewrite get_instance_alone, Hdrv, Happ, Hcache.
    reflexivity. }
  destruct (_locks st !! n) as [[|]|]; try discriminate.
  destruct (initialize d (getattr_config (config st) n) (world st))
    as [[instance|e] w] eqn:Hinit; [|discriminate].
  intros H; inversion H; subst; clear H.
  fold (initialized n inst w st).
  destruct (initialized_frame n inst w st) as (Fd & Fi & _ & _).
  rewrite get_instance_alone, Fd, Hdrv, Fi, dict_lookup_insert_eq.
  destruct (initialized_probe n inst w st Happ) as [-> | ->]; [reflexivity|].
  destruct inst; reflexivity.
Qed.

(** The driver calls a lone [get_instance] makes: none, or one
    [initialize]. *)
Lemma get_instance_calls (n : string) (st st' : state) (r : result pyobj) :
  get_instance n st = Some (r, st') ->
  calls st' = calls st \/ calls st' = calls st ++ [EvInitialize n].
Proof.
  rewrite get_instance_alone.
  destruct (_drivers st !! n) as [d|]; [|intros H; inversion H; auto].
  destruct (_get_from_app_state n st) as [|i]; [|intros H; inversion H; auto].
  destruct (_instances st !! n) as [c|]; [intros H; inversion H; auto|].
  destruct (_locks st !! n) as [[|]|]; [discriminate| |intros H; inversion H; auto].
  destruct (initialize d (getattr_config (config st) n) (world st)) as [[instance|e] w];
    intros H; inversion H; subst; right.
  - fold (initialized n instance w st).
    destruct (initialized_frame n instance w st) as (_ & _ & Fk & _). exact Fk.
  - reflexivity.
Qed.

(** X1.  A call of [get_instance] that has returned an instance can be
    repeated: the next call for the same name returns the same instance and
    changes nothing, so [initialize] is not invoked again; the first call
    has invoked it at most once. *)
Theorem get_instance_idempotent (n : string) (st st' : state) (inst : pyobj) :
  get_instance n st = Some (Ok inst, st') ->
  get_instance n st' = Some (Ok inst, st')
  /\ (calls st' = calls st \/ calls st' = calls st ++ [EvInitialize n]).
Proof.
  intros H. split; [exact (get_instance_again n st st' inst H)|].
  exact (get_instance_calls n st st' (Ok inst) H).
Qed.

(** DriverContainer.get_httpx, get_storage and get_mongo: the instance is
    asked for twice, and the second answer is returned. *)
Definition get_twice (name : string) (st : state) : option (result pyobj * state) :=
  match get_instance name st with
  | Some (Ok _, st1) => get_instance name st1
  | Some (Raise e, st1) => Some (Raise e, st1)
  | None => None
  end.

Definition get_httpx : state -> option (result pyobj * state) := get_twice "httpx".
Definition get_storage : state -> option (result pyobj * state) := get_twice "storage".
Definition get_mongo : state -> option (result pyobj * state) := get_twice "mongo".

(** X2.  The convenience getters behave as a single [get_instance]: same
    outcome, same final state, whatever the state of the container. *)
Theorem convenience_getters_single_call (st : state) :
  get_httpx st = get_instance "httpx" st
  /\ get_storage st = get_instance "storage" st
  /\ get_mongo st = get_instance "mongo" st.
Proof.
  assert (forall name, get_twice name st = get_instance name st) as H.
  { intros name. unfold get_twice.
    destruct (get_instance name st) as [[[inst|e] st1]|] eqn:Hg; try reflexivity.
    apply get_instance_again in Hg. exact Hg. }
  unfold get_httpx, get_storage, get_mongo. rewrite !H. auto.
Qed.

(** *** The shared object *)

(** The attribute under which [_store_to_app_state] publishes an instance. *)
Definition stored_attr (name : string) : string :=
  if decide (name = "mysql") then name +:+ "_pool" else name +:+ "_driver".

Lemma length_append (s t : string) :
  String.length (s +:+ t) = String.length s + String.length t.
Proof. induction s as [|a s IH]; simpl; [reflexivity|]. rewrite IH. reflexivity. Qed.

Lemma append_longer (p s t : string) :
  0 < String.length p + String.length t -> s <> p +:+ s +:+ t.
Proof.
  intros Hlen Heq. apply (f_equal String.length) in Heq.
  rewrite !length_append in Heq. lia.
Qed.

Lemma prepend_longer (p s : string) : 0 < String.length p -> s <> p +:+ s.
Proof.
  intros Hlen Heq. apply (f_equal String.length) in Heq.
  rewrite length_append in Heq. lia.
Qed.

Lemma probe_stored (attrs : gmap string pyobj) (name : string) (i : nat) :
  probe attrs (possible_names name) = PyNone ->
  probe (<[stored_attr name := PyRef i]> attrs) (possible_names name) = PyRef i.
Proof.
  unfold stored_attr, possible_names.
  destruct (decide (name = "mysql")) as [->|Hne]; cbn [probe]; intros H.
  - change ("mysql" +:+ "_driver") with "mysql_driver" in *.
    change ("async_" +:+ "mysql_driver") with "async_mysql_driver" in *.
    change ("mysql" +:+ "_pool") with "mysql_pool" in *.
    rewrite !lookup_insert_ne by discriminate.
    destruct (attrs !! "mysql") as [[|j]|]; try discriminate H;
      destruct (attrs !! "mysql_driver") as [[|j']|]; try discriminate H;
      destruct (attrs !! "async_mysql_driver") as [[|j'']|]; try discriminate H;
      rewrite lookup_insert_eq; reflexivity.
  - assert (name +:+ "_driver" <> name) as Hn.
    { intros Heq. symmetry in Heq. revert Heq.
      apply (append_longer "" name "_driver"). simpl. lia. }
    rewrite lookup_insert_ne by exact Hn.
    destruct (attrs !! name) as [[|j]|]; try discriminate H;
      rewrite lookup_insert_eq; reflexivity.
Qed.

(** X3.  Publishing and looking up agree: when the container has a shared
    object and the lookup for [name] finds nothing, the instance that
    [_store_to_app_state] publishes for [name] is the one
    [_get_from_app_state] finds afterwards; this covers "mysql", which is
    published under [mysql_pool], the last name probed. *)
Theorem store_then_get (name : string) (i : nat) (st : state) :
  is_Some (app_state st) ->
  _get_from_app_state name st = PyNone ->
  _get_from_app_state name (_store_to_app_state name (PyRef i) st) = PyRef i.
Proof.
  intros [attrs Ha]. unfold _get_from_app_state, _store_to_app_state. rewrite Ha.
  cbn [set_app_state app_state]. apply probe_stored.
Qed.

(** Publishing for [async_<n>] is found by the lookup for [n]. *)
Lemma probe_async (attrs : gmap string pyobj) (n : string) (i : nat) :
  probe attrs (possible_names n) = PyNone ->
  probe (<[stored_attr ("async_" +:+ n) := PyRef i]> attrs) (possible_names n) = PyRef i.
Proof.
  unfold stored_attr, possible_names.
  destruct (decide ("async_" +:+ n = "mysql")) as [Heq|_];
    [vm_compute in Heq; discriminate Heq|].
  cbn [probe]. intros H.
  change (("async_" +:+ n) +:+ "_driver") with ("async_" +:+ n +:+ "_driver").
  assert ("async_" +:+ n +:+ "_driver" <> n) as Hn.
  { intros Heq. symmetry in Heq. revert Heq. apply append_longer. simpl. lia. }
  assert ("async_" +:+ n +:+ "_driver" <> n +:+ "_driver") as Hd.
  { intros Heq. symmetry in Heq. revert Heq.
    apply (prepend_longer "async_" (n +:+ "_driver")). simpl. lia. }
  rewrite (lookup_insert_ne _ _ n) by exact Hn.
  rewrite (lookup_insert_ne _ _ (n +:+ "_driver")) by exact Hd.
  destruct (attrs !! n) as [[|j]|]; try discriminate H;
    destruct (attrs !! (n +:+ "_driver")) as [[|j']|]; try discriminate H;
    rewrite lookup_insert_eq; reflexivity.
Qed.

(** X4.  Names collide in the shared object: the instance created for the
    driver [async_<n>] is published under [async_<n>_driver], one of the
    names probed for [n].  A later [get_instance n] returns that instance and
    the driver registered under [n] is never initialized. *)
Theorem async_name_shadows (n : string) (d : Driver) (st : state) (i : nat) (w : World) :
  _drivers st !! ("async_" +:+ n) = Some d ->
  is_Some (_drivers st !! n) ->
  is_Some (app_state st) ->
  _locks st !! ("async_" +:+ n) = Some false ->
  _instances st !! ("async_" +:+ n) = None ->
  _get_from_app_state ("async_" +:+ n) st = PyNone ->
  _get_from_app_state n st = PyNone ->
  initialize d (getattr_config (config st) ("async_" +:+ n)) (world st) = (Ok (PyRef i), w) ->
  exists st',
    get_instance ("async_" +:+ n) st = Some (Ok (PyRef i), st')
    /\ get_instance n st' = Some (Ok (PyRef i), st')
    /\ init_count n st' = init_count n st.
Proof.
  intros Hdrv Hreg [attrs Ha] Hlock Hcache Happa Happ Hinit.
  exists (initialized ("async_" +:+ n) (PyRef i) w st).
  destruct (initialized_frame ("async_" +:+ n) (PyRef i) w st) as (Fd & _ & Fk & _).
  split; [|split].
  - rewrite get_instance_alone, Hdrv, Happa, Hcache, Hlock, Hinit. reflexivity.
  - apply get_instance_fast; [rewrite Fd; exact Hreg|].
    unfold initialized, _get_from_app_state, _store_to_app_state.
    cbn [set_instances set_world awaiting log_call set_locks app_state release].
    rewrite Ha. cbn [set_app_state app_state].
    apply probe_async. unfold _get_from_app_state in Happ. rewrite Ha in Happ. exact Happ.
  - unfold init_count. rewrite Fk, filter_app, length_app, filter_cons, filter_nil.
    rewrite decide_False; [simpl; lia|].
    intros Heq. inversion Heq as [Heq']. symmetry in Heq'. revert Heq'.
    apply (prepend_longer "async_" n). simpl. lia.
Qed.

(** *** After [cleanup_all] *)

Lemma cleanup_instance_registry (name : string) (inst : pyobj) (st : state) :
  _locks (_cleanup_instance name inst st).2 = _locks st
  /\ config (_cleanup_instance name inst st).2 = config st.
Proof.
  unfold _cleanup_instance. destruct (_drivers st !! name) as [d|]; [|auto].
  destruct (cleanup d inst (world st)) as [[u|e] w]; auto.
Qed.

Lemma gather_cleanup_frame (l : list (string * pyobj)) (st : state) :
  let st' := (gather (map (fun ni : string * pyobj => _cleanup_instance ni.1 ni.2) l) st).2 in
  _drivers st' = _drivers st /\ app_state st' = app_state st
  /\ _instances st' = _instances st /\ _locks st' = _locks st /\ config st' = config st.
Proof.
  revert st. induction l as [|[name inst] l IH]; intros st; cbn [map gather fst snd].
  - cbn. auto.
  - destruct (cleanup_instance_frame name inst st) as (Hd & Ha & Hi).
    destruct (cleanup_instance_registry name inst st) as (Hl & Hc).
    destruct (_cleanup_instance name inst st) as [r st1]. cbn [snd] in *.
    specialize (IH st1). cbn zeta in IH. destruct IH as (Hd' & Ha' & Hi' & Hl' & Hc').
    destruct (gather (map (fun ni : string * pyobj => _cleanup_instance ni.1 ni.2) l) st1)
      as [rs st2].
    cbn [snd] in *. rewrite Hd', Ha', Hi', Hl', Hc'. auto.
Qed.

Lemma cleanup_all_frame (st : state) :
  _drivers (cleanup_all st).2 = _drivers st
  /\ app_state (cleanup_all st).2 = app_state st
  /\ _locks (cleanup_all st).2 = _locks st
  /\ config (cleanup_all st).2 = config st.
Proof.
  unfold cleanup_all. cbn [snd set_instances _drivers app_state _locks config].
  set (l := filter (fun ni => is_Some (_drivers st !! ni.1)) (items (_instances st))).
  destruct (gather_cleanup_frame l st) as (Hd & Ha & _ & Hl & Hc).
  destruct l as [|ni l]; [auto|]. auto.
Qed.

(** X5.  [cleanup_all] empties the local cache but leaves the shared object
    as it is.  An instance that was published there is still found by the
    next [get_instance], which returns it through the fast path, with no
    [initialize], although [cleanup] has been called on it when it was in
    the local cache. *)
Theorem cleanup_all_keeps_shared (n : string) (i : nat) (st : state) :
  is_Some (_drivers st !! n) ->
  _get_from_app_state n st = PyRef i ->
  app_state (cleanup_all st).2 = app_state st
  /\ (_instances st !! n = Some (PyRef i) ->
      EvCleanup n (PyRef i) ∈ calls (cleanup_all st).2)
  /\ get_instance n (cleanup_all st).2 = Some (Ok (PyRef i), (cleanup_all st).2)
  /\ init_count n (cleanup_all st).2 = init_count n st.
Proof.
  intros Hreg Happ. destruct (cleanup_all_frame st) as (Hd & Ha & _ & _).
  split; [exact Ha|]. split; [|split].
  - intros Hcache. rewrite cleanup_all_calls. apply elem_of_app. right.
    unfold cleanup_calls.
    apply (list_elem_of_fmap_2 (fun ni : string * pyobj => EvCleanup ni.1 ni.2) _
             (n, PyRef i)).
    apply list_elem_of_filter. split; [exact Hreg|].
    apply elem_of_items. exact Hcache.
  - apply get_instance_fast; [rewrite Hd; exact Hreg|].
    unfold _get_from_app_state in *. rewrite Ha. exact Happ.
  - unfold init_count. rewrite cleanup_all_calls, filter_app, length_app.
    assert (filter (fun e => e = EvInitialize n) (cleanup_calls st) = []) as ->;
      [|simpl; lia].
    unfold cleanup_calls.
    induction (filter (fun ni : string * pyobj => is_Some (_drivers st !! ni.1))
                 (items (_instances st))) as [|ni l IH]; [reflexivity|].
    cbn [map]. rewrite filter_cons, decide_False by discriminate. exact IH.
Qed.

(** X6.  Once [cleanup_all] has run, the container manages nothing: a
    second [cleanup_all] and a [health_check_all] make no driver call and
    change nothing, and the health report is empty. *)
Theorem cleanup_all_twice (st : state) :
  cleanup_all (cleanup_all st).2 = (Ok tt, (cleanup_all st).2)
  /\ health_check_all (cleanup_all st).2 = (∅, (cleanup_all st).2).
Proof.
  split.
  - unfold cleanup_all at 1. cbn [cleanup_all snd set_instances _instances].
    rewrite items_empty. reflexivity.
  - unfold health_check_all. cbn [cleanup_all snd set_instances _instances].
    rewrite items_empty. reflexivity.
Qed.

(** *** [health_check_all], in full *)

(** What is reported for a driver whose [health_check] returned or raised. *)
Definition verdict (r : result bool) : bool :=
  match r with
  | Ok is_healthy => is_healthy
  | Raise _ => false
  end.

Lemma health_check_one_frame (acc : gmap string bool * state) (ni : string * pyobj) :
  _drivers (health_check_one acc ni).2 = _drivers acc.2
  /\ _instances (health_check_one acc ni).2 = _instances acc.2
  /\ app_state (health_check_one acc ni).2 = app_state acc.2
  /\ _locks (health_check_one acc ni).2 = _locks acc.2
  /\ config (health_check_one acc ni).2 = config acc.2.
Proof.
  destruct acc as [hs st]. unfold health_check_one. cbn [fst snd].
  destruct (_drivers st !! ni.1) as [d|]; [|auto].
  destruct (health_check d ni.2 (world st)) as [[b|e] w]; cbn; auto.
Qed.

Lemma health_check_one_at (acc : gmap string bool * state) (ni : string * pyobj)
    (d : Driver) :
  _drivers acc.2 !! ni.1 = Some d ->
  (health_check_one acc ni).1
  = <[ni.1 := verdict (health_check d ni.2 (world acc.2)).1]> acc.1
  /\ calls (health_check_one acc ni).2 = calls acc.2 ++ [EvHealthCheck ni.1 ni.2].
Proof.
  destruct acc as [hs st]. unfold health_check_one. cbn [fst snd]. intros ->.
  destruct (health_check d ni.2 (world st)) as [[b|e] w]; cbn; auto.
Qed.

Lemma health_fold_frame (l : list (string * pyobj)) (acc : gmap string bool * state) :
  _drivers (foldl health_check_one acc l).2 = _drivers acc.2
  /\ _instances (foldl health_check_one acc l).2 = _instances acc.2
  /\ app_state (foldl health_check_one acc l).2 = app_state acc.2
  /\ _locks (foldl health_check_one acc l).2 = _locks acc.2
  /\ config (foldl health_check_one acc l).2 = config acc.2.
Proof.
  revert acc. induction l as [|ni l IH]; intros acc; cbn [foldl]; [auto 10|].
  destruct (IH (health_check_one acc ni)) as (-> & -> & -> & -> & ->).
  apply health_check_one_frame.
Qed.

Lemma health_fold_calls (l : list (string * pyobj)) (acc : gmap string bool * state) :
  Forall (fun ni => is_Some (_drivers acc.2 !! ni.1)) l ->
  calls (foldl health_check_one acc l).2
  = calls acc.2 ++ map (fun ni => EvHealthCheck ni.1 ni.2) l.
Proof.
  revert acc. induction l as [|ni l IH]; intros acc Hl; cbn [foldl map].
  - rewrite app_nil_r. reflexivity.
  - inversion Hl as [|? ? [d Hd] Hl']; subst.
    destruct (health_check_one_at acc ni d Hd) as (_ & Hc).
    destruct (health_check_one_frame acc ni) as (Hdrv & _).
    rewrite IH.
    + rewrite Hc, <- app_assoc. reflexivity.
    + eapply Forall_impl; [exact Hl'|]. intros x Hx. cbn beta in *. rewrite Hdrv. exact Hx.
Qed.

(** The world after the health check of one cached instance. *)
Definition checked (st : state) (w : World) (ni : string * pyobj) : World :=
  match _drivers st !! ni.1 with
  | Some d => (health_check d ni.2 w).2
  | None => w
  end.

Lemma health_check_one_world (acc : gmap string bool * state) (ni : string * pyobj) :
  world (health_check_one acc ni).2 = checked acc.2 (world acc.2) ni.
Proof.
  destruct acc as [hs st]. unfold health_check_one, checked. cbn [fst snd].
  destruct (_drivers st !! ni.1) as [d|]; [|reflexivity].
  destruct (health_check d ni.2 (world st)) as [[b|e] w]; reflexivity.
Qed.

(** The health checks act on the world one after the other. *)
Lemma health_fold_world (st : state) (l : list (string * pyobj))
    (acc : gmap string bool * state) :
  _drivers acc.2 = _drivers st ->
  world (foldl health_check_one acc l).2 = foldl (checked st) (world acc.2) l.
Proof.
  revert acc. induction l as [|ni l IH]; intros acc Hd; cbn [foldl]; [reflexivity|].
  destruct (health_check_one_frame acc ni) as (Hd1 & _).
  rewrite IH by congruence. rewrite health_check_one_world.
  unfold checked at 2 4. rewrite Hd. reflexivity.
Qed.

(** What is reported for an instance that is listed once: the verdict on
    the answer its driver gave in the world the earlier checks had left. *)
Lemma health_fold_value (st : state) (before after : list (string * pyobj))
    (acc : gmap string bool * state) (name : string) (inst : pyobj) (d : Driver) :
  NoDup (before ++ (name, inst) :: after).*1 ->
  _drivers acc.2 = _drivers st -> _drivers st !! name = Some d ->
  (foldl health_check_one acc (before ++ (name, inst) :: after)).1 !! name
  = Some (verdict (health_check d inst (foldl (checked st) (world acc.2) before)).1).
Proof.
  intros Hnd Hacc Hd. rewrite foldl_app. cbn [foldl].
  rewrite fmap_app, fmap_cons in Hnd. apply NoDup_app in Hnd as (_ & _ & Hnd).
  apply NoDup_cons in Hnd as [Hni _]. cbn [fst] in Hni.
  rewrite health_fold_dom.
  2:{ intros inst' Hin'. apply Hni.
      apply (list_elem_of_fmap_2 fst _ (name, inst')). exact Hin'. }
  destruct (health_fold_frame before acc) as (Hd1 & _).
  destruct (health_check_one_at (foldl health_check_one acc before) (name, inst) d)
    as (-> & _).
  { cbn [fst]. rewrite Hd1, Hacc. exact Hd. }
  rewrite lookup_insert_eq. cbn [snd].
  rewrite (health_fold_world st before acc Hacc). reflexivity.
Qed.

(** X7.  In a well-formed container [health_check_all] asks every cached
    instance once, in the order in which the instances were cached, each
    in the world the earlier checks have left, and reports exactly the cached
    names: for each, what its driver's [health_check] answered then, or
    [false] when it raised.  It changes neither the cache nor the shared
    object. *)
Theorem health_check_all_reports (st : state) :
  wf st ->
  (forall name, is_Some ((health_check_all st).1 !! name)
                <-> is_Some (_instances st !! name))
  /\ (forall name inst d,
        _instances st !! name = Some inst -> _drivers st !! name = Some d ->
        exists before after,
          items (_instances st) = before ++ (name, inst) :: after
          /\ (health_check_all st).1 !! name
             = Some (verdict (health_check d inst
                                (foldl (checked st) (world st) before)).1))
  /\ calls (health_check_all st).2
     = calls st ++ map (fun ni => EvHealthCheck ni.1 ni.2) (items (_instances st))
  /\ world (health_check_all st).2
     = foldl (checked st) (world st) (items (_instances st))
  /\ _instances (health_check_all st).2 = _instances st
  /\ app_state (health_check_all st).2 = app_state st.
Proof.
  intros Hwf.
  assert (forall name inst d,
            _instances st !! name = Some inst -> _drivers st !! name = Some d ->
            exists before after,
              items (_instances st) = before ++ (name, inst) :: after
              /\ (health_check_all st).1 !! name
                 = Some (verdict (health_check d inst
                                    (foldl (checked st) (world st) before)).1)) as Hval.
  { intros name inst d Hi Hd. unfold health_check_all.
    pose proof (NoDup_fst_items (_instances st)) as Hnd.
    apply elem_of_items, list_elem_of_split in Hi as (before & after & Hsplit).
    exists before, after. split; [exact Hsplit|]. rewrite Hsplit in *.
    apply (health_fold_value st before after (∅, st) name inst d Hnd eq_refl Hd). }
  split; [|split; [exact Hval|split; [|split; [|split]]]].
  - intros name. split.
    + intros Hs. destruct (_instances st !! name) as [inst|] eqn:Hi; [eauto|].
      unfold health_check_all in Hs. rewrite health_fold_dom in Hs.
      * cbn in Hs. rewrite lookup_empty in Hs. destruct Hs as [x Hx]. discriminate.
      * intros inst Hin. apply elem_of_items in Hin. congruence.
    + intros [inst Hi]. destruct (Hwf name) as [d Hd]; [eauto|].
      destruct (Hval name inst d Hi Hd) as (before & after & _ & ->). eauto.
  - unfold health_check_all. rewrite health_fold_calls; [reflexivity|].
    apply Forall_forall. intros [name inst] Hin. cbn.
    apply elem_of_items in Hin. apply Hwf. eauto.
  - unfold health_check_all. apply (health_fold_world st _ (∅, st) eq_refl).
  - unfold health_check_all.
    destruct (health_fold_frame (items (_instances st)) (∅, st)) as (_ & Hi & _).
    exact Hi.
  - unfold health_check_all.
    destruct (health_fold_frame (items (_instances st)) (∅, st)) as (_ & _ & Ha & _).
    exact Ha.
Qed.

(** *** The states a container goes through *)

(** Every registered driver has its lock. *)
Definition locks_cover (st : state) : Prop :=
  forall name, is_Some (_drivers st !! name) -> is_Some (_locks st !! name).

(** The states reached from a new container by the operations of the class,
    the calls of [get_instance] being interleaved in any way, while others
    may write the shared object. *)
Inductive reachable : state -> Prop :=
| reach_new c a h s m w :
    reachable (new_container c a h s m w)
| reach_register_driver name driver st :
    reachable st -> reachable (register_driver name driver st)
| reach_get_instance n p p' st st' :
    reachable st -> task_step n p st = Some (p', st') -> reachable st'
| reach_cleanup_all st :
    reachable st -> reachable (cleanup_all st).2
| reach_health_check_all st :
    reachable st -> reachable (health_check_all st).2
| reach_app_state a st :
    reachable st -> reachable (set_app_state a st).

Lemma locks_cover_task_step (n : string) (p p' : pc) (st st' : state) :
  locks_cover st -> task_step n p st = Some (p', st') -> locks_cover st'.
Proof.
  intros H Hs.
  assert (forall k b st0, _drivers st0 = _drivers st ->
            _locks st0 = <[k := b]> (_locks st) -> locks_cover st0) as Hset.
  { intros k b st0 Hd Hl name Hname. rewrite Hl. rewrite Hd in Hname.
    destruct (decide (k = name)) as [->|Hne].
    - rewrite lookup_insert_eq. eauto.
    - rewrite lookup_insert_ne by assumption. apply H. exact Hname. }
  destruct p; cbn [task_step] in Hs; repeat case_match; simplify_eq;
    try exact H; try (eapply Hset; reflexivity).
  destruct (store_frame n a (set_instances (<[n:=a]> (_instances st)) (set_world w st)))
    as (_ & _ & Fd & Fl & _).
  eapply (Hset n false).
  - cbn [release set_locks _drivers]. rewrite Fd. reflexivity.
  - cbn [release set_locks _locks]. rewrite Fl. reflexivity.
Qed.

Lemma locks_cover_new_container c a h s m w : locks_cover (new_container c a h s m w).
Proof.
  intros name Hname. cbn [new_container _locks _drivers] in *.
  rewrite lookup_fmap. destruct Hname as [x ->]. cbn. eauto.
Qed.

Lemma locks_free_new_container c a h s m w (n : string) :
  _locks (new_container c a h s m w) !! n <> Some true.
Proof.
  cbn [new_container _locks]. rewrite lookup_fmap.
  destruct (_ !! n); cbn; discriminate.
Qed.

(** X8.  Two invariants of the container: in every state it can reach,
    every cached name is a registered one (so [cleanup_all] and
    [health_check_all] skip nothing), and every registered driver has its
    lock (so [get_instance] never fails on a missing lock). *)
Theorem reachable_wf (st : state) : reachable st -> wf st /\ locks_cover st.
Proof.
  induction 1 as [c a h s m w|name driver st _ [IHw IHl]|n p p' st st' _ [IHw IHl] Hs
                  |st _ [IHw IHl]|st _ [IHw IHl]|a st _ [IHw IHl]].
  - split; [apply wf_new_container|apply locks_cover_new_container].
  - split; [apply wf_register_driver; exact IHw|].
    intros k Hk. cbn [register_driver set_locks set_drivers _locks _drivers] in *.
    destruct (decide (name = k)) as [->|Hne].
    + rewrite lookup_insert_eq. eauto.
    + rewrite lookup_insert_ne in Hk by assumption.
      rewrite lookup_insert_ne by assumption. apply IHl. exact Hk.
  - split; [eapply wf_task_step; eassumption|eapply locks_cover_task_step; eassumption].
  - destruct (cleanup_all_frame st) as (Hd & _ & Hl & _). split.
    + intros name [x Hx]. cbn [cleanup_all snd set_instances _instances] in Hx.
      rewrite dict_lookup_empty in Hx. discriminate.
    + intros name. rewrite Hd, Hl. apply IHl.
  - unfold health_check_all.
    destruct (health_fold_frame (items (_instances st)) (∅, st))
      as (Hd & Hi & _ & Hl & _).
    cbn [snd] in *. split.
    + intros name. rewrite Hd, Hi. apply IHw.
    + intros name. rewrite Hd, Hl. apply IHl.
  - split; [exact IHw|exact IHl].
Qed.

(** X9.  A call of [get_instance] that finds the lock free runs to its end
    without waiting, and whatever the outcome (an instance, an unregistered
    name, a failure of [initialize]) every lock is as it was before the
    call.  For an unregistered name the call raises [ValueError] and changes
    nothing, whatever the shared object holds. *)
Theorem get_instance_releases (n : string) (st : state) :
  locks_cover st ->
  _locks st !! n <> Some true ->
  exists r st',
    get_instance n st = Some (r, st')
    /\ _locks st' = _locks st
    /\ _drivers st' = _drivers st
    /\ (_drivers st !! n = None ->
        r = Raise (ValueError ("Driver '" +:+ n +:+ "' not registered")) /\ st' = st).
Proof.
  intros Hcover Hfree. rewrite get_instance_alone.
  destruct (_drivers st !! n) as [d|] eqn:Hdrv; [|eauto 10].
  destruct (_get_from_app_state n st) as [|i]; [|eexists _, _; repeat split; discriminate].
  destruct (_instances st !! n) as [inst|]; [eexists _, _; repeat split; discriminate|].
  destruct (Hcover n) as [b Hb]; [rewrite Hdrv; eauto|]. rewrite Hb in *.
  destruct b; [congruence|].
  assert (<[n := false]> (<[n := true]> (_locks st)) = _locks st) as Hrel.
  { rewrite insert_insert_eq. apply insert_id. exact Hb. }
  destruct (initialize d (getattr_config (config st) n) (world st)) as [[instance|e] w].
  - eexists _, _. split; [reflexivity|].
    destruct (store_frame n instance
                (set_instances (<[n := instance]> (_instances st))
                   (set_world w (awaiting n st)))) as (_ & _ & Fd & Fl & _).
    cbn [release set_locks _locks _drivers]. rewrite Fl, Fd.
    cbn [set_instances set_world awaiting log_call set_locks _locks _drivers].
    split; [exact Hrel|]. split; [reflexivity|]. discriminate.
  - eexists _, _. split; [reflexivity|].
    cbn [release set_world awaiting log_call set_locks _locks _drivers].
    split; [exact Hrel|]. split; [reflexivity|]. discriminate.
Qed.

(** *** Mutual exclusion and absence of deadlock, for any calls

    Calls for any names, registered or not, with drivers whose [initialize]
    may fail, interleaved in any way. *)

Record locks_inv (s : sys) : Prop := {
  (* at most one call of a name is between taking its lock and giving it up *)
  li_one : forall n, one_holder n (sys_tasks s);
  (* a lock is held exactly when a call holds it *)
  li_lock : forall n, has_holder n (sys_tasks s) <-> _locks (sys_state s) !! n = Some true;
  (* a call waits for a lock that exists *)
  li_wait : forall n j, sys_tasks s !! j = Some (n, AwaitLock) ->
                        is_Some (_locks (sys_state s) !! n);
}.

(** What a step does to the locks. *)
Lemma task_step_locks (m : string) (p p' : pc) (st st' : state) :
  task_step m p st = Some (p', st') ->
  (_locks st' = _locks st /\ holding p' = holding p /\ p <> AwaitLock
   /\ (p' = AwaitLock -> is_Some (_locks st !! m)))
  \/ (p = AwaitLock /\ p' = Locked /\ _locks st !! m = Some false
      /\ _locks st' = <[m := true]> (_locks st))
  \/ (holding p = true /\ holding p' = false /\ p' <> AwaitLock
      /\ _locks st' = <[m := false]> (_locks st)).
Proof.
  intros H. destruct p; cbn [task_step] in H.
  - left. repeat case_match; simplify_eq;
      (split; [reflexivity|]); (split; [reflexivity|]); (split; [discriminate|]);
      try discriminate.
    intros _. eauto.
  - right. left. repeat case_match; simplify_eq. auto.
  - destruct (_get_from_app_state m st) as [|i].
    + destruct (_instances st !! m) as [inst|].
      * right. right. simplify_eq. repeat split; discriminate.
      * destruct (_drivers st !! m) as [d|]; simplify_eq.
        -- left. repeat split; discriminate.
        -- right. right. repeat split; discriminate.
    + right. right. simplify_eq. repeat split; discriminate.
  - right. right.
    destruct (_drivers st !! m) as [d|]; [|simplify_eq; repeat split; discriminate].
    destruct (initialize d (getattr_config (config st) m) (world st)) as [[inst|e] w];
      simplify_eq; (split; [reflexivity|]); (split; [reflexivity|]);
      (split; [discriminate|]); [|reflexivity].
    destruct (store_frame m inst (set_instances (<[m:=inst]> (_instances st))
                                    (set_world w st))) as (_ & _ & _ & Fl & _).
    cbn [release set_locks _locks]. rewrite Fl. reflexivity.
  - discriminate.
Qed.

Lemma has_holder_other (n m : string) (ts : list (string * pc)) (i : nat) (p p' : pc) :
  n <> m -> ts !! i = Some (m, p) ->
  has_holder n (<[i := (m, p')]> ts) <-> has_holder n ts.
Proof.
  intros Hne Hi. split; intros (j & q & Hq & Hq').
  - apply lookup_upd in Hq as [[_ Hq]|[_ Hq]]; [congruence|]. exists j, q. auto.
  - exists j, q. split; [|exact Hq'].
    rewrite list_lookup_insert_ne; [exact Hq|]. intros ->. congruence.
Qed.

Lemma one_holder_other (n m : string) (ts : list (string * pc)) (i : nat) (p' : pc) :
  n <> m -> one_holder n ts -> one_holder n (<[i := (m, p')]> ts).
Proof.
  intros Hne H j k pj pk Hj Hk Hpj Hpk.
  apply lookup_upd in Hj as [[_ Hj]|[_ Hj]]; [congruence|].
  apply lookup_upd in Hk as [[_ Hk]|[_ Hk]]; [congruence|].
  eapply H; eassumption.
Qed.

(** Every step of every call keeps the invariant. *)
Lemma locks_inv_step (s s' : sys) : locks_inv s -> step s s' -> locks_inv s'.
Proof.
  intros [Hone Hlock Hwait] Hstep.
  destruct Hstep as [st ts i m p p' st' Hi Hs]. cbn [sys_state sys_tasks] in *.
  assert (forall n, n <> m -> _locks st' !! n = _locks st !! n) as Hother.
  { intros n Hne.
    destruct (task_step_locks m p p' st st' Hs)
      as [(-> & _)|[(_ & _ & _ & ->)|(_ & _ & _ & ->)]];
      [reflexivity|apply lookup_insert_ne; congruence..]. }
  assert (forall n, is_Some (_locks st !! n) -> is_Some (_locks st' !! n)) as Hkeep.
  { intros n Hn. destruct (decide (n = m)) as [->|Hne]; [|rewrite Hother; assumption].
    destruct (task_step_locks m p p' st st' Hs)
      as [(-> & _)|[(_ & _ & _ & ->)|(_ & _ & _ & ->)]];
      [assumption|rewrite lookup_insert_eq; eauto..]. }
  constructor; cbn [sys_state sys_tasks].
  - intros n. destruct (decide (n = m)) as [->|Hne];
      [|apply one_holder_other; [exact Hne|apply Hone]].
    destruct (task_step_locks m p p' st st' Hs)
      as [(_ & Hh & _)|[(-> & -> & Hfree & _)|(Hh & Hh' & _)]].
    + eapply one_holder_same; [exact Hi|congruence|apply Hone].
    + apply one_holder_take. intros Hhold. apply Hlock in Hhold. congruence.
    + eapply one_holder_give; [exact Hi|exact Hh|exact Hh'|apply Hone].
  - intros n. destruct (decide (n = m)) as [->|Hne];
      [|rewrite (has_holder_other n m ts i p p' Hne Hi), Hother by exact Hne;
        apply Hlock].
    destruct (task_step_locks m p p' st st' Hs)
      as [(-> & Hh & _)|[(-> & -> & Hfree & ->)|(Hh & Hh' & _ & ->)]].
    + rewrite (has_holder_same m ts i p p' Hi) by congruence. apply Hlock.
    + rewrite lookup_insert_eq. split; [reflexivity|]. intros _.
      eapply has_holder_take; [exact Hi|reflexivity].
    + rewrite lookup_insert_eq. split; [|discriminate]. intros Hhold. exfalso.
      eapply (no_holder_give m ts i p p'); eauto.
  - intros n j Hj. apply lookup_upd in Hj as [[_ Hj]|[_ Hj]].
    + inversion Hj; subst. apply Hkeep.
      destruct (task_step_locks m p AwaitLock st st' Hs)
        as [(_ & _ & _ & Hnew)|[(_ & Hp & _)|(_ & _ & Hp & _)]]; try congruence.
      apply Hnew. reflexivity.
    + apply Hkeep. eapply Hwait. exact Hj.
Qed.

Lemma locks_inv_steps (s s' : sys) : locks_inv s -> steps s s' -> locks_inv s'.
Proof.
  intros Hinv Hsteps. induction Hsteps; [assumption|].
  eapply locks_inv_step; [|eassumption]. auto.
Qed.

(** Calls that have just been issued, while no lock is held. *)
Lemma locks_inv_initial (st0 : state) (names : list string) :
  (forall n, _locks st0 !! n <> Some true) ->
  locks_inv {| sys_state := st0; sys_tasks := map (fun n => (n, Start)) names |}.
Proof.
  intros Hfree.
  assert (forall j n p, map (fun n => (n, Start)) names !! j = Some (n, p) -> p = Start)
    as Hstart.
  { intros j n p Hj. rewrite list_lookup_fmap in Hj.
    destruct (names !! j); inversion Hj; reflexivity. }
  constructor; cbn [sys_state sys_tasks].
  - intros n j k pj pk Hj _ Hpj _. apply Hstart in Hj as ->. discriminate.
  - intros n. split.
    + intros (j & p & Hj & Hp). apply Hstart in Hj as ->. discriminate.
    + intros Hl. destruct (Hfree n Hl).
  - intros n j Hj. apply Hstart in Hj. discriminate.
Qed.

#[local] Instance done_dec (t : string * pc) : Decision (is_done t).
Proof. unfold is_done. destruct (t.2); apply _. Defined.

Lemma locks_inv_progress (s : sys) : locks_inv s -> all_done s \/ exists s', step s s'.
Proof.
  intros [Hone Hlock Hwait].
  destruct (decide (all_done s)) as [Hd|Hd]; [left; assumption|right].
  destruct s as [st ts]. unfold all_done in Hd. cbn [sys_state sys_tasks] in *.
  apply not_Forall_Exists in Hd; [|intros t; apply _].
  apply Exists_exists in Hd as ([name p] & Hin & Hnd).
  apply list_elem_of_lookup in Hin as [j Hj].
  assert (forall k n q, ts !! k = Some (n, q) -> q = Start \/ holding q = true ->
            exists s', step {| sys_state := st; sys_tasks := ts |} s') as Hrun.
  { intros k n q Hk Hq. destruct (task_step_total n q st Hq) as [[q' st'] Hs].
    eexists. eapply step_task; eassumption. }
  destruct p.
  - apply (Hrun j name Start); auto.
  - destruct (Hwait name j Hj) as [[|] Hb].
    + destruct (proj2 (Hlock name) Hb) as (k & q & Hk & Hq). apply (Hrun k name q); auto.
    + eexists. eapply step_task; [exact Hj|]. cbn [task_step]. rewrite Hb. reflexivity.
  - apply (Hrun j name Locked); auto.
  - apply (Hrun j name AwaitInit); auto.
  - destruct Hnd. exact I.
Qed.

Lemma locks_inv_completes (m : nat) (s : sys) :
  measure s <= m -> locks_inv s -> exists s', steps s s' /\ all_done s'.
Proof.
  revert s. induction m as [|m IH]; intros s Hm Hinv.
  - destruct (locks_inv_progress s Hinv) as [Hd|[s' Hs]].
    + exists s. split; [apply steps_refl|assumption].
    + apply step_decreases in Hs. lia.
  - destruct (locks_inv_progress s Hinv) as [Hd|[s' Hs]].
    + exists s. split; [apply steps_refl|assumption].
    + destruct (IH s') as (s'' & Hs'' & Hd'').
      * apply step_decreases in Hs. lia.
      * eapply locks_inv_step; eassumption.
      * exists s''. split; [|assumption].
        eapply steps_trans; [|eassumption].
        eapply steps_step; [apply steps_refl|assumption].
Qed.

(** X10.  Calls of [get_instance] for any names are issued while no lock is
    held, and run interleaved in any way; the drivers may fail.  At every
    moment, at most one call per name is between taking the lock and giving
    it up (so two [initialize] of one driver never overlap), a lock is held
    only while such a call exists, and the run is not stuck: either every
    call is over or some call can go on, and the run can be completed. *)
Theorem get_instance_mutual_exclusion (st0 : state) (names : list string) (s : sys) :
  (forall n, _locks st0 !! n <> Some true) ->
  steps {| sys_state := st0; sys_tasks := map (fun n => (n, Start)) names |} s ->
  (forall n j k pj pk,
     sys_tasks s !! j = Some (n, pj) -> sys_tasks s !! k = Some (n, pk) ->
     holding pj = true -> holding pk = true -> j = k)
  /\ (forall n, _locks (sys_state s) !! n = Some true ->
                exists j p, sys_tasks s !! j = Some (n, p) /\ holding p = true)
  /\ (all_done s \/ exists s', step s s')
  /\ (exists s', steps s s' /\ all_done s')
  /\ (all_done s -> forall n, _locks (sys_state s) !! n <> Some true).
Proof.
  intros Hfree Hsteps.
  pose proof (locks_inv_steps _ _ (locks_inv_initial st0 names Hfree) Hsteps) as Hinv.
  split; [|split; [|split; [|split]]].
  - intros n. apply (li_one s Hinv n).
  - intros n Hl. apply (li_lock s Hinv n). exact Hl.
  - apply locks_inv_progress. exact Hinv.
  - apply (locks_inv_completes (measure s) s (Nat.le_refl _) Hinv).
  - intros Hd n Hl. apply (li_lock s Hinv n) in Hl as (j & p & Hj & Hp).
    pose proof (Forall_lookup_1 _ _ _ _ Hd Hj) as Hdone.
    unfold is_done in Hdone. cbn in Hdone. destruct p; try contradiction. discriminate.
Qed.

End WithWorld.

(** *** Concrete containers

    The world is a counter of the objects created so far; a configuration
    dictionary carries nothing. *)

(** A driver whose [initialize] creates a fresh object. *)
Definition fresh_driver : @Driver nat unit :=
  {| initialize := fun _ w => (Ok (PyRef w), S w);
     cleanup := fun _ w => (Ok tt, w);
     health_check := fun _ w => (Ok true, w) |}.

(** A driver all of whose methods raise. *)
Definition broken_driver : @Driver nat unit :=
  {| initialize := fun _ w => (Raise (ExternalError 1), w);
     cleanup := fun _ w => (Raise (ExternalError 2), w);
     health_check := fun _ w => (Raise (ExternalError 3), w) |}.

Definition no_config : @DriverConfig unit :=
  {| httpx := tt; storage := tt; mongo := tt |}.

(** A new container attached to an empty shared object. *)
Definition fresh_container : state :=
  new_container no_config (Some ∅) fresh_driver fresh_driver fresh_driver 0.

(** A new container whose mongo driver is broken. *)
Definition broken_container : state :=
  new_container no_config (Some ∅) fresh_driver fresh_driver broken_driver 0.

(** The state after [get_instance "mongo"] on [fresh_container]: the
    instance is in the local cache and in the shared object. *)
Definition warm_container : state :=
  match get_instance tt "mongo" fresh_container with
  | Some (_, st) => st
  | None => fresh_container
  end.

(** A container that finds a mongo client published by someone else. *)
Definition attached_container : state :=
  new_container no_config (Some (<["mongo_driver" := PyRef 7]> ∅))
    fresh_driver fresh_driver fresh_driver 0.

Lemma get_instance_single_flight_witness :
  1 <= 3
  /\ exists s', steps tt {| sys_state := fresh_container;
                            sys_tasks := replicate 3 ("mongo", Start) |} s'
                /\ all_done s'
                /\ calls (sys_state s') = [EvInitialize "mongo"]
                /\ world (sys_state s') = 1
                /\ _instances (sys_state s') !! "mongo" = Some (PyRef 0)
                /\ Forall (fun t => t.2 = Done (Ok (PyRef 0))) (sys_tasks s').
Proof.
  split; [lia|].
  destruct (get_instance_single_flight tt "mongo" fresh_driver fresh_container 3
              (PyRef 0) 1 ltac:(lia) eq_refl eq_refl eq_refl eq_refl eq_refl
              _ (steps_refl tt _))
    as (_ & _ & (s' & Hsteps & Hdone) & _).
  destruct (get_instance_single_flight tt "mongo" fresh_driver fresh_container 3
              (PyRef 0) 1 ltac:(lia) eq_refl eq_refl eq_refl eq_refl eq_refl
              s' Hsteps)
    as (_ & _ & _ & Hfinal).
  exists s'. destruct (Hfinal Hdone) as (Hc & _ & Hw & Hi & Hall). auto 10.
Defined.

(** Three calls interleaved: all three pass the first checks, the first takes
    the lock and awaits [initialize] while the others wait for the lock,
    then each of the others takes the lock and finds the instance. *)
Lemma three_calls_interleaved :
  let s := run_schedule tt [0; 1; 2; 0; 1; 2; 0; 0; 1; 1; 2; 2]
             {| sys_state := fresh_container;
                sys_tasks := replicate 3 ("mongo", Start) |} in
  map snd (sys_tasks s) = replicate 3 (Done (Ok (PyRef 0)))
  /\ calls (sys_state s) = [EvInitialize "mongo"].
Proof. vm_compute. auto. Qed.

(** A driver whose [initialize] fails the first time it is called. *)
Definition flaky_driver : @Driver nat unit :=
  {| initialize := fun _ w =>
       match w with
       | O => (Raise (ExternalError 1), 1)
       | _ => (Ok (PyRef w), S w)
       end;
     cleanup := fun _ w => (Ok tt, w);
     health_check := fun _ w => (Ok true, w) |}.

(** A new container whose mongo driver is the flaky one. *)
Definition flaky_container : state :=
  new_container no_config (Some ∅) fresh_driver fresh_driver flaky_driver 0.

(** When [initialize] fails, the call that made it gets the error and the
    next call in line makes another. *)
Lemma two_calls_flaky :
  let s := run_schedule tt [0; 1; 0; 1; 0; 0; 1; 1; 1]
             {| sys_state := flaky_container;
                sys_tasks := replicate 2 ("mongo", Start) |} in
  map snd (sys_tasks s) = [Done (Raise (ExternalError 1)); Done (Ok (PyRef 1))]
  /\ calls (sys_state s) = [EvInitialize "mongo"; EvInitialize "mongo"].
Proof. vm_compute. auto. Qed.

(** C1 as stated fails when [initialize] raises.  Two calls are issued for
    "mongo" on a new container, before any initialization; both pass the
    first checks, the first takes the lock and awaits [initialize], which
    raises; the second then takes the lock, finds no instance and calls
    [initialize] again.  [initialize] has been invoked twice, and the two
    calls have not returned the same instance: one has raised. *)
Lemma single_flight_fails_when_initialize_raises :
  let s0 := {| sys_state := flaky_container;
               sys_tasks := replicate 2 ("mongo", Start) |} in
  let s := run_schedule tt [0; 1; 0; 1; 0; 0; 1; 1; 1] s0 in
  is_Some (_drivers flaky_container !! "mongo")
  /\ _instances flaky_container !! "mongo" = None
  /\ _get_from_app_state "mongo" flaky_container = PyNone
  /\ steps tt s0 s
  /\ all_done s
  /\ init_count "mongo" (sys_state s) = 2
  /\ map snd (sys_tasks s) = [Done (Raise (ExternalError 1)); Done (Ok (PyRef 1))]
  /\ ~ exists inst, Forall (fun t => t.2 = Done (Ok inst)) (sys_tasks s).
Proof.
  intros s0 s.
  split; [vm_compute; eauto|]. split; [reflexivity|]. split; [reflexivity|].
  split; [apply run_schedule_steps|].
  assert (sys_tasks s = [("mongo", Done (Raise (ExternalError 1)));
                         ("mongo", Done (Ok (PyRef 1)))]) as Hts by (vm_compute; reflexivity).
  split; [|split; [|split]].
  - unfold all_done. rewrite Hts. repeat constructor.
  - vm_compute. reflexivity.
  - rewrite Hts. reflexivity.
  - rewrite Hts. intros (inst & Hall). inversion Hall as [|? ? Hfirst _]; subst.
    discriminate Hfirst.
Qed.

(** A driver whose [cleanup] and [health_check] leave a trace in the
    world, adding [k] to it, and raise when [fails] is set. *)
Definition tracing_driver (k : nat) (fails : bool) : @Driver nat unit :=
  {| initialize := fun _ w => (Ok (PyRef w), S w);
     cleanup := fun _ w => (if fails then Raise (ExternalError 2) else Ok tt, w + k);
     health_check := fun _ w =>
       (if fails then Raise (ExternalError 3) else Ok true, w + k) |}.

(** A container with two cached instances, "mongo" cached first; the
    cleanup and the health check of "mongo" raise. *)
Definition two_traced : state :=
  set_instances (<["httpx" := PyRef 0]> (<["mongo" := PyRef 1]> ∅))
    (new_container no_config (Some ∅) (tracing_driver 1 false) (tracing_driver 10 false)
       (tracing_driver 100 true) 0).

Lemma wf_two_traced : wf two_traced.
Proof.
  intros name [x Hx]. unfold two_traced in *. cbn [set_instances _instances _drivers] in *.
  destruct (decide (name = "httpx")) as [->|Hh]; [vm_compute; eauto|].
  destruct (decide (name = "mongo")) as [->|Hm]; [vm_compute; eauto|].
  rewrite !dict_lookup_insert_ne, dict_lookup_empty in Hx by congruence. discriminate.
Qed.

Lemma cleanup_all_isolated_witness :
  (cleanup_all two_traced).1 = Ok tt
  /\ _instances (cleanup_all two_traced).2 = ∅
  /\ calls (cleanup_all two_traced).2
     = [EvCleanup "mongo" (PyRef 1); EvCleanup "httpx" (PyRef 0)]
  /\ world (cleanup_all two_traced).2 = 101.
Proof.
  destruct (cleanup_all_isolated two_traced wf_two_traced) as (Hr & Hi & _ & Hc & Hw & _).
  split; [exact Hr|]. split; [exact Hi|]. rewrite Hc, Hw. split; reflexivity.
Defined.

Lemma get_instance_initialize_fails_witness :
  exists st',
    get_instance tt "mongo" broken_container = Some (Raise (ExternalError 1), st')
    /\ _instances st' = _instances broken_container
    /\ app_state st' = app_state broken_container.
Proof.
  destruct (get_instance_initialize_fails tt "mongo" broken_driver broken_container
              (ExternalError 1) 0)
    as (st' & Hg & Hi & Ha & _); [reflexivity..|].
  exists st'. auto.
Defined.

Lemma fast_path_leaves_cache_witness :
  get_instance tt "mongo" attached_container = Some (Ok (PyRef 7), attached_container)
  /\ (health_check_all attached_container).1 !! "mongo" = None.
Proof.
  destruct (fast_path_leaves_cache tt "mongo" 7 attached_container)
    as (Hg & _ & _ & Hh); [vm_compute; eauto | reflexivity |].
  split; [exact Hg|]. apply Hh. reflexivity.
Defined.

(** C10 as stated fails on [warm_container]: [get_instance "mongo"] is
    answered by the fast path, and the instance it returns is the one of the
    local cache, which [cleanup_all] cleans up and [health_check_all]
    reports. *)
Lemma fast_path_instance_is_managed :
  _get_from_app_state "mongo" warm_container = PyRef 0
  /\ get_instance tt "mongo" warm_container = Some (Ok (PyRef 0), warm_container)
  /\ _instances warm_container !! "mongo" = Some (PyRef 0)
  /\ calls (cleanup_all warm_container).2
     = [EvInitialize "mongo"; EvCleanup "mongo" (PyRef 0)]
  /\ (health_check_all warm_container).1 !! "mongo" = Some true.
Proof. vm_compute. auto. Qed.

(** *** Runs of the further properties *)

(** A new container with no shared object. *)
Definition detached_container : state :=
  new_container no_config None fresh_driver fresh_driver fresh_driver 0.

Lemma get_instance_idempotent_witness :
  exists st', get_instance tt "mongo" detached_container = Some (Ok (PyRef 0), st')
              /\ get_instance tt "mongo" st' = Some (Ok (PyRef 0), st')
              /\ calls st' = [EvInitialize "mongo"].
Proof.
  assert (get_instance tt "mongo" detached_container
          = Some (Ok (PyRef 0), initialized "mongo" (PyRef 0) 1 detached_container)) as Hg.
  { rewrite get_instance_alone. reflexivity. }
  exists (initialized "mongo" (PyRef 0) 1 detached_container).
  split; [exact Hg|]. split.
  - apply (get_instance_idempotent tt "mongo" detached_container). exact Hg.
  - destruct (initialized_frame "mongo" (PyRef 0) 1 detached_container) as (_ & _ & -> & _).
    reflexivity.
Defined.

(** Calls for two registered names, one of them failing, and for a name
    that is not registered. *)
Definition mixed_calls : sys :=
  {| sys_state := broken_container;
     sys_tasks := map (fun n => (n, Start)) ["mongo"; "httpx"; "mongo"; "redis"] |}.

Lemma mixed_calls_interleaved :
  let s := run_schedule tt [0; 2; 1; 3; 0; 2; 1; 0; 1; 0; 2; 1; 2; 2] mixed_calls in
  map snd (sys_tasks s)
  = [Done (Raise (ExternalError 1)); Done (Ok (PyRef 0)); Done (Raise (ExternalError 1));
     Done (Raise (ValueError "Driver 'redis' not registered"))]
  /\ calls (sys_state s)
     = [EvInitialize "mongo"; EvInitialize "httpx"; EvInitialize "mongo"].
Proof. vm_compute. auto. Qed.

Lemma get_instance_mutual_exclusion_witness :
  let s := run_schedule tt [0; 2; 1; 3; 0; 2; 1; 0] mixed_calls in
  (forall j k pj pk,
     sys_tasks s !! j = Some ("mongo", pj) -> sys_tasks s !! k = Some ("mongo", pk) ->
     holding pj = true -> holding pk = true -> j = k)
  /\ (exists s', steps tt s s' /\ all_done s').
Proof.
  intros s.
  destruct (get_instance_mutual_exclusion tt broken_container
              ["mongo"; "httpx"; "mongo"; "redis"] s) as (Hone & _ & _ & Hend & _).
  - apply locks_free_new_container.
  - apply run_schedule_steps.
  - split; [apply Hone|exact Hend].
Defined.

(** A container with a driver registered under "async_mongo" besides the
    default ones. *)
Definition async_container : state :=
  register_driver "async_mongo" fresh_driver fresh_container.

Lemma async_name_shadows_witness :
  exists st',
    get_instance tt "async_mongo" async_container = Some (Ok (PyRef 0), st')
    /\ get_instance tt "mongo" st' = Some (Ok (PyRef 0), st')
    /\ init_count "mongo" st' = 0.
Proof.
  destruct (async_name_shadows tt "mongo" fresh_driver async_container 0 1)
    as (st' & Ha & Hm & Hc);
    [reflexivity | vm_compute; eauto | vm_compute; eauto | reflexivity | reflexivity
    | reflexivity | reflexivity | reflexivity |].
  exists st'. split; [exact Ha|]. split; [exact Hm|]. rewrite Hc. reflexivity.
Defined.

Lemma store_then_get_witness :
  _get_from_app_state "mysql" (_store_to_app_state "mysql" (PyRef 5) fresh_container)
  = PyRef 5
  /\ _get_from_app_state "mongo" (_store_to_app_state "mongo" (PyRef 6) fresh_container)
     = PyRef 6.
Proof.
  split; apply store_then_get; try reflexivity; vm_compute; eauto.
Defined.

Lemma cleanup_all_keeps_shared_witness :
  EvCleanup "mongo" (PyRef 0) ∈ calls (cleanup_all warm_container).2
  /\ get_instance tt "mongo" (cleanup_all warm_container).2
     = Some (Ok (PyRef 0), (cleanup_all warm_container).2)
  /\ init_count "mongo" (cleanup_all warm_container).2 = 1.
Proof.
  destruct (cleanup_all_keeps_shared tt "mongo" 0 warm_container)
    as (_ & Hc & Hg & Hn); [vm_compute; eauto | reflexivity |].
  split; [apply Hc; reflexivity|]. split; [exact Hg|]. rewrite Hn. reflexivity.
Defined.

Lemma health_check_all_reports_witness :
  (health_check_all two_traced).1 !! "mongo" = Some false
  /\ (health_check_all two_traced).1 !! "httpx" = Some true
  /\ (health_check_all two_traced).1 !! "storage" = None
  /\ calls (health_check_all two_traced).2
     = [EvHealthCheck "mongo" (PyRef 1); EvHealthCheck "httpx" (PyRef 0)]
  /\ world (health_check_all two_traced).2 = 101
  /\ _instances (health_check_all two_traced).2 = _instances two_traced.
Proof.
  destruct (health_check_all_reports two_traced wf_two_traced)
    as (Hk & Hv & Hc & Hw & Hi & _).
  split; [|split; [|split; [|split; [|split]]]].
  - destruct (Hv "mongo" (PyRef 1) (tracing_driver 100 true) eq_refl eq_refl)
      as (before & after & _ & ->). reflexivity.
  - destruct (Hv "httpx" (PyRef 0) (tracing_driver 1 false) eq_refl eq_refl)
      as (before & after & _ & ->). reflexivity.
  - destruct ((health_check_all two_traced).1 !! "storage") as [b|] eqn:Hs; [|reflexivity].
    assert (is_Some (_instances two_traced !! "storage")) as [x Hx]
      by (apply Hk; rewrite Hs; eauto).
    vm_compute in Hx. discriminate Hx.
  - rewrite Hc. reflexivity.
  - rewrite Hw. reflexivity.
  - exact Hi.
Defined.

Lemma reachable_wf_witness :
  wf (cleanup_all warm_container).2 /\ locks_cover (cleanup_all warm_container).2.
Proof.
  apply (reachable_wf tt). apply reach_cleanup_all.
  assert (forall p st, run_task tt 4 "mongo" p fresh_container = Some st ->
            reachable tt st.2) as Hrun.
  { assert (forall fuel p (st0 : @state nat unit) st, reachable tt st0 ->
              run_task tt fuel "mongo" p st0 = Some st -> reachable tt st.2) as Hgen.
    { induction fuel as [|fuel IH]; intros p st0 st Hr Hs.
      - destruct p; try discriminate Hs. inversion Hs; subst. exact Hr.
      - destruct p; cbn [run_task] in Hs;
          try (destruct (task_step tt "mongo" _ st0) as [[p' st1]|] eqn:Ht;
               [|discriminate Hs];
               eapply IH; [|exact Hs]; eapply reach_get_instance; eassumption).
        inversion Hs; subst. exact Hr. }
    intros p st. apply Hgen. apply reach_new. }
  unfold warm_container, get_instance.
  destruct (run_task tt 4 "mongo" Start fresh_container) as [[r st]|] eqn:Hg.
  - apply (Hrun Start (r, st) Hg).
  - apply reach_new.
Defined.

Lemma get_instance_releases_witness :
  exists st',
    get_instance tt "mongo" broken_container = Some (Raise (ExternalError 1), st')
    /\ _locks st' = _locks broken_container.
Proof.
  destruct (get_instance_releases tt "mongo" broken_container)
    as (r & st' & Hg & Hl & _).
  - apply locks_cover_new_container.
  - vm_compute. discriminate.
  - exists st'. split; [|exact Hl].
    rewrite Hg. f_equal. f_equal.
    assert (get_instance tt "mongo" broken_container
            = Some (Raise (ExternalError 1),
                    release "mongo" (set_world 0 (awaiting "mongo" broken_container)))) as Hc.
    { rewrite get_instance_alone. reflexivity. }
    rewrite Hc in Hg. inversion Hg. reflexivity.
Defined.

End Container.

(** * Part II: the two-phase query engine ([driver/mongo.py]) *)

Module Engine.

(** ** Documents *)

(** A BSON/Python value.  A document (a Python [dict]) maps field names to
    values. *)
#[warnings="-register-all"]
Inductive value :=
| VNone
| VBool (b : bool)
| VNum (q : Q)
| VStr (s : string)
| VList (l : list value)
| VDict (d : gmap string value).

Abbreviation doc := (gmap string value).

(** [==] on the values used as identifiers (store ids, platforms): scalars are
    compared by value; the collections hold no array- or document-valued
    identifier, and the model lets containers compare unequal. *)
Definition py_eq (x y : value) : bool :=
  match x, y with
  | VNone, VNone => true
  | VBool a, VBool b => Bool.eqb a b
  | VNum a, VNum b => Qeq_bool a b
  | VStr a, VStr b => bool_decide (a = b)
  | _, _ => false
  end.

(** d[k] *)
Definition getitem (k : string) (d : doc) : result value :=
  match d !! k with
  | Some v => Ok v
  | None => Raise (KeyError k)
  end.

(** d.get(k) *)
Definition dict_get (k : string) (d : doc) : value := default VNone (d !! k).

(** ** Aggregation pipelines, as the driver builds them *)

#[warnings="-register-all"]
Inductive condition :=
| FExprTrue                                     (* {"$expr": True} *)
| FText (search : string)                       (* {"$text": {"$search": s}} *)
| FEq (field : string) (v : value)              (* {field: v} *)
| FGte (field : string) (lo : Q)                (* {field: {"$gte": lo}} *)
| FRange (field : string) (lo hi : Q)           (* {field: {"$gte": lo, "$lte": hi}} *)
| FRegex (field : string) (regex options : string)
                                                (* {field: {"$regex": r, "$options": o}} *)
| FOr (fs : list condition)                     (* {"$or": [...]} *)
| FAll (fs : list condition).                   (* a dict of several fields *)

Inductive projection :=
| PExclude                                      (* k: 0 *)
| PInclude                                      (* k: 1 *)
| PField (path : string)                        (* k: "$path" *)
| PRoundDiv (path : string) (divisor : Q) (places : Z).
                             (* k: {"$round": [{"$divide": ["$path", divisor]}, places]} *)

Inductive stage :=
| GeoNear (longitude latitude : Q) (distanceField : string) (maxDistance : Q)
| Match (f : condition)
| Group (id : list (string * string))   (* {"$group": {"_id": {k: "$path", ...}}} *)
| Project (spec : list (string * projection))
| AddTextScore (field : string)    (* {"$addFields": {field: {"$meta": "textScore"}}} *)
| SortTextScore (field : string)   (* {"$sort": {field: {"$meta": "textScore"}}} *)
| Limit (n : Z).

(** ** The document store

    The fragment of the store's aggregation semantics that the pipelines
    above use.  Full-text search, geodesy and regular expressions are left
    to the store: [text_score] gives the relevance of a document for a search
    string when it matches, [geo_distance] the distance in meters between a
    point and a document's location, [regex_match] whether a string matches
    an expression. *)

Section Store.

Variable text_score : string -> doc -> option Q.
Variable geo_distance : Q -> Q -> doc -> option Q.
Variable regex_match : string -> string -> string -> bool.

(** Splitting a dotted path such as ["rating.value"]. *)
Fixpoint split_on (c : Ascii.ascii) (s : string) : list string :=
  match s with
  | EmptyString => [EmptyString]
  | String a rest =>
      if Ascii.eqb a c then EmptyString :: split_on c rest
      else match split_on c rest with
           | [] => [String a EmptyString]
           | w :: ws => String a w :: ws
           end
  end.

Fixpoint lookup_path (path : list string) (d : doc) : option value :=
  match path with
  | [] => None
  | k :: rest =>
      match rest with
      | [] => d !! k
      | _ => match d !! k with
             | Some (VDict d') => lookup_path rest d'
             | _ => None
             end
      end
  end.

Definition get_path (path : string) (d : doc) : option value :=
  lookup_path (split_on "."%char path) d.

(** Whether a document satisfies a query condition.  A field is compared as
    a scalar: the documents of [StoreDoc] and [MenuItemDoc] have no
    array-valued identifier, price or rating.  A missing field compares as
    null. *)
Fixpoint satisfies (f : condition) (d : doc) : bool :=
  match f with
  | FExprTrue => true
  | FText search => bool_decide (is_Some (text_score search d))
  | FEq field v =>
      match get_path field d with
      | Some x => py_eq x v
      | None => py_eq VNone v
      end
  | FGte field lo =>
      match get_path field d with
      | Some (VNum x) => Qle_bool lo x
      | _ => false
      end
  | FRange field lo hi =>
      match get_path field d with
      | Some (VNum x) => Qle_bool lo x && Qle_bool x hi
      | _ => false
      end
  | FRegex field regex options =>
      match get_path field d with
      | Some (VStr s) => regex_match regex options s
      | _ => false
      end
  | FOr fs => existsb (fun g => satisfies g d) fs
  | FAll fs => forallb (fun g => satisfies g d) fs
  end.

(** A condition the store accepts outside the first stage: no [$text], no
    empty [$or]. *)
Fixpoint plain_condition (f : condition) : bool :=
  match f with
  | FText _ => false
  | FOr fs => negb (bool_decide (fs = [])) && forallb plain_condition fs
  | FAll fs => forallb plain_condition fs
  | _ => true
  end.

(** A document in flight, with its text-search relevance when the pipeline
    started with a text search. *)
Definition row : Type := doc * option Q.

(** Stable insertion sort: [x] is placed after the elements that go before
    it. *)
Fixpoint insert_sorted {A : Type} (before : A -> A -> bool) (x : A) (l : list A) : list A :=
  match l with
  | [] => [x]
  | y :: l' => if before y x then y :: insert_sorted before x l' else x :: y :: l'
  end.

Definition sort_by {A : Type} (before : A -> A -> bool) (l : list A) : list A :=
  foldr (insert_sorted before) [] l.

(** $round to [places] decimals, half to even. *)
Definition round_half_even (q : Q) : Z :=
  let f := Qfloor q in
  match ((q - inject_Z f) ?= (1 # 2))%Q with
  | Lt => f
  | Gt => (f + 1)%Z
  | Eq => if Z.even f then f else (f + 1)%Z
  end.

Definition round_places (q : Q) (places : Z) : Q :=
  let scale := inject_Z (10 ^ places)%Z in
  (inject_Z (round_half_even (q * scale)) / scale)%Q.

Definition project_field (d : doc) (out : doc) (kp : string * projection) : doc :=
  match kp.2 with
  | PExclude => out
  | PInclude =>
      match d !! kp.1 with
      | Some v => <[kp.1 := v]> out
      | None => out
      end
  | PField path =>
      match get_path path d with
      | Some v => <[kp.1 := v]> out
      | None => out
      end
  | PRoundDiv path divisor places =>
      match get_path path d with
      | Some (VNum x) => <[kp.1 := VNum (round_places (x / divisor)%Q places)]> out
      | _ => <[kp.1 := VNone]> out
      end
  end.

Definition excludes (k : string) (spec : list (string * projection)) : bool :=
  existsb (fun kp : string * projection =>
             match kp.2 with
             | PExclude => bool_decide (kp.1 = k)
             | _ => false
             end) spec.

(** $project: the listed fields, and [_id] unless it is excluded. *)
Definition project (spec : list (string * projection)) (d : doc) : doc :=
  let start : doc :=
    match d !! "_id", excludes "_id" spec with
    | Some v, false => {["_id" := v]}
    | _, _ => ∅
    end in
  foldl (project_field d) start spec.

(** The [_id] document of $group: the fields that exist. *)
Definition group_id (id : list (string * string)) (d : doc) : doc :=
  foldl (fun out kp =>
           match get_path kp.2 d with
           | Some v => <[kp.1 := v]> out
           | None => out
           end) ∅ id.

(** Two group ids are the same when all their fields are. *)
Definition same_id (id : list (string * string)) (a b : doc) : bool :=
  forallb (fun kp =>
             match a !! kp.1, b !! kp.1 with
             | Some x, Some y => py_eq x y
             | None, None => true
             | _, _ => false
             end) id.

Fixpoint distinct_ids (id : list (string * string)) (seen : list doc) (l : list doc)
  : list doc :=
  match l with
  | [] => []
  | a :: l' =>
      if existsb (same_id id a) seen then distinct_ids id seen l'
      else a :: distinct_ids id (a :: seen) l'
  end.

Definition scores (rows : list row) : option (list Q) :=
  mapM snd rows.

(** One stage; [first] tells whether it is the first of its pipeline. *)
Definition eval_stage (first : bool) (st : stage) (rows : list row) : result (list row) :=
  match st with
  | GeoNear longitude latitude distanceField maxDistance =>
      if first then
        let near :=
          omap (fun r : row =>
                  match geo_distance longitude latitude r.1 with
                  | Some dist =>
                      if Qle_bool dist maxDistance
                      then Some (dist, (<[distanceField := VNum dist]> r.1, r.2))
                      else None
                  | None => None
                  end) rows in
        Ok (map snd (sort_by (fun a b : Q * row => negb (Qle_bool b.1 a.1)) near))
      else Raise (ExternalError 11)      (* $geoNear must be the first stage *)
  | Match (FText search) =>
      if first then
        Ok (omap (fun r : row =>
                    match text_score search r.1 with
                    | Some sc => Some (r.1, Some sc)
                    | None => None
                    end) rows)
      else Raise (ExternalError 12)      (* $text must be in the first stage *)
  | Match f =>
      if plain_condition f then Ok (filter (fun r : row => satisfies f r.1 = true) rows)
      else Raise (ExternalError 13)
  | Group id =>
      Ok (map (fun g : doc => ({["_id" := VDict g]}, None))
              (distinct_ids id [] (map (fun r : row => group_id id r.1) rows)))
  | Project spec => Ok (map (fun r : row => (project spec r.1, r.2)) rows)
  | AddTextScore field =>
      match scores rows with
      | Some _ =>
          Ok (map (fun r : row =>
                     match r.2 with
                     | Some sc => (<[field := VNum sc]> r.1, r.2)
                     | None => r
                     end) rows)
      | None => Raise (ExternalError 14)  (* no text score metadata *)
      end
  | SortTextScore _ =>
      match scores rows with
      | Some _ =>
          Ok (sort_by (fun a b : row =>
                         match a.2, b.2 with
                         | Some x, Some y => negb (Qle_bool x y)
                         | _, _ => false
                         end) rows)
      | None => Raise (ExternalError 14)
      end
  | Limit n =>
      if (0 <? n)%Z then Ok (take (Z.to_nat n) rows)
      else Raise (ExternalError 15)      (* the limit must be positive *)
  end.

Fixpoint eval_stages (first : bool) (pipeline : list stage) (rows : list row)
  : result (list row) :=
  match pipeline with
  | [] => Ok rows
  | st :: rest =>
      match eval_stage first st rows with
      | Ok rows' => eval_stages false rest rows'
      | Raise e => Raise e
      end
  end.

(** collection.aggregate(pipeline) followed by cursor.to_list(): the
    collection is given by its documents. *)
Definition run_pipeline (collection : list doc) (pipeline : list stage)
  : result (list doc) :=
  match eval_stages true pipeline (map (fun d => (d, None)) collection) with
  | Ok rows => Ok (map fst rows)
  | Raise e => Raise e
  end.

End Store.

(** ** The driver's query methods *)

(** An aggregation request: MongoDriver.aggregate(collection_name, pipeline). *)
Record query := {
  collection_name : string;
  pipeline : list stage;
}.

Section Driver.

(** What the store answers to a request (or the error it raises).  The
    [database_name] argument is passed through unchanged by every method and
    is left out. *)
Variable store_answer : string -> list stage -> result (list doc).

(** Computations that issue requests: the requests made so far are
    recorded. *)
Definition M (A : Type) : Type := list query -> result A * list query.

Definition ret {A : Type} (a : A) : M A := fun log => (Ok a, log).

Definition lift {A : Type} (r : result A) : M A := fun log => (r, log).

Definition bind {A B : Type} (m : M A) (k : A -> M B) : M B :=
  fun log =>
    match m log with
    | (Ok a, log') => k a log'
    | (Raise e, log') => (Raise e, log')
    end.

Notation "x <- m ;; k" := (bind m (fun x => k))
  (at level 100, m at next level, right associativity).

(** MongoDriver.aggregate *)
Definition aggregate (collection_name : string) (pipeline : list stage) : M (list doc) :=
  fun log =>
    (store_answer collection_name pipeline,
     log ++ [{| collection_name := collection_name; pipeline := pipeline |}]).

Fixpoint map_result {A B : Type} (f : A -> result B) (l : list A) : result (list B) :=
  match l with
  | [] => Ok []
  | a :: l' =>
      match f a with
      | Ok b =>
          match map_result f l' with
          | Ok bs => Ok (b :: bs)
          | Raise e => Raise e
          end
      | Raise e => Raise e
      end
  end.

(** MongoDriver._build_geospatial_filter *)
Definition _build_geospatial_filter (longitude latitude radius_km : Q) : stage :=
  GeoNear longitude latitude "distance_in_meter" (radius_km * 1000).

(** A string-or-None used as a condition *)
Definition truthy (s : option string) : option string :=
  match s with
  | Some "" => None
  | _ => s
  end.

(** MongoDriver._build_store_filters *)
Definition _build_store_filters (platform : option string)
    (rating_range : option (Q * Q)) (review_count_range : option (Z * Z)) : condition :=
  let filters :=
    match truthy platform with
    | Some p => [FEq "platform" (VStr p)]
    | None => []
    end ++
    match rating_range with
    | Some r => [FRange "rating.value" r.1 r.2]
    | None => []
    end ++
    match review_count_range with
    | Some r => [FRange "rating.review_count" (inject_Z r.1) (inject_Z r.2)]
    | None => []
    end in
  match filters with
  | [] => FExprTrue
  | _ => FAll filters
  end.

(** MongoDriver._build_drink_tags_filter.  A [drink_tags] that is [None] is
    represented by the empty list: the methods only test its truth value. *)
Definition _build_drink_tags_filter (drink_tags : list string) : condition :=
  match drink_tags with
  | [] => FExprTrue
  | _ => FText (String.concat " " drink_tags)
  end.

(** The brand stage written out in each store pipeline:
    [*([{"$match": {"$or": [...]}}] if brands else [])]. *)
Definition brand_stage (brands : list string) : list stage :=
  match brands with
  | [] => []
  | _ => [Match (FOr (map (fun brand => FRegex "name" brand "i") brands))]
  end.

(** [max_distance_km = 5.0 if not distance_range else distance_range[1]] *)
Definition max_distance_km (distance_range : option (Z * Z)) : Q :=
  match distance_range with
  | None => 5
  | Some r => inject_Z r.2
  end.

(** The loop that builds [store_conditions]. *)
Definition store_conditions (stores : list doc) : result (list condition) :=
  map_result (fun store =>
                match getitem "store_id" store with
                | Ok v => Ok (FEq "store_id" v)
                | Raise e => Raise e
                end) stores.

(** *** Python dictionaries keyed by identifiers *)

(** Only scalars can be dictionary keys. *)
Definition hashable (v : value) : bool :=
  match v with
  | VList _ | VDict _ => false
  | _ => true
  end.

Definition check_hashable (v : value) : result value :=
  if hashable v then Ok v else Raise (TypeError "unhashable type").

Fixpoint alist_get {K V : Type} (eqb : K -> K -> bool) (k : K) (l : list (K * V))
  : option V :=
  match l with
  | [] => None
  | kv :: l' => if eqb kv.1 k then Some kv.2 else alist_get eqb k l'
  end.

Fixpoint alist_set {K V : Type} (eqb : K -> K -> bool) (k : K) (v : V)
    (l : list (K * V)) : list (K * V) :=
  match l with
  | [] => [(k, v)]
  | kv :: l' => if eqb kv.1 k then (kv.1, v) :: l' else kv :: alist_set eqb k v l'
  end.

Definition pair_eq (a b : value * value) : bool := py_eq a.1 b.1 && py_eq a.2 b.2.

(** *** Stores with their menu *)

Definition store_projection : list (string * projection) :=
  [("_id", PExclude); ("store_id", PInclude); ("name", PInclude);
   ("address", PInclude); ("platforms", PInclude); ("rating", PInclude);
   ("review_count", PInclude); ("cuisines", PInclude);
   ("distance_in_meter", PField "distance_in_meter");
   ("distance_in_km", PRoundDiv "distance_in_meter" 1000 2)].

Definition menu_projection : list (string * projection) :=
  [("_id", PExclude); ("item_id", PInclude); ("store_id", PInclude);
   ("name", PInclude); ("category", PInclude); ("description", PInclude);
   ("price", PInclude); ("is_popular", PInclude); ("options", PInclude)].

(** The pipeline of [_join_menu_data]. *)
Definition join_menu_pipeline (drink_tags : list string) (conds : list condition)
  : list stage :=
  match drink_tags with
  | _ :: _ =>
      [Match (_build_drink_tags_filter drink_tags);
       Match (FOr conds);
       AddTextScore "text_score";
       Project (menu_projection ++ [("text_score", PInclude)]);
       SortTextScore "text_score"]
  | [] =>
      [Match (FOr conds); Project menu_projection]
  end.

(** One iteration of the loop that fills [menu_index] and
    [store_hit_counts]. *)
Definition index_item (acc : list (value * list doc) * list (value * nat)) (item : doc)
  : result (list (value * list doc) * list (value * nat)) :=
  match getitem "store_id" item with
  | Raise e => Raise e
  | Ok v =>
      match check_hashable v with
      | Raise e => Raise e
      | Ok key =>
          let '(menu_index, store_hit_counts) :=
            match alist_get py_eq key acc.1 with
            | None => (alist_set py_eq key [] acc.1, alist_set py_eq key 0 acc.2)
            | Some _ => acc
            end in
          Ok (alist_set py_eq key
                (default [] (alist_get py_eq key menu_index) ++ [item]) menu_index,
              alist_set py_eq key
                (default 0 (alist_get py_eq key store_hit_counts) + 1) store_hit_counts)
      end
  end.

Fixpoint fold_result {A B : Type} (f : B -> A -> result B) (acc : B) (l : list A)
  : result B :=
  match l with
  | [] => Ok acc
  | a :: l' =>
      match f acc a with
      | Ok acc' => fold_result f acc' l'
      | Raise e => Raise e
      end
  end.

Definition of_nat (n : nat) : value := VNum (inject_Z (Z.of_nat n)).

(** One iteration of the loop that attaches the menus. *)
Definition attach_menu (drink_tags : list string)
    (menu_index : list (value * list doc)) (store_hit_counts : list (value * nat))
    (store : doc) : result doc :=
  match getitem "store_id" store with
  | Raise e => Raise e
  | Ok v =>
      match check_hashable v with
      | Raise e => Raise e
      | Ok key =>
          let store_copy :=
            <["menu" := VList (map VDict (default [] (alist_get py_eq key menu_index)))]>
              store in
          match drink_tags with
          | _ :: _ =>
              Ok (<["hit_count" :=
                     of_nat (default 0 (alist_get py_eq key store_hit_counts))]> store_copy)
          | [] => Ok store_copy
          end
      end
  end.

(** [x.get("hit_count", 0)] *)
Definition hit_count (x : doc) : Q :=
  match x !! "hit_count" with
  | Some (VNum q) => q
  | _ => 0
  end.

(** [l.sort(key=..., reverse=True)]: by decreasing key, elements of equal
    key keeping their order. *)
Definition sort_desc {A : Type} (key : A -> Q) (l : list A) : list A :=
  sort_by (fun a b => negb (Qle_bool (key a) (key b))) l.

(** What [_join_menu_data] does with the menu items it has fetched. *)
Definition join_menu (stores : list doc) (drink_tags : list string) (menu_items : list doc)
  : result (list doc) :=
  match fold_result index_item ([], []) menu_items with
  | Raise e => Raise e
  | Ok (menu_index, store_hit_counts) =>
      match map_result (attach_menu drink_tags menu_index store_hit_counts) stores with
      | Raise e => Raise e
      | Ok res =>
          match drink_tags with
          | _ :: _ => Ok (map (delete "hit_count") (sort_desc hit_count res))
          | [] => Ok res
          end
      end
  end.

(** MongoDriver._join_menu_data.  As for the other methods, a [drink_tags]
    or [brands] that is [None] is represented by the empty list. *)
Definition _join_menu_data (stores : list doc) (drink_tags : list string) : M (list doc) :=
  match stores with
  | [] => ret []
  | _ =>
      conds <- lift (store_conditions stores) ;;
      menu_items <- aggregate "menu_item" (join_menu_pipeline drink_tags conds) ;;
      lift (join_menu stores drink_tags menu_items)
  end.

(** The first pipeline of [_find_stores_with_drink_tags]. *)
Definition tagged_menu_pipeline (drink_tags : list string) (platform : option string)
  : list stage :=
  [Match (_build_drink_tags_filter drink_tags)] ++
  match truthy platform with
  | Some p => [Match (FEq "platforms" (VStr p))]
  | None => []
  end ++
  [Group [("store_id", "store_id"); ("platforms", "platforms")];
   Project [("_id", PExclude); ("store_id", PField "_id.store_id");
            ("platforms", PField "_id.platforms")]].

(** The second pipeline of [_find_stores_with_drink_tags]. *)
Definition tagged_store_pipeline (longitude latitude : Q) (brands : list string)
    (review_count_range : option (Z * Z)) (rating_range : option (Q * Q))
    (distance_range : option (Z * Z)) (platform : option string)
    (conds : list condition) : list stage :=
  [_build_geospatial_filter longitude latitude (max_distance_km distance_range);
   Match (_build_store_filters platform rating_range review_count_range);
   Match (FOr conds)] ++
  brand_stage brands ++
  [Project store_projection].

(** MongoDriver._find_stores_with_drink_tags *)
Definition _find_stores_with_drink_tags (longitude latitude : Q)
    (drink_tags brands : list string) (review_count_range : option (Z * Z))
    (rating_range : option (Q * Q)) (distance_range : option (Z * Z))
    (platform : option string) : M (list doc) :=
  matching_stores <- aggregate "menu_item" (tagged_menu_pipeline drink_tags platform) ;;
  match matching_stores with
  | [] => ret []
  | _ =>
      conds <- lift (store_conditions matching_stores) ;;
      stores <- aggregate "store"
                  (tagged_store_pipeline longitude latitude brands review_count_range
                     rating_range distance_range platform conds) ;;
      match stores with
      | [] => ret []
      | _ => _join_menu_data stores drink_tags
      end
  end.

(** The pipeline of [_find_stores_without_drink_filter]. *)
Definition plain_store_pipeline (longitude latitude : Q) (brands : list string)
    (review_count_range : option (Z * Z)) (rating_range : option (Q * Q))
    (distance_range : option (Z * Z)) (platform : option string) : list stage :=
  [_build_geospatial_filter longitude latitude (max_distance_km distance_range);
   Match (_build_store_filters platform rating_range review_count_range)] ++
  brand_stage brands ++
  [Project store_projection].

(** MongoDriver._find_stores_without_drink_filter *)
Definition _find_stores_without_drink_filter (longitude latitude : Q)
    (brands : list string) (review_count_range : option (Z * Z))
    (rating_range : option (Q * Q)) (distance_range : option (Z * Z))
    (platform : option string) : M (list doc) :=
  stores <- aggregate "store"
              (plain_store_pipeline longitude latitude brands review_count_range
                 rating_range distance_range platform) ;;
  match stores with
  | [] => ret []
  | _ => _join_menu_data stores []
  end.

(** MongoDriver.find_drink_stores_with_menu *)
Definition find_drink_stores_with_menu (longitude latitude : Q)
    (drink_tags brands : list string) (review_count_range : option (Z * Z))
    (rating_range : option (Q * Q)) (distance_range : option (Z * Z))
    (platform : option string) : M (list doc) :=
  match drink_tags with
  | _ :: _ =>
      _find_stores_with_drink_tags longitude latitude drink_tags brands
        review_count_range rating_range distance_range platform
  | [] =>
      _find_stores_without_drink_filter longitude latitude brands
        review_count_range rating_range distance_range platform
  end.

(** *** Drinks with their store *)

Definition qualifying_projection : list (string * projection) :=
  [("_id", PExclude); ("store_id", PInclude); ("name", PInclude);
   ("brand", PInclude); ("address", PInclude); ("platform", PInclude);
   ("rating", PInclude); ("review_count", PInclude); ("cuisines", PInclude);
   ("source_url", PInclude);
   ("distance_in_meter", PField "distance_in_meter");
   ("distance_in_km", PRoundDiv "distance_in_meter" 1000 2)].

(** The pipeline of [_find_qualifying_stores]. *)
Definition qualifying_pipeline (longitude latitude : Q) (brands : list string)
    (review_count_range : option (Z * Z)) (rating_range : option (Q * Q))
    (distance_range : option (Z * Z)) (platform : option string) : list stage :=
  [_build_geospatial_filter longitude latitude (max_distance_km distance_range);
   Match (_build_store_filters platform rating_range review_count_range)] ++
  brand_stage brands ++
  [Project qualifying_projection].

(** MongoDriver._find_qualifying_stores *)
Definition _find_qualifying_stores (longitude latitude : Q) (brands : list string)
    (review_count_range : option (Z * Z)) (rating_range : option (Q * Q))
    (distance_range : option (Z * Z)) (platform : option string) : M (list doc) :=
  aggregate "store"
    (qualifying_pipeline longitude latitude brands review_count_range rating_range
       distance_range platform).

Definition drink_projection (drink_tags : list string) : list (string * projection) :=
  [("_id", PExclude); ("item_id", PInclude); ("name", PInclude);
   ("description", PInclude); ("price", PInclude); ("image_url", PInclude);
   ("category", PInclude); ("is_popular", PInclude); ("options", PInclude);
   ("store_id", PInclude); ("platforms", PInclude)] ++
  match drink_tags with
  | _ :: _ => [("text_score", PInclude)]
  | [] => []
  end.

(** [if limit:] on an int-or-None *)
Definition truthy_int (limit : option Z) : option Z :=
  match limit with
  | Some 0%Z => None
  | _ => limit
  end.

(** The pipeline of [_find_drinks_from_stores]. *)
Definition drinks_pipeline (drink_tags : list string) (limit : option Z)
    (conds : list condition) : list stage :=
  match drink_tags with
  | _ :: _ => [Match (_build_drink_tags_filter drink_tags)]
  | [] => []
  end ++
  [Match (FGte "price" 20); Match (FOr conds)] ++
  match drink_tags with
  | _ :: _ => [AddTextScore "text_score"]
  | [] => []
  end ++
  [Project (drink_projection drink_tags)] ++
  match drink_tags with
  | _ :: _ => [SortTextScore "text_score"]
  | [] => []
  end ++
  match truthy_int limit with
  | Some n => [Limit n]
  | None => []
  end.

(** The key [(d["store_id"], d.get("platforms"))] of the store index. *)
Definition index_key (d : doc) : result (value * value) :=
  match getitem "store_id" d with
  | Raise e => Raise e
  | Ok sid =>
      match check_hashable sid with
      | Raise e => Raise e
      | Ok sid =>
          match check_hashable (dict_get "platforms" d) with
          | Raise e => Raise e
          | Ok pf => Ok (sid, pf)
          end
      end
  end.

(** One iteration of the loop that builds [store_index]. *)
Definition index_store (store_index : list ((value * value) * doc)) (store : doc)
  : result (list ((value * value) * doc)) :=
  match index_key store with
  | Raise e => Raise e
  | Ok key => Ok (alist_set pair_eq key store store_index)
  end.

(** [d.pop(k, default)] followed by [d[k'] = ...] of the popped value *)
Definition pop_default (k : string) (dflt : value) (d : doc) : value * doc :=
  (default dflt (d !! k), delete k d).

(** The body of [if store_data:] *)
Definition attach_store (store_data : doc) (item : doc) : result doc :=
  match getitem "store_id" store_data with
  | Raise e => Raise e
  | Ok sid =>
      let '(v, item) := pop_default "store_id" sid item in
      let item := <["store_id" := v]> item in
      let '(v, item) := pop_default "platform" (dict_get "platform" store_data) item in
      let item := <["platform" := v]> item in
      let item := <["store_name" := dict_get "name" store_data]> item in
      let item := <["store_url" := dict_get "source_url" store_data]> item in
      let item := <["brand_name" := dict_get "brand" store_data]> item in
      Ok item
  end.

(** One iteration of the loop over [menu_items]; [drinks] is the list
    [result] of the source. *)
Definition join_item (store_index : list ((value * value) * doc))
    (drinks : list doc) (item : doc) : result (list doc) :=
  match index_key item with
  | Raise e => Raise e
  | Ok key =>
      match alist_get pair_eq key store_index with
      | Some store_data =>
          if bool_decide (size store_data = 0) then Ok drinks
          else match attach_store store_data item with
               | Ok item' => Ok (drinks ++ [item'])
               | Raise e => Raise e
               end
      | None => Ok drinks
      end
  end.

(** *** Python's order on values

    [list.sort] computes the key of every element and then compares the keys
    with [<].  Numbers are ordered among themselves, a [bool] being the
    number 0 or 1; strings are ordered among themselves, by code points;
    lists are ordered lexicographically, the first elements that are not
    [==] deciding; every other comparison raises TypeError. *)

Definition num_of (v : value) : option Q :=
  match v with
  | VBool b => Some (if b then 1 else 0)%Q
  | VNum q => Some q
  | _ => None
  end.

(** [x == y], on all values. *)
Fixpoint py_equal (x y : value) {struct x} : bool :=
  match x, y with
  | VNone, VNone => true
  | VStr a, VStr b => bool_decide (a = b)
  | VList a, VList b =>
      (fix go (a b : list value) {struct a} : bool :=
         match a, b with
         | [], [] => true
         | x :: a', y :: b' => py_equal x y && go a' b'
         | _, _ => false
         end) a b
  | VDict a, VDict b =>
      map_fold (fun _ (same : bool) acc => same && acc) true
        (merge (fun x y => match x, y with
                           | Some x, Some y => Some (py_equal x y)
                           | None, None => None
                           | _, _ => Some false
                           end) a b)
  | _, _ =>
      match num_of x, num_of y with
      | Some p, Some q => Qeq_bool p q
      | _, _ => false
      end
  end.

(** [x < y] *)
Fixpoint py_lt (x y : value) {struct x} : result bool :=
  match x, y with
  | VStr a, VStr b => Ok (String.ltb a b)
  | VList a, VList b =>
      (fix go (a b : list value) {struct a} : result bool :=
         match a, b with
         | [], [] => Ok false
         | [], _ :: _ => Ok true
         | _ :: _, [] => Ok false
         | x :: a', y :: b' => if py_equal x y then go a' b' else py_lt x y
         end) a b
  | _, _ =>
      match num_of x, num_of y with
      | Some p, Some q => Ok (negb (Qle_bool q p))
      | _, _ => Raise (TypeError "'<' not supported between these instances")
      end
  end.

(** [x < y] holds. *)
Definition less (x y : value) : bool :=
  match py_lt x y with
  | Ok b => b
  | Raise _ => false
  end.

(** [x] and [y] can be compared, either way round. *)
Definition comparable (x y : value) : bool :=
  match py_lt x y, py_lt y x with
  | Ok _, Ok _ => true
  | _, _ => false
  end.

Fixpoint pairwise_comparable (keys : list value) : bool :=
  match keys with
  | [] => true
  | k :: ks => forallb (comparable k) ks && pairwise_comparable ks
  end.

(** [l.sort(key=..., reverse=True)], on the elements paired with their
    keys.  In a list of fewer than two elements nothing is compared.
    Otherwise a sort has to compare every key with another one, and two keys
    that cannot be ordered with each other, if there are two: TypeError is
    raised (its message, which names the types of the two keys at which the
    sort stopped, is not modelled).  Keys that can all be ordered are put in
    decreasing order, the elements of equal keys keeping their order. *)
Definition list_sort_reverse {A : Type} (keyed : list (value * A)) : result (list A) :=
  if pairwise_comparable (map fst keyed)
  then Ok (map snd (sort_by (fun a b : value * A => less b.1 a.1) keyed))
  else Raise (TypeError "'<' not supported between these instances").

(** [x["text_score"]], the sort key. *)
Definition text_score_key (x : doc) : result value := getitem "text_score" x.

(** [result.sort(key=lambda x: x["text_score"], reverse=True)] *)
Definition sort_by_text_score (drinks : list doc) : result (list doc) :=
  match map_result text_score_key drinks with
  | Raise e => Raise e
  | Ok keys => list_sort_reverse (zip keys drinks)
  end.

(** What [_find_drinks_from_stores] does with the menu items it has
    fetched. *)
Definition join_drinks (stores : list doc) (drink_tags : list string)
    (menu_items : list doc) : result (list doc) :=
  match fold_result index_store [] stores with
  | Raise e => Raise e
  | Ok store_index =>
      match fold_result (join_item store_index) [] menu_items with
      | Raise e => Raise e
      | Ok drinks =>
          match drink_tags with
          | _ :: _ => sort_by_text_score drinks
          | [] => Ok drinks
          end
      end
  end.

(** MongoDriver._find_drinks_from_stores.  Its [platform] argument is not
    used by the source. *)
Definition _find_drinks_from_stores (stores : list doc) (drink_tags : list string)
    (platform : option string) (limit : option Z) : M (list doc) :=
  conds <- lift (store_conditions stores) ;;
  menu_items <- aggregate "menu_item" (drinks_pipeline drink_tags limit conds) ;;
  lift (join_drinks stores drink_tags menu_items).

(** MongoDriver.find_drinks *)
Definition find_drinks (longitude latitude : Q) (drink_tags brands : list string)
    (review_count_range : option (Z * Z)) (rating_range : option (Q * Q))
    (distance_range : option (Z * Z)) (platform : option string)
    (limit : option Z) : M (list doc) :=
  qualifying_stores <- _find_qualifying_stores longitude latitude brands
                         review_count_range rating_range distance_range platform ;;
  match qualifying_stores with
  | [] => ret []
  | _ => _find_drinks_from_stores qualifying_stores drink_tags platform limit
  end.

(** ** Sorting *)

Lemma insert_sorted_perm {A : Type} (before : A -> A -> bool) (x : A) (l : list A) :
  insert_sorted before x l ≡ₚ x :: l.
Proof.
  induction l as [|y l IH]; simpl; [reflexivity|].
  destruct (before y x); [|reflexivity].
  rewrite IH. apply Permutation_swap.
Qed.

Lemma sort_by_perm {A : Type} (before : A -> A -> bool) (l : list A) :
  sort_by before l ≡ₚ l.
Proof.
  induction l as [|x l IH]; simpl; [reflexivity|].
  rewrite insert_sorted_perm. f_equiv. exact IH.
Qed.

Lemma sort_desc_perm {A : Type} (key : A -> Q) (l : list A) : sort_desc key l ≡ₚ l.
Proof. apply sort_by_perm. Qed.

(** The order [sort_desc] leaves: keys never increase. *)
Definition key_ge {A : Type} (key : A -> Q) (a b : A) : Prop := (key b <= key a)%Q.

Lemma insert_desc_sorted {A : Type} (key : A -> Q) (x : A) (l : list A) :
  StronglySorted (key_ge key) l ->
  StronglySorted (key_ge key)
    (insert_sorted (fun a b => negb (Qle_bool (key a) (key b))) x l).
Proof.
  induction 1 as [|y l Hs IH Hy]; simpl.
  - constructor; constructor.
  - destruct (Qle_bool (key y) (key x)) eqn:Hle; simpl.
    + apply Qle_bool_iff in Hle. constructor; [constructor; assumption|].
      constructor; [exact Hle|].
      eapply Forall_impl; [exact Hy|]. intros z Hz. unfold key_ge in *.
      eapply Qle_trans; eassumption.
    + constructor; [exact IH|].
      rewrite insert_sorted_perm. constructor; [|exact Hy].
      unfold key_ge. apply Qlt_le_weak. apply Qnot_le_lt.
      intros Hc. apply Qle_bool_iff in Hc. congruence.
Qed.

Lemma sort_desc_sorted {A : Type} (key : A -> Q) (l : list A) :
  StronglySorted (key_ge key) (sort_desc key l).
Proof.
  unfold sort_desc, sort_by. induction l as [|x l IH]; simpl.
  - constructor.
  - apply insert_desc_sorted. exact IH.
Qed.

(** ** Dictionaries keyed by identifiers *)

Lemma py_eq_sym (x y : value) : py_eq x y = py_eq y x.
Proof.
  destruct x, y; simpl; try reflexivity.
  - destruct b, b0; reflexivity.
  - destruct (Qeq_bool q q0) eqn:H1, (Qeq_bool q0 q) eqn:H2; try reflexivity.
    + apply Qeq_bool_iff in H1. symmetry in H1. apply Qeq_bool_iff in H1. congruence.
    + apply Qeq_bool_iff in H2. symmetry in H2. apply Qeq_bool_iff in H2. congruence.
  - apply bool_decide_ext. split; congruence.
Qed.

Lemma py_eq_trans (x y z : value) :
  py_eq x y = true -> py_eq y z = true -> py_eq x z = true.
Proof.
  destruct x, y; simpl; try discriminate; destruct z; simpl; try discriminate;
    try reflexivity.
  - destruct b, b0, b1; simpl; auto.
  - intros H1 H2. apply Qeq_bool_iff in H1, H2. apply Qeq_bool_iff.
    rewrite H1. exact H2.
  - intros H1 H2. apply bool_decide_eq_true in H1, H2. apply bool_decide_eq_true.
    congruence.
Qed.

Lemma py_eq_refl (x : value) : hashable x = true -> py_eq x x = true.
Proof.
  destruct x; simpl; try discriminate; intros _; try reflexivity.
  - destruct b; reflexivity.
  - apply Qeq_bool_iff. reflexivity.
  - apply bool_decide_eq_true. reflexivity.
Qed.

Lemma pair_eq_sym (a b : value * value) : pair_eq a b = pair_eq b a.
Proof. unfold pair_eq. rewrite (py_eq_sym a.1), (py_eq_sym a.2). reflexivity. Qed.

Lemma pair_eq_trans (a b c : value * value) :
  pair_eq a b = true -> pair_eq b c = true -> pair_eq a c = true.
Proof.
  unfold pair_eq. intros H1 H2.
  apply andb_true_iff in H1 as [H1 H1'], H2 as [H2 H2'].
  apply andb_true_iff. split; eapply py_eq_trans; eassumption.
Qed.

Section Alist.

Context {K V : Type} (eqb : K -> K -> bool).
Hypothesis eqb_sym : forall x y, eqb x y = eqb y x.
Hypothesis eqb_trans : forall x y z, eqb x y = true -> eqb y z = true -> eqb x z = true.

Lemma eqb_left (x y z : K) : eqb x y = true -> eqb x z = eqb y z.
Proof.
  intros Hxy. destruct (eqb y z) eqn:Hyz.
  - eapply eqb_trans; eassumption.
  - destruct (eqb x z) eqn:Hxz; [|reflexivity].
    rewrite eqb_sym in Hxy. rewrite <- Hyz. symmetry.
    eapply eqb_trans; eassumption.
Qed.

(** Reading a dictionary after [d[k'] = v]. *)
Lemma alist_get_set (k k' : K) (v : V) (l : list (K * V)) :
  alist_get eqb k (alist_set eqb k' v l)
  = if eqb k' k then Some v else alist_get eqb k l.
Proof.
  induction l as [|[k0 v0] l IH]; simpl.
  - reflexivity.
  - destruct (eqb k0 k') eqn:H0; simpl.
    + rewrite (eqb_left k0 k' k H0). destruct (eqb k' k); reflexivity.
    + rewrite IH. destruct (eqb k0 k) eqn:H1; [|reflexivity].
      destruct (eqb k' k) eqn:H2; [|reflexivity].
      rewrite (eqb_sym k' k) in H2.
      rewrite (eqb_trans k0 k k' H1 H2) in H0. discriminate.
Qed.

End Alist.

(** ** The menu index *)

(** The fetched menu items that belong to the store of identifier [key]. *)
Definition same_store (key : value) (item : doc) : bool :=
  match item !! "store_id" with
  | Some v => py_eq v key
  | None => false
  end.

Definition matching (key : value) (items : list doc) : list doc :=
  filter (fun item => same_store key item = true) items.

Definition nonempty {A : Type} (l : list A) : option (list A) :=
  match l with
  | [] => None
  | _ => Some l
  end.

Lemma same_store_eq (k k' : value) (item : doc) :
  py_eq k k' = true -> same_store k item = same_store k' item.
Proof.
  intros H. unfold same_store. destruct (item !! "store_id") as [v|]; [|reflexivity].
  rewrite (py_eq_sym v k), (py_eq_sym v k').
  apply (eqb_left py_eq py_eq_sym py_eq_trans). exact H.
Qed.

Lemma matching_eq (k k' : value) (items : list doc) :
  py_eq k k' = true -> matching k items = matching k' items.
Proof.
  intros H. unfold matching. induction items as [|item items IH]; [reflexivity|].
  rewrite !filter_cons, IH, (same_store_eq k k' item H). reflexivity.
Qed.

Lemma matching_snoc (k : value) (items : list doc) (item : doc) :
  matching k (items ++ [item])
  = matching k items ++ (if same_store k item then [item] else []).
Proof.
  unfold matching. rewrite filter_app, filter_cons, filter_nil.
  destruct (same_store k item); simpl; reflexivity.
Qed.

(** What one iteration of the indexing loop does to the two dictionaries. *)
Lemma index_item_get (acc acc' : list (value * list doc) * list (value * nat))
    (item : doc) :
  index_item acc item = Ok acc' ->
  exists key, item !! "store_id" = Some key /\ hashable key = true
    /\ forall k,
         alist_get py_eq k acc'.1
         = (if py_eq key k then Some (default [] (alist_get py_eq key acc.1) ++ [item])
            else alist_get py_eq k acc.1)
         /\ alist_get py_eq k acc'.2
            = (if py_eq key k
               then Some (match alist_get py_eq key acc.1 with
                          | None => 1
                          | Some _ => default 0 (alist_get py_eq key acc.2) + 1
                          end)
               else alist_get py_eq k acc.2).
Proof.
  unfold index_item, getitem, check_hashable.
  destruct (item !! "store_id") as [key|]; [|discriminate].
  destruct (hashable key) eqn:Hh; [|discriminate].
  pose proof (py_eq_refl key Hh) as Hrefl.
  destruct acc as [mi hc]. cbn [fst snd].
  destruct (alist_get py_eq key mi) as [l|] eqn:Hget; intros H; inversion H; subst;
    clear H; exists key; (split; [reflexivity|]); (split; [exact Hh|]);
    intros k; cbn [fst snd];
    rewrite ?(alist_get_set py_eq py_eq_sym py_eq_trans), ?Hrefl, ?Hget; cbn [default].
  - split; reflexivity.
  - destruct (py_eq key k); split; reflexivity.
Qed.

(** The two dictionaries after a run of the indexing loop over [seen]. *)
Definition indexed (acc : list (value * list doc) * list (value * nat))
    (seen : list doc) : Prop :=
  forall k,
    alist_get py_eq k acc.1 = nonempty (matching k seen)
    /\ alist_get py_eq k acc.2 = length <$> nonempty (matching k seen).

Lemma nonempty_snoc {A : Type} (l : list A) (x : A) :
  nonempty (l ++ [x]) = Some (default [] (nonempty l) ++ [x]).
Proof. destruct l; reflexivity. Qed.

Lemma indexed_step (acc acc' : list (value * list doc) * list (value * nat))
    (seen : list doc) (item : doc) :
  indexed acc seen -> index_item acc item = Ok acc' -> indexed acc' (seen ++ [item]).
Proof.
  intros Hinv Hstep.
  destruct (index_item_get acc acc' item Hstep) as (key & Hsid & Hh & Hget).
  intros k. destruct (Hget k) as [-> ->]. rewrite matching_snoc.
  assert (same_store k item = py_eq key k) as ->.
  { unfold same_store. rewrite Hsid. reflexivity. }
  destruct (py_eq key k) eqn:Hk.
  - destruct (Hinv key) as [-> ->]. rewrite (matching_eq k key).
    2:{ rewrite py_eq_sym. exact Hk. }
    rewrite nonempty_snoc. split; [reflexivity|].
    destruct (matching key seen) as [|x l]; simpl; [reflexivity|].
    rewrite length_app. simpl. reflexivity.
  - rewrite app_nil_r. apply Hinv.
Qed.

Lemma indexed_fold (items seen : list doc)
    (acc acc' : list (value * list doc) * list (value * nat)) :
  indexed acc seen -> fold_result index_item acc items = Ok acc' ->
  indexed acc' (seen ++ items).
Proof.
  revert seen acc. induction items as [|item items IH]; intros seen acc Hinv Hfold;
    simpl in Hfold.
  - inversion Hfold; subst. rewrite app_nil_r. exact Hinv.
  - destruct (index_item acc item) as [acc1|e] eqn:Hstep; [|discriminate].
    replace (seen ++ item :: items) with ((seen ++ [item]) ++ items)
      by (rewrite <- app_assoc; reflexivity).
    eapply IH; [|exact Hfold]. eapply indexed_step; eassumption.
Qed.

Lemma indexed_all (items : list doc)
    (acc : list (value * list doc) * list (value * nat)) :
  fold_result index_item ([], []) items = Ok acc -> indexed acc items.
Proof.
  intros H. apply (indexed_fold items [] ([], []) acc); [|exact H].
  intros k. split; reflexivity.
Qed.

(** ** Ranking the stores by their number of matching items *)

(** The number of menu items attached to a returned store. *)
Definition menu_size (d : doc) : nat :=
  match d !! "menu" with
  | Some (VList l) => length l
  | _ => 0
  end.

(** A store as the attaching loop leaves it. *)
Definition with_menu (drink_tags : list string) (items : list doc) (store : doc)
    (key : value) : doc :=
  let store_copy := <["menu" := VList (map VDict (matching key items))]> store in
  match drink_tags with
  | _ :: _ => <["hit_count" := of_nat (length (matching key items))]> store_copy
  | [] => store_copy
  end.

Lemma menu_of_with_menu (drink_tags : list string) (items : list doc) (store : doc)
    (key : value) :
  delete "hit_count" (with_menu drink_tags items store key) !! "menu"
  = Some (VList (map VDict (matching key items))).
Proof.
  unfold with_menu. rewrite lookup_delete_ne by discriminate.
  destruct drink_tags.
  - apply lookup_insert_eq.
  - rewrite lookup_insert_ne by discriminate. apply lookup_insert_eq.
Qed.

Lemma default_nonempty {A : Type} (l : list A) : default [] (nonempty l) = l.
Proof. destruct l; reflexivity. Qed.

Lemma default_length_nonempty {A : Type} (l : list A) :
  default 0 (length <$> nonempty l) = length l.
Proof. destruct l; reflexivity. Qed.

Lemma attach_menu_spec (drink_tags : list string)
    (acc : list (value * list doc) * list (value * nat)) (items : list doc)
    (store d : doc) :
  indexed acc items ->
  attach_menu drink_tags acc.1 acc.2 store = Ok d ->
  exists key, store !! "store_id" = Some key /\ d = with_menu drink_tags items store key.
Proof.
  intros Hinv. unfold attach_menu, getitem, check_hashable, with_menu.
  destruct (store !! "store_id") as [key|]; [|discriminate].
  destruct (hashable key); [|discriminate].
  destruct (Hinv key) as [-> ->].
  rewrite default_nonempty, default_length_nonempty.
  destruct drink_tags; intros H; inversion H; eauto.
Qed.

Lemma map_result_Forall2 {A B : Type} (f : A -> result B) (l : list A) (l' : list B) :
  map_result f l = Ok l' -> Forall2 (fun a b => f a = Ok b) l l'.
Proof.
  revert l'. induction l as [|a l IH]; intros l' H; simpl in H.
  - inversion H. constructor.
  - destruct (f a) as [b|e] eqn:Hf; [|discriminate].
    destruct (map_result f l) as [bs|e]; [|discriminate].
    inversion H; subst. constructor; auto.
Qed.

Lemma Forall2_Forall_r {A B : Type} (R : A -> B -> Prop) (P : B -> Prop)
    (l : list A) (l' : list B) :
  Forall2 R l l' -> (forall a b, a ∈ l -> R a b -> P b) -> Forall P l'.
Proof.
  induction 1 as [|a b l l' Hab _ IH]; intros HP; constructor.
  - apply (HP a b); [left|exact Hab].
  - apply IH. intros a' b' Hin. apply HP. right. exact Hin.
Qed.

Lemma StronglySorted_map_on {A B : Type} (P : A -> Prop) (R : A -> A -> Prop)
    (S : B -> B -> Prop) (f : A -> B) (l : list A) :
  (forall a b, P a -> P b -> R a b -> S (f a) (f b)) ->
  Forall P l -> StronglySorted R l -> StronglySorted S (map f l).
Proof.
  intros HRS HP Hs. induction Hs as [|x l Hs IH Hx]; simpl; constructor.
  - apply IH. inversion HP; assumption.
  - inversion HP as [|? ? Px Pl]; subst. apply Forall_fmap.
    apply Forall_forall. intros y Hy.
    apply (HRS x y Px); [|].
    + eapply (proj1 (Forall_forall _ _) Pl); exact Hy.
    + eapply (proj1 (Forall_forall _ _) Hx); exact Hy.
Qed.

Lemma inject_nat_le (a b : nat) :
  (inject_Z (Z.of_nat a) <= inject_Z (Z.of_nat b))%Q -> a <= b.
Proof. rewrite <- Zle_Qle. lia. Qed.

(** With tags, [join_menu] orders the stores by decreasing number of
    attached items, removes the counter, and attaches to each store the
    fetched items that carry its identifier. *)
Lemma join_menu_ranked (stores : list doc) (drink_tags : list string)
    (menu_items res : list doc) :
  drink_tags <> [] ->
  join_menu stores drink_tags menu_items = Ok res ->
  StronglySorted (fun a b => menu_size b <= menu_size a) res
  /\ Forall (fun d => d !! "hit_count" = None) res
  /\ Forall (fun d => exists key, d !! "store_id" = Some key
                       /\ d !! "menu" = Some (VList (map VDict (matching key menu_items))))
            res.
Proof.
  intros Htags. unfold join_menu.
  destruct (fold_result index_item ([], []) menu_items) as [[mi hc]|e] eqn:Hidx;
    [|discriminate].
  apply indexed_all in Hidx.
  destruct (map_result (attach_menu drink_tags mi hc) stores) as [res0|e] eqn:Hatt;
    [|discriminate].
  destruct drink_tags as [|tag tags]; [congruence|]. intros H; inversion H; subst; clear H.
  apply map_result_Forall2 in Hatt.
  assert (Forall (fun d => exists store key, store !! "store_id" = Some key
                    /\ d = with_menu (tag :: tags) menu_items store key) res0) as Hres0.
  { eapply Forall2_Forall_r; [exact Hatt|]. intros store d _ Hd.
    destruct (attach_menu_spec (tag :: tags) (mi, hc) menu_items store d Hidx Hd)
      as (key & Hk & ->). eauto. }
  assert (Forall (fun d => exists store key, store !! "store_id" = Some key
                    /\ d = with_menu (tag :: tags) menu_items store key)
            (sort_desc hit_count res0)) as Hsorted0.
  { rewrite sort_desc_perm. exact Hres0. }
  split; [|split].
  - eapply StronglySorted_map_on; [|exact Hsorted0|apply sort_desc_sorted].
    intros a b (sa & ka & Ha & ->) (sb & kb & Hb & ->) Hab.
    unfold key_ge, hit_count, with_menu, of_nat in Hab.
    rewrite !lookup_insert_eq in Hab. apply inject_nat_le in Hab.
    unfold menu_size. rewrite !menu_of_with_menu, !length_map. exact Hab.
  - apply Forall_fmap. apply Forall_forall. intros d _. simpl. apply lookup_delete_eq.
  - apply Forall_fmap. eapply Forall_impl; [exact Hsorted0|].
    intros d (store & key & Hk & ->). exists key. cbn beta.
    split; [|apply menu_of_with_menu].
    unfold with_menu. rewrite lookup_delete_ne by discriminate.
    rewrite !lookup_insert_ne by discriminate. exact Hk.
Qed.

(** [join_menu] returns normally when every store and every fetched item
    has a scalar [store_id]. *)
Definition has_store_id (d : doc) : Prop :=
  exists key, d !! "store_id" = Some key /\ hashable key = true.

Lemma index_items_total (items : list doc)
    (acc : list (value * list doc) * list (value * nat)) :
  Forall has_store_id items -> exists acc', fold_result index_item acc items = Ok acc'.
Proof.
  intros H. revert acc. induction H as [|item items (key & Hk & Hh) _ IH]; intros acc.
  - simpl. eauto.
  - simpl. unfold index_item at 1, getitem, check_hashable. rewrite Hk, Hh.
    destruct (match alist_get py_eq key acc.1 with
              | Some _ => acc
              | None => (alist_set py_eq key [] acc.1, alist_set py_eq key 0 acc.2)
              end) as [mi hc]. apply IH.
Qed.

Lemma map_result_total {A B : Type} (f : A -> result B) (P : A -> Prop) (l : list A) :
  (forall a, P a -> exists b, f a = Ok b) -> Forall P l ->
  exists bs, map_result f l = Ok bs.
Proof.
  intros Hf. induction 1 as [|a l Ha _ [bs IH]]; simpl.
  - eauto.
  - destruct (Hf a Ha) as [b ->]. rewrite IH. eauto.
Qed.

Lemma join_menu_total (stores : list doc) (drink_tags : list string)
    (menu_items : list doc) :
  Forall has_store_id stores -> Forall has_store_id menu_items ->
  exists res, join_menu stores drink_tags menu_items = Ok res.
Proof.
  intros Hs Hi. unfold join_menu.
  destruct (index_items_total menu_items ([], []) Hi) as [[mi hc] ->].
  destruct (map_result_total (attach_menu drink_tags mi hc) has_store_id stores)
    as [res ->]; [|exact Hs|].
  - intros store (key & Hk & Hh). unfold attach_menu, getitem, check_hashable.
    rewrite Hk, Hh. destruct drink_tags; eauto.
  - destruct drink_tags; eauto.
Qed.

(** ** Properties of the query methods, for any store *)

Lemma bind_ok {A B : Type} (m : M A) (k : A -> M B) (log log' : list query) (b : B) :
  bind m k log = (Ok b, log') ->
  exists a log1, m log = (Ok a, log1) /\ k a log1 = (Ok b, log').
Proof.
  unfold bind. destruct (m log) as [[a|e] log1]; intros H.
  - eauto.
  - discriminate.
Qed.

Lemma lift_ok {A : Type} (r : result A) (log log' : list query) (a : A) :
  lift r log = (Ok a, log') -> r = Ok a /\ log' = log.
Proof. unfold lift. intros H. inversion H. auto. Qed.

Lemma aggregate_ok (c : string) (p : list stage) (log log' : list query) (l : list doc) :
  aggregate c p log = (Ok l, log') ->
  store_answer c p = Ok l
  /\ log' = log ++ [{| collection_name := c; pipeline := p |}].
Proof. unfold aggregate. intros H. inversion H. auto. Qed.

(** The radius, in kilometers, that a store pipeline searches: its first
    stage is the geospatial one, whose [maxDistance] is in meters. *)
Definition search_radius_km (p : list stage) : option Q :=
  match p with
  | GeoNear _ _ _ maxDistance :: _ => Some (maxDistance / 1000)%Q
  | _ => None
  end.

(** The radius searched by the store pipeline of each operation:
    [find_drinks], [find_drink_stores_with_menu] without tags and with
    tags. *)
Definition search_radii (longitude latitude : Q) (brands : list string)
    (review_count_range : option (Z * Z)) (rating_range : option (Q * Q))
    (distance_range : option (Z * Z)) (platform : option string)
    (conds : list condition) : list (option Q) :=
  [search_radius_km (qualifying_pipeline longitude latitude brands review_count_range
                       rating_range distance_range platform);
   search_radius_km (plain_store_pipeline longitude latitude brands review_count_range
                       rating_range distance_range platform);
   search_radius_km (tagged_store_pipeline longitude latitude brands review_count_range
                       rating_range distance_range platform conds)].

(** C2.  Without a distance range every operation searches a radius of
    5 km.  With a range (lo, hi), given in meters, the radius searched is hi
    kilometers: the upper bound is not converted.  With (0, 3000) it is
    3000 km ([maxDistance] is 3 000 000 m), not 3 km. *)
Theorem search_radius_not_converted (longitude latitude : Q) (brands : list string)
    (review_count_range : option (Z * Z)) (rating_range : option (Q * Q))
    (platform : option string) (conds : list condition) :
  search_radii longitude latitude brands review_count_range rating_range None platform
    conds
  = [Some (5 * 1000 / 1000)%Q; Some (5 * 1000 / 1000)%Q; Some (5 * 1000 / 1000)%Q]
  /\ (5 * 1000 / 1000 == 5)%Q
  /\ (forall lo hi : Z,
        search_radii longitude latitude brands review_count_range rating_range
          (Some (lo, hi)) platform conds
        = [Some (inject_Z hi * 1000 / 1000)%Q; Some (inject_Z hi * 1000 / 1000)%Q;
           Some (inject_Z hi * 1000 / 1000)%Q])
  /\ (forall hi : Z, inject_Z hi * 1000 / 1000 == inject_Z hi)%Q
  /\ (inject_Z 3000 * 1000 / 1000 == 3000)%Q
  /\ ~ (inject_Z 3000 * 1000 / 1000 == 3)%Q.
Proof.
  split; [reflexivity|]. split; [reflexivity|]. split; [reflexivity|].
  split; [intros hi; field|]. split; [reflexivity|].
  intros H. discriminate H.
Qed.

(** C5.  When the store query of [find_drinks] answers no store, the result
    is the empty list and the only request issued is that store query:
    nothing is asked of [menu_item]. *)
Theorem find_drinks_no_store (longitude latitude : Q) (drink_tags brands : list string)
    (review_count_range : option (Z * Z)) (rating_range : option (Q * Q))
    (distance_range : option (Z * Z)) (platform : option string)
    (limit : option Z) (log : list query) :
  store_answer "store"
    (qualifying_pipeline longitude latitude brands review_count_range rating_range
       distance_range platform) = Ok [] ->
  find_drinks longitude latitude drink_tags brands review_count_range rating_range
    distance_range platform limit log
  = (Ok [],
     log ++ [{| collection_name := "store";
                pipeline := qualifying_pipeline longitude latitude brands
                              review_count_range rating_range distance_range
                              platform |}]).
Proof.
  intros Hempty. unfold find_drinks, _find_qualifying_stores, bind, aggregate.
  rewrite Hempty. reflexivity.
Qed.

Lemma ret_ok {A : Type} (a b : A) (log log' : list query) :
  ret a log = (Ok b, log') -> b = a /\ log' = log.
Proof. unfold ret. intros H. inversion H. auto. Qed.

(** What the result of [_join_menu_data] is made of. *)
Lemma join_menu_data_ok (stores : list doc) (drink_tags : list string)
    (log log' : list query) (res : list doc) :
  _join_menu_data stores drink_tags log = (Ok res, log') ->
  res = []
  \/ exists conds menu_items,
       store_answer "menu_item" (join_menu_pipeline drink_tags conds) = Ok menu_items
       /\ join_menu stores drink_tags menu_items = Ok res.
Proof.
  unfold _join_menu_data. destruct stores as [|store stores].
  - intros H. apply ret_ok in H as [-> _]. left; reflexivity.
  - intros H. right.
    apply bind_ok in H as (conds & log1 & Hc & H).
    apply bind_ok in H as (menu_items & log2 & Hm & H).
    apply aggregate_ok in Hm as [Hm _]. apply lift_ok in H as [H _].
    eauto.
Qed.

(** C3.  With a non-empty list of tags, the stores returned by
    [find_drink_stores_with_menu] are in non-increasing order of their number
    of matching menu items (the items fetched by the tag search that carry the
    store's identifier, which are the store's [menu]), and none of them has
    a [hit_count] field. *)
Theorem stores_ranked_by_hit_count (longitude latitude : Q)
    (drink_tags brands : list string) (review_count_range : option (Z * Z))
    (rating_range : option (Q * Q)) (distance_range : option (Z * Z))
    (platform : option string) (log log' : list query) (res : list doc) :
  drink_tags <> [] ->
  find_drink_stores_with_menu longitude latitude drink_tags brands review_count_range
    rating_range distance_range platform log = (Ok res, log') ->
  StronglySorted (fun a b => menu_size b <= menu_size a) res
  /\ Forall (fun d => d !! "hit_count" = None) res
  /\ exists menu_items,
       Forall (fun d => exists key, d !! "store_id" = Some key
                 /\ d !! "menu" = Some (VList (map VDict (matching key menu_items)))) res
       /\ (res <> [] -> exists conds,
             store_answer "menu_item" (join_menu_pipeline drink_tags conds)
             = Ok menu_items).
Proof.
  intros Htags Hrun.
  assert (res = []
          \/ exists stores conds menu_items,
               store_answer "menu_item" (join_menu_pipeline drink_tags conds)
               = Ok menu_items
               /\ join_menu stores drink_tags menu_items = Ok res) as [->|Hjoin].
  { unfold find_drink_stores_with_menu in Hrun.
    destruct drink_tags as [|tag tags]; [congruence|].
    unfold _find_stores_with_drink_tags in Hrun.
    apply bind_ok in Hrun as (matching_stores & log1 & _ & Hrun).
    destruct matching_stores as [|m ms].
    { apply ret_ok in Hrun as [-> _]. left; reflexivity. }
    apply bind_ok in Hrun as (conds & log2 & _ & Hrun).
    apply bind_ok in Hrun as (stores & log3 & _ & Hrun).
    destruct stores as [|st sts].
    { apply ret_ok in Hrun as [-> _]. left; reflexivity. }
    apply join_menu_data_ok in Hrun as [->|(conds' & menu_items & Hm & Hj)];
      [left; reflexivity|].
    right. eauto 6. }
  - split; [constructor|]. split; [constructor|].
    exists []. split; [constructor|]. congruence.
  - destruct Hjoin as (stores & conds & menu_items & Hm & Hj).
    destruct (join_menu_ranked stores drink_tags menu_items res Htags Hj)
      as (Hsorted & Hnohit & Hmenu).
    split; [exact Hsorted|]. split; [exact Hnohit|].
    exists menu_items. split; [exact Hmenu|]. intros _. eauto.
Qed.

End Driver.

(** ** Joining the drinks with their stores *)

Lemma index_key_hashable (d : doc) (key : value * value) :
  index_key d = Ok key -> pair_eq key key = true.
Proof.
  unfold index_key, getitem, check_hashable.
  destruct (d !! "store_id") as [sid|]; [|discriminate].
  destruct (hashable sid) eqn:Hs; [|discriminate].
  destruct (hashable (dict_get "platforms" d)) eqn:Hp; [|discriminate].
  intros H. inversion H; subst. unfold pair_eq. simpl.
  rewrite !py_eq_refl by assumption. reflexivity.
Qed.

(** An entry of the store index: a phase-1 store under a key equal to its
    own. *)
Definition index_entry (stores : list doc) (kv : (value * value) * doc) : Prop :=
  kv.2 ∈ stores /\ exists k, index_key kv.2 = Ok k /\ pair_eq kv.1 k = true.

Lemma alist_set_entries {K V : Type} (eqb : K -> K -> bool) (P : K * V -> Prop)
    (k : K) (v : V) (l : list (K * V)) :
  Forall P l -> P (k, v) -> (forall k', eqb k' k = true -> P (k', v)) ->
  Forall P (alist_set eqb k v l).
Proof.
  intros Hl Hnew Hsame. induction Hl as [|kv l Hkv Hl IH]; simpl.
  - constructor; [exact Hnew|constructor].
  - destruct (eqb kv.1 k) eqn:He.
    + constructor; [apply Hsame, He|exact Hl].
    + constructor; [exact Hkv|exact IH].
Qed.

Lemma alist_get_entry {K V : Type} (eqb : K -> K -> bool) (k : K) (v : V)
    (l : list (K * V)) :
  alist_get eqb k l = Some v -> exists k', (k', v) ∈ l /\ eqb k' k = true.
Proof.
  induction l as [|[k0 v0] l IH]; simpl; [discriminate|].
  destruct (eqb k0 k) eqn:He.
  - intros H. inversion H; subst. exists k0. split; [left|exact He].
  - intros H. destruct (IH H) as (k' & Hin & Hk'). exists k'. split; [right|]; assumption.
Qed.

Lemma index_stores_entries (stores seen : list doc)
    (idx idx' : list ((value * value) * doc)) :
  Forall (index_entry (seen ++ stores)) idx ->
  fold_result index_store idx stores = Ok idx' ->
  Forall (index_entry (seen ++ stores)) idx'.
Proof.
  revert seen idx. induction stores as [|store stores IH]; intros seen idx Hidx Hfold;
    simpl in Hfold.
  - inversion Hfold; subst. exact Hidx.
  - unfold index_store at 1 in Hfold.
    destruct (index_key store) as [key|e] eqn:Hkey; [|discriminate].
    replace (seen ++ store :: stores) with ((seen ++ [store]) ++ stores) in *
      by (rewrite <- app_assoc; reflexivity).
    eapply IH; [|exact Hfold].
    assert (store ∈ (seen ++ [store]) ++ stores) as Hin.
    { apply elem_of_app. left. apply elem_of_app. right. left. }
    apply alist_set_entries; [exact Hidx| |].
    + split; [exact Hin|]. exists key. split; [exact Hkey|].
      eapply index_key_hashable; exact Hkey.
    + intros k' Hk'. split; [exact Hin|]. exists key. split; [exact Hkey|exact Hk'].
Qed.

(** Looking a key up in the store index gives a phase-1 store whose own key
    is equal to it. *)
Lemma store_index_lookup (stores : list doc) (idx : list ((value * value) * doc))
    (key : value * value) (store_data : doc) :
  fold_result index_store [] stores = Ok idx ->
  alist_get pair_eq key idx = Some store_data ->
  store_data ∈ stores
  /\ exists k, index_key store_data = Ok k /\ pair_eq k key = true.
Proof.
  intros Hfold Hget.
  pose proof (index_stores_entries stores [] [] idx (List.Forall_nil _) Hfold) as Hent.
  apply alist_get_entry in Hget as (k' & Hin & Hk').
  destruct (proj1 (Forall_forall _ _) Hent _ Hin) as (Hs & k & Hk & Hkk).
  simpl in *. split; [exact Hs|]. exists k. split; [exact Hk|].
  rewrite pair_eq_sym in Hkk. eapply pair_eq_trans; eassumption.
Qed.

(** A drink of the result: a fetched menu item with the fields of the store
    found under its key. *)
Definition joined (idx : list ((value * value) * doc)) (items : list doc) (d : doc)
  : Prop :=
  exists item key store_data,
    item ∈ items /\ index_key item = Ok key
    /\ alist_get pair_eq key idx = Some store_data
    /\ attach_store store_data item = Ok d.

Lemma join_items_joined (idx : list ((value * value) * doc)) (items seen : list doc)
    (acc res : list doc) :
  Forall (joined idx (seen ++ items)) acc ->
  fold_result (join_item idx) acc items = Ok res ->
  Forall (joined idx (seen ++ items)) res.
Proof.
  revert seen acc. induction items as [|item items IH]; intros seen acc Hacc Hfold;
    simpl in Hfold.
  - inversion Hfold; subst. exact Hacc.
  - replace (seen ++ item :: items) with ((seen ++ [item]) ++ items) in *
      by (rewrite <- app_assoc; reflexivity).
    unfold join_item at 1 in Hfold.
    destruct (index_key item) as [key|e] eqn:Hkey; [|discriminate].
    destruct (alist_get pair_eq key idx) as [store_data|] eqn:Hget;
      [|eapply IH; eassumption].
    destruct (bool_decide (size store_data = 0)); [eapply IH; eassumption|].
    destruct (attach_store store_data item) as [d|e] eqn:Hatt; [|discriminate].
    eapply IH; [|exact Hfold].
    apply Forall_app. split; [exact Hacc|]. constructor; [|constructor].
    exists item, key, store_data. split; [|auto].
    apply elem_of_app. left. apply elem_of_app. right. left.
Qed.

Lemma map_result_length {A B : Type} (f : A -> result B) (l : list A) (l' : list B) :
  map_result f l = Ok l' -> length l' = length l.
Proof.
  intros H. apply map_result_Forall2 in H. symmetry. eapply Forall2_length. exact H.
Qed.

Lemma sort_by_text_score_perm (drinks res : list doc) :
  sort_by_text_score drinks = Ok res -> res ≡ₚ drinks.
Proof.
  unfold sort_by_text_score.
  destruct (map_result text_score_key drinks) as [keys|e] eqn:Hkeys; [|discriminate].
  unfold list_sort_reverse.
  destruct (pairwise_comparable (map fst (zip keys drinks))); [|discriminate].
  intros H. inversion H; subst. apply map_result_length in Hkeys.
  change (map snd (sort_by ?f (zip keys drinks)))
    with ((sort_by f (zip keys drinks)).*2).
  rewrite sort_by_perm. rewrite snd_zip by lia. reflexivity.
Qed.

(** The drinks [join_drinks] returns. *)
Lemma join_drinks_joined (stores : list doc) (drink_tags : list string)
    (menu_items res : list doc) :
  join_drinks stores drink_tags menu_items = Ok res ->
  exists idx, fold_result index_store [] stores = Ok idx
              /\ Forall (joined idx menu_items) res.
Proof.
  unfold join_drinks.
  destruct (fold_result index_store [] stores) as [idx|e] eqn:Hidx; [|discriminate].
  destruct (fold_result (join_item idx) [] menu_items) as [drinks|e] eqn:Hj;
    [|discriminate].
  pose proof (join_items_joined idx menu_items [] [] drinks (List.Forall_nil _) Hj) as Hd.
  intros H. exists idx. split; [reflexivity|].
  destruct drink_tags.
  - inversion H; subst. exact Hd.
  - apply sort_by_text_score_perm in H. rewrite H. exact Hd.
Qed.

(** [attach_store] only writes the five fields it sets. *)
Lemma attach_store_other (store_data item d : doc) (k : string) :
  attach_store store_data item = Ok d ->
  k <> "store_id" -> k <> "platform" -> k <> "store_name" -> k <> "store_url" ->
  k <> "brand_name" ->
  d !! k = item !! k.
Proof.
  unfold attach_store, getitem, pop_default.
  destruct (store_data !! "store_id") as [sid|]; [|discriminate].
  intros H; inversion H; subst; clear H. intros.
  rewrite !lookup_insert_ne by congruence.
  rewrite lookup_delete_ne by congruence.
  rewrite lookup_insert_ne by congruence.
  apply lookup_delete_ne. congruence.
Qed.

(** The store fields of a drink are those of the store it was joined with. *)
Lemma attach_store_fields (store_data item d : doc) :
  attach_store store_data item = Ok d ->
  d !! "store_name" = Some (dict_get "name" store_data)
  /\ d !! "store_url" = Some (dict_get "source_url" store_data)
  /\ d !! "brand_name" = Some (dict_get "brand" store_data).
Proof.
  unfold attach_store, getitem, pop_default.
  destruct (store_data !! "store_id") as [sid|]; [|discriminate].
  intros H; inversion H; subst; clear H.
  repeat split.
  - rewrite !lookup_insert_ne by discriminate. apply lookup_insert_eq.
  - rewrite lookup_insert_ne by discriminate. apply lookup_insert_eq.
  - apply lookup_insert_eq.
Qed.

(** What the join of [_find_drinks_from_stores] does: every returned drink
    is a fetched menu item, joined with a phase-1 store whose key
    [(store_id, platforms)] equals its own, and carries the name, the URL and
    the brand of that store. *)
Lemma join_drinks_on_key (stores : list doc) (drink_tags : list string)
    (menu_items res : list doc) :
  join_drinks stores drink_tags menu_items = Ok res ->
  Forall (fun d => exists item store key key',
            item ∈ menu_items /\ store ∈ stores
            /\ index_key item = Ok key /\ index_key store = Ok key'
            /\ pair_eq key' key = true
            /\ d !! "store_name" = Some (dict_get "name" store)
            /\ d !! "store_url" = Some (dict_get "source_url" store)
            /\ d !! "brand_name" = Some (dict_get "brand" store)) res.
Proof.
  intros H. apply join_drinks_joined in H as (idx & Hidx & Hres).
  eapply Forall_impl; [exact Hres|].
  intros d (item & key & store_data & Hin & Hkey & Hget & Hatt).
  destruct (store_index_lookup stores idx key store_data Hidx Hget) as (Hs & key' & Hk' & Heq).
  destruct (attach_store_fields store_data item d Hatt) as (Hn & Hu & Hb).
  exists item, store_data, key, key'. auto 10.
Qed.

(** ** Properties of the store *)

Section StoreFacts.

Variable text_score : string -> doc -> option Q.
Variable geo_distance : Q -> Q -> doc -> option Q.
Variable regex_match : string -> string -> string -> bool.

Abbreviation eval_stage := (eval_stage text_score geo_distance regex_match).
Abbreviation eval_stages := (eval_stages text_score geo_distance regex_match).
Abbreviation run_pipeline := (run_pipeline text_score geo_distance regex_match).
Abbreviation satisfies := (satisfies text_score regex_match).

Definition is_include (p : projection) : bool :=
  match p with
  | PInclude => true
  | _ => false
  end.

(** The projection copies field [k] as it is. *)
Definition included (k : string) (spec : list (string * projection)) : bool :=
  existsb (fun kp : string * projection => bool_decide (kp.1 = k) && is_include kp.2) spec.

Definition only_included (k : string) (spec : list (string * projection)) : bool :=
  forallb (fun kp : string * projection => negb (bool_decide (kp.1 = k)) || is_include kp.2)
    spec.

(** The stages that leave the top-level field [k] of a document as it is. *)
Definition keeps (k : string) (st : stage) : bool :=
  match st with
  | GeoNear _ _ distanceField _ => negb (bool_decide (distanceField = k))
  | Match _ => true
  | Group _ => false
  | Project spec =>
      negb (bool_decide (k = "_id")) && included k spec && only_included k spec
  | AddTextScore field => negb (bool_decide (field = k))
  | SortTextScore _ => true
  | Limit _ => true
  end.

Lemma project_field_other (d out : doc) (kp : string * projection) (k : string) :
  kp.1 <> k -> project_field d out kp !! k = out !! k.
Proof.
  intros Hne. unfold project_field.
  destruct kp.2 as [| |path|path divisor places].
  - reflexivity.
  - destruct (d !! kp.1); [apply lookup_insert_ne, Hne|reflexivity].
  - destruct (get_path path d); [apply lookup_insert_ne, Hne|reflexivity].
  - destruct (get_path path d) as [[]|]; apply lookup_insert_ne, Hne.
Qed.

Lemma project_fold_keeps (k : string) (d : doc) (spec : list (string * projection))
    (out : doc) :
  only_included k spec = true ->
  out !! k = None \/ out !! k = d !! k ->
  foldl (project_field d) out spec !! k
  = if included k spec then d !! k else out !! k.
Proof.
  revert out. induction spec as [|kp spec IH]; intros out Honly Hout; [reflexivity|].
  simpl in Honly. apply andb_true_iff in Honly as [Hkp Honly].
  cbn [foldl included existsb]. fold (included k spec).
  destruct (decide (kp.1 = k)) as [Heq|Hne].
  - rewrite (bool_decide_eq_true_2 _ Heq) in *. simpl in Hkp.
    rewrite Hkp. cbn [andb orb].
    assert (project_field d out kp !! k = d !! k) as Hnew.
    { unfold project_field. destruct kp.2; try discriminate. rewrite Heq.
      destruct (d !! k) as [v|] eqn:Hd; [apply lookup_insert_eq|].
      destruct Hout; assumption. }
    rewrite IH; [|exact Honly|right; exact Hnew].
    rewrite Hnew. destruct (included k spec); reflexivity.
  - rewrite (bool_decide_eq_false_2 _ Hne). cbn [andb orb].
    rewrite IH; [|exact Honly|rewrite project_field_other by exact Hne; exact Hout].
    rewrite project_field_other by exact Hne. reflexivity.
Qed.

Lemma project_keeps (k : string) (spec : list (string * projection)) (d : doc) :
  keeps k (Project spec) = true -> project spec d !! k = d !! k.
Proof.
  cbn [keeps]. intros H. apply andb_true_iff in H as [H Honly].
  apply andb_true_iff in H as [Hid Hinc].
  apply negb_true_iff, bool_decide_eq_false in Hid.
  unfold project. rewrite project_fold_keeps, Hinc; [reflexivity|exact Honly|].
  left. destruct (d !! "_id"), (excludes "_id" spec);
    rewrite ?lookup_empty; try reflexivity.
  apply lookup_singleton_ne. congruence.
Qed.

(** A stage that keeps [k]: every document it outputs has the field [k] of
    some document it was given. *)
Lemma eval_stage_keeps (k : string) (first : bool) (st : stage) (rows rows' : list row) :
  keeps k st = true ->
  eval_stage first st rows = Ok rows' ->
  forall r', r' ∈ rows' -> exists r, r ∈ rows /\ r'.1 !! k = r.1 !! k.
Proof.
  intros Hk Hev r' Hr'. destruct st as [lon lat field maxd|f|id|spec|field|field|n];
    cbn [keeps] in Hk; cbn [Engine.eval_stage] in Hev.
  - destruct first; [|discriminate]. inversion Hev; subst; clear Hev.
    apply list_elem_of_fmap in Hr' as ([dist r0] & -> & Hin).
    rewrite sort_by_perm in Hin.
    apply list_elem_of_omap in Hin as (r & Hr & Hf).
    exists r. split; [exact Hr|].
    destruct (geo_distance lon lat r.1) as [dist'|]; [|discriminate].
    destruct (Qle_bool dist' maxd); [|discriminate].
    inversion Hf; subst. simpl.
    apply lookup_insert_ne. apply negb_true_iff, bool_decide_eq_false in Hk. exact Hk.
  - assert ((exists search, f = FText search) \/
            (if plain_condition f
             then Ok (filter (fun r : row => satisfies f r.1 = true) rows)
             else Raise (ExternalError 13)) = Ok rows') as [[search ->]|Hplain].
    { destruct f; eauto. }
    + destruct first; [|discriminate]. inversion Hev; subst; clear Hev.
      apply list_elem_of_omap in Hr' as (r & Hr & Hf).
      exists r. split; [exact Hr|].
      destruct (text_score search r.1); [|discriminate]. inversion Hf; reflexivity.
    + destruct (plain_condition f); [|discriminate]. inversion Hplain; subst.
      apply list_elem_of_filter in Hr' as [_ Hr']. eauto.
  - discriminate.
  - inversion Hev; subst; clear Hev.
    apply list_elem_of_fmap in Hr' as (r & -> & Hr).
    exists r. split; [exact Hr|]. simpl. apply project_keeps. exact Hk.
  - destruct (scores rows); [|discriminate]. inversion Hev; subst; clear Hev.
    apply list_elem_of_fmap in Hr' as (r & -> & Hr).
    exists r. split; [exact Hr|].
    destruct r.2; [|reflexivity]. simpl.
    apply lookup_insert_ne. apply negb_true_iff, bool_decide_eq_false in Hk. exact Hk.
  - destruct (scores rows); [|discriminate]. inversion Hev; subst; clear Hev.
    rewrite sort_by_perm in Hr'. eauto.
  - destruct (0 <? n)%Z; [|discriminate]. inversion Hev; subst; clear Hev.
    apply subseteq_take in Hr'. eauto.
Qed.

Lemma eval_stages_keeps (k : string) (p : list stage) (first : bool)
    (rows rows' : list row) :
  forallb (keeps k) p = true ->
  eval_stages first p rows = Ok rows' ->
  forall r', r' ∈ rows' -> exists r, r ∈ rows /\ r'.1 !! k = r.1 !! k.
Proof.
  revert first rows. induction p as [|st p IH]; intros first rows Hk Hev r' Hr'.
  - inversion Hev; subst. eauto.
  - cbn [forallb] in Hk. apply andb_true_iff in Hk as [Hst Hp].
    cbn [Engine.eval_stages] in Hev.
    destruct (eval_stage first st rows) as [mid|e] eqn:Hmid; [|discriminate].
    destruct (IH false mid Hp Hev r' Hr') as (r1 & Hr1 & E1).
    destruct (eval_stage_keeps k first st rows mid Hst Hmid r1 Hr1) as (r & Hr & E).
    exists r. split; [exact Hr|congruence].
Qed.

(** Running a pipeline up to one of its stages, that stage, and the rest. *)
Lemma eval_stages_app (pre post : list stage) (st : stage) (first : bool)
    (rows rows' : list row) :
  eval_stages first (pre ++ st :: post) rows = Ok rows' ->
  exists first' mid mid',
    eval_stage first' st mid = Ok mid' /\ eval_stages false post mid' = Ok rows'.
Proof.
  revert first rows. induction pre as [|s pre IH]; intros first rows Hev.
  - cbn [app Engine.eval_stages] in Hev.
    destruct (eval_stage first st rows) as [mid'|e] eqn:Hst; [|discriminate].
    eauto.
  - cbn [app Engine.eval_stages] in Hev.
    destruct (eval_stage first s rows) as [mid|e]; [|discriminate].
    eapply IH. exact Hev.
Qed.

(** A [$match] on a condition other than a text search outputs documents
    that satisfy it. *)
Lemma eval_match_sound (f : condition) (first : bool) (rows rows' : list row) :
  (forall search, f <> FText search) ->
  eval_stage first (Match f) rows = Ok rows' ->
  forall r, r ∈ rows' -> satisfies f r.1 = true.
Proof.
  intros Hf Hev r Hr. cbn [Engine.eval_stage] in Hev.
  assert ((if plain_condition f
           then Ok (filter (fun r : row => satisfies f r.1 = true) rows)
           else Raise (ExternalError 13)) = Ok rows') as Hplain.
  { destruct f; try exact Hev. destruct (Hf search eq_refl). }
  destruct (plain_condition f); [|discriminate]. inversion Hplain; subst.
  apply list_elem_of_filter in Hr as [Hr _]. exact Hr.
Qed.

Lemma run_pipeline_rows (collection : list doc) (p : list stage) (docs : list doc) :
  run_pipeline collection p = Ok docs ->
  exists rows, eval_stages true p (map (fun d => (d, None)) collection) = Ok rows
               /\ docs = map fst rows.
Proof.
  unfold Engine.run_pipeline.
  destruct (eval_stages true p _) as [rows|e]; [|discriminate].
  intros H. inversion H. eauto.
Qed.

(** *** The driver in front of a store with given collections *)

Variable db : string -> list doc.

(** The store's answer to a request. *)
Definition served (collection_name : string) (pipeline : list stage)
  : result (list doc) :=
  run_pipeline (db collection_name) pipeline.

(** A price that passes the minimum-price filter. *)
Definition price_ok (d : doc) : Prop :=
  exists p, d !! "price" = Some (VNum p) /\ (20 <= p)%Q.

Lemma satisfies_price (d : doc) :
  satisfies (FGte "price" 20) d = true -> price_ok d.
Proof.
  cbn [Engine.satisfies].
  change (get_path "price" d) with (d !! "price").
  destruct (d !! "price") as [[| |p| | |]|] eqn:Hp; try discriminate.
  intros H. exists p. split; [exact Hp|]. apply Qle_bool_iff. exact H.
Qed.

Lemma drinks_pipeline_shape (drink_tags : list string) (limit : option Z)
    (conds : list condition) :
  exists pre post,
    drinks_pipeline drink_tags limit conds = pre ++ Match (FGte "price" 20) :: post
    /\ forallb (keeps "price") post = true.
Proof.
  unfold drinks_pipeline.
  destruct drink_tags as [|tag tags].
  - exists [], (Match (FOr conds) :: Project (drink_projection []) ::
                match truthy_int limit with Some n => [Limit n] | None => [] end).
    split; [reflexivity|]. destruct (truthy_int limit); reflexivity.
  - exists [Match (_build_drink_tags_filter (tag :: tags))],
      (Match (FOr conds) :: AddTextScore "text_score" ::
       Project (drink_projection (tag :: tags)) :: SortTextScore "text_score" ::
       match truthy_int limit with Some n => [Limit n] | None => [] end).
    split; [reflexivity|]. destruct (truthy_int limit); reflexivity.
Qed.

(** Every menu item the drinks pipeline outputs has passed the price
    filter. *)
Lemma drinks_pipeline_price (collection : list doc) (drink_tags : list string)
    (limit : option Z) (conds : list condition) (items : list doc) :
  run_pipeline collection (drinks_pipeline drink_tags limit conds) = Ok items ->
  Forall price_ok items.
Proof.
  intros Hrun. apply run_pipeline_rows in Hrun as (rows & Hev & ->).
  destruct (drinks_pipeline_shape drink_tags limit conds) as (pre & post & Hshape & Hpost).
  rewrite Hshape in Hev.
  apply eval_stages_app in Hev as (first' & mid & mid' & Hmatch & Hrest).
  apply Forall_fmap. apply Forall_forall. intros r' Hr'. simpl.
  destruct (eval_stages_keeps "price" post false mid' rows Hpost Hrest r' Hr')
    as (r & Hr & E).
  assert (price_ok r.1) as (p & Hp & Hle).
  { apply satisfies_price.
    eapply eval_match_sound; [|exact Hmatch|exact Hr]. discriminate. }
  exists p. split; [congruence|exact Hle].
Qed.

(** C9.  The pipeline [find_drinks] runs on [menu_item] has the stage
    [{"$match": {"price": {"$gte": 20}}}] whether or not tags are given, and
    every drink [find_drinks] returns has a price of at least 20. *)
Theorem find_drinks_price_floor (longitude latitude : Q)
    (drink_tags brands : list string) (review_count_range : option (Z * Z))
    (rating_range : option (Q * Q)) (distance_range : option (Z * Z))
    (platform : option string) (limit : option Z) (log log' : list query)
    (res : list doc) :
  find_drinks served longitude latitude drink_tags brands review_count_range
    rating_range distance_range platform limit log = (Ok res, log') ->
  (forall conds, Match (FGte "price" 20) ∈ drinks_pipeline drink_tags limit conds)
  /\ Forall price_ok res.
Proof.
  intros Hrun. split.
  - intros conds.
    destruct (drinks_pipeline_shape drink_tags limit conds) as (pre & post & -> & _).
    apply elem_of_app. right. left.
  - unfold find_drinks in Hrun.
    apply bind_ok in Hrun as (stores & log1 & _ & Hrun).
    destruct stores as [|store stores].
    { apply ret_ok in Hrun as [-> _]. constructor. }
    unfold _find_drinks_from_stores in Hrun.
    apply bind_ok in Hrun as (conds & log2 & _ & Hrun).
    apply bind_ok in Hrun as (menu_items & log3 & Hitems & Hrun).
    apply aggregate_ok in Hitems as [Hitems _]. apply lift_ok in Hrun as [Hjoin _].
    apply drinks_pipeline_price in Hitems.
    apply join_drinks_joined in Hjoin as (idx & _ & Hjoined).
    eapply Forall_impl; [exact Hjoined|].
    intros d (item & key & store_data & Hin & _ & _ & Hatt).
    destruct (proj1 (Forall_forall _ _) Hitems item Hin) as (p & Hp & Hle).
    exists p. split; [|exact Hle].
    rewrite (attach_store_other store_data item d "price" Hatt); [exact Hp|..];
      discriminate.
Qed.





End StoreFacts.

(** ** Further properties of the query methods *)

(** *** The sort is stable *)

Lemma insert_sorted_stable {A : Type} (before : A -> A -> bool) (P : A -> Prop)
    `{!forall x, Decision (P x)} (x : A) (l : list A) :
  (forall a, a ∈ l -> P a -> P x -> before a x = false) ->
  filter P (insert_sorted before x l) = filter P (x :: l).
Proof.
  induction l as [|y l IH]; intros Hun; cbn [insert_sorted]; [reflexivity|].
  destruct (before y x) eqn:Hb; [|reflexivity].
  rewrite (filter_cons P y), IH by (intros a Ha; apply Hun; right; exact Ha).
  rewrite (filter_cons P x (y :: l)), (filter_cons P y l), (filter_cons P x l).
  destruct (decide (P y)) as [Hy|Hy]; destruct (decide (P x)) as [Hx|Hx];
    try reflexivity.
  rewrite (Hun y) in Hb; [discriminate|left|exact Hy|exact Hx].
Qed.

(** Elements that the order does not tell apart keep their relative
    positions. *)
Lemma sort_by_stable {A : Type} (before : A -> A -> bool) (P : A -> Prop)
    `{!forall x, Decision (P x)} (l : list A) :
  (forall a b, a ∈ l -> b ∈ l -> P a -> P b -> before a b = false) ->
  filter P (sort_by before l) = filter P l.
Proof.
  induction l as [|x l IH]; intros Hun; [reflexivity|].
  unfold sort_by. cbn [foldr]. fold (sort_by before l).
  rewrite insert_sorted_stable.
  - rewrite !filter_cons, IH; [reflexivity|].
    intros a b Ha Hb. apply Hun; right; assumption.
  - intros a Ha. rewrite sort_by_perm in Ha. apply Hun; [right; exact Ha|left].
Qed.

Lemma filter_fmap {A B : Type} (f : A -> B) (P : B -> Prop) `{!forall x, Decision (P x)}
    (l : list A) :
  filter P (f <$> l) = f <$> filter (fun x => P (f x)) l.
Proof.
  induction l as [|x l IH]; [reflexivity|].
  rewrite fmap_cons, !filter_cons, IH.
  destruct (decide (P (f x))); reflexivity.
Qed.

(** *** Stores with their menu: which stores, in which order *)

(** The [menu] attached to a store: the fetched items that carry its
    [store_id]. *)
Definition menu_of (menu_items : list doc) (store : doc) : value :=
  VList (map VDict (matching (dict_get "store_id" store) menu_items)).

(** A store as returned without tags, and as returned with tags. *)
Definition listed (menu_items : list doc) (store : doc) : doc :=
  <["menu" := menu_of menu_items store]> store.

Definition ranked (menu_items : list doc) (store : doc) : doc :=
  <["menu" := menu_of menu_items store]> (delete "hit_count" store).

Lemma attached_stores (drink_tags : list string)
    (acc : list (value * list doc) * list (value * nat)) (items stores res : list doc) :
  indexed acc items ->
  map_result (attach_menu drink_tags acc.1 acc.2) stores = Ok res ->
  res = map (fun store => with_menu drink_tags items store (dict_get "store_id" store))
          stores.
Proof.
  intros Hidx H. apply map_result_Forall2 in H.
  induction H as [|store d stores res Hd _ IH]; [reflexivity|].
  cbn [map]. f_equal; [|exact IH].
  destruct (attach_menu_spec drink_tags acc items store d Hidx Hd) as (key & Hk & ->).
  unfold dict_get. rewrite Hk. reflexivity.
Qed.

Lemma with_menu_plain (items : list doc) (store : doc) :
  with_menu [] items store (dict_get "store_id" store) = listed items store.
Proof. reflexivity. Qed.

Lemma with_menu_ranked (tag : string) (tags : list string) (items : list doc)
    (store : doc) :
  delete "hit_count" (with_menu (tag :: tags) items store (dict_get "store_id" store))
  = ranked items store.
Proof.
  unfold with_menu, ranked, menu_of.
  rewrite delete_insert_eq. apply delete_insert_ne. discriminate.
Qed.

Lemma with_menu_hit_count (tag : string) (tags : list string) (items : list doc)
    (store : doc) :
  hit_count (with_menu (tag :: tags) items store (dict_get "store_id" store))
  = inject_Z (Z.of_nat (menu_size (ranked items store))).
Proof.
  unfold hit_count, with_menu, menu_size, ranked, menu_of, of_nat.
  rewrite !lookup_insert_eq, length_map. reflexivity.
Qed.

(** Without tags the stores come back as they were given, each with its
    menu. *)
Lemma join_menu_listed (stores menu_items res : list doc) :
  join_menu stores [] menu_items = Ok res -> res = map (listed menu_items) stores.
Proof.
  unfold join_menu.
  destruct (fold_result index_item ([], []) menu_items) as [[mi hc]|e] eqn:Hidx;
    [|discriminate].
  apply indexed_all in Hidx.
  destruct (map_result (attach_menu [] mi hc) stores) as [res0|e] eqn:Hatt;
    [|discriminate].
  intros H; inversion H; subst.
  apply (attached_stores [] (mi, hc) menu_items stores res Hidx Hatt).
Qed.

(** With tags every store comes back once, and stores with equally many
    matching items keep the order in which they were given. *)
Lemma join_menu_stable (stores : list doc) (drink_tags : list string)
    (menu_items res : list doc) :
  drink_tags <> [] ->
  join_menu stores drink_tags menu_items = Ok res ->
  res ≡ₚ map (ranked menu_items) stores
  /\ forall n, filter (fun d => menu_size d = n) res
               = filter (fun d => menu_size d = n) (map (ranked menu_items) stores).
Proof.
  intros Htags. unfold join_menu.
  destruct (fold_result index_item ([], []) menu_items) as [[mi hc]|e] eqn:Hidx;
    [|discriminate].
  apply indexed_all in Hidx.
  destruct (map_result (attach_menu drink_tags mi hc) stores) as [res0|e] eqn:Hatt;
    [|discriminate].
  destruct drink_tags as [|tag tags]; [congruence|]. intros H; inversion H; subst; clear H.
  rewrite (attached_stores (tag :: tags) (mi, hc) menu_items stores res0 Hidx Hatt).
  set (W := fun store => with_menu (tag :: tags) menu_items store
                           (dict_get "store_id" store)).
  assert (map (delete "hit_count") (map W stores) = map (ranked menu_items) stores) as Hmap.
  { rewrite map_map. apply map_ext. intros store. apply with_menu_ranked. }
  split.
  - rewrite <- Hmap. apply fmap_Permutation. apply sort_desc_perm.
  - intros n. rewrite <- Hmap.
    change (map (delete "hit_count") (sort_desc hit_count (map W stores)))
      with (delete "hit_count" <$> sort_desc hit_count (map W stores)).
    change (map (delete "hit_count") (map W stores))
      with (delete "hit_count" <$> map W stores).
    rewrite !(filter_fmap (delete "hit_count")). f_equal.
    unfold sort_desc. apply sort_by_stable.
    intros a b Ha Hb Hna Hnb.
    apply list_elem_of_fmap in Ha as (sa & -> & _).
    apply list_elem_of_fmap in Hb as (sb & -> & _).
    unfold W in *. rewrite !with_menu_hit_count.
    rewrite !with_menu_ranked in Hna, Hnb. rewrite Hna, Hnb.
    apply negb_false_iff. apply Qle_bool_iff. apply Qle_refl.
Qed.

Section Answers.

Variable store_answer : string -> list stage -> result (list doc).

(** X11.  Without tags, [find_drink_stores_with_menu] asks the store for
    the stores and, when there are some, for the menu items that carry one
    of their [store_id]s, and for nothing else.  It returns the stores that
    the first request answered, all of them and in the same order (that of
    the distance), each with a [menu] field holding those of the items the
    second request answered that carry its [store_id], which may be none. *)
Theorem stores_listed_in_query_order (longitude latitude : Q) (brands : list string)
    (review_count_range : option (Z * Z)) (rating_range : option (Q * Q))
    (distance_range : option (Z * Z)) (platform : option string)
    (log log' : list query) (res : list doc) :
  find_drink_stores_with_menu store_answer longitude latitude [] brands
    review_count_range rating_range distance_range platform log = (Ok res, log') ->
  exists stores,
    store_answer "store"
      (plain_store_pipeline longitude latitude brands review_count_range rating_range
         distance_range platform) = Ok stores
    /\ (stores = [] /\ res = []
        /\ log' = log ++ [{| collection_name := "store";
                             pipeline := plain_store_pipeline longitude latitude brands
                                           review_count_range rating_range
                                           distance_range platform |}]
        \/ exists conds menu_items,
             store_conditions stores = Ok conds
             /\ store_answer "menu_item" (join_menu_pipeline [] conds) = Ok menu_items
             /\ log' = log ++ [{| collection_name := "store";
                                  pipeline := plain_store_pipeline longitude latitude
                                                brands review_count_range rating_range
                                                distance_range platform |};
                               {| collection_name := "menu_item";
                                  pipeline := join_menu_pipeline [] conds |}]
             /\ res = map (listed menu_items) stores)
    /\ Forall (fun d => exists l, d !! "menu" = Some (VList l)) res.
Proof.
  intros Hrun. unfold find_drink_stores_with_menu, _find_stores_without_drink_filter in Hrun.
  apply bind_ok in Hrun as (stores & log1 & Hs & Hrun).
  apply aggregate_ok in Hs as [Hs ->].
  exists stores. split; [exact Hs|].
  destruct stores as [|store stores].
  - apply ret_ok in Hrun as [-> ->]. split; [left; auto|constructor].
  - unfold _join_menu_data in Hrun.
    apply bind_ok in Hrun as (conds & log2 & Hc & Hrun).
    apply lift_ok in Hc as [Hc ->].
    apply bind_ok in Hrun as (menu_items & log3 & Hm & Hrun).
    apply aggregate_ok in Hm as [Hm ->].
    apply lift_ok in Hrun as [Hj ->].
    apply join_menu_listed in Hj. subst res. split.
    + right. exists conds, menu_items. split; [exact Hc|]. split; [exact Hm|].
      split; [rewrite <- app_assoc; reflexivity|reflexivity].
    + apply Forall_fmap. apply Forall_forall. intros st _. cbn.
      eexists. unfold listed, menu_of. apply lookup_insert_eq.
Qed.

(** X12.  With tags, every store that the phase-2 store query answered is
    returned exactly once, also when no fetched item carries its
    [store_id], with its menu attached and without [hit_count]; and the
    stores that have equally many matching items come in the order of the
    store query.  (When a phase finds nothing the result is empty.) *)
Theorem stores_ranking_stable (longitude latitude : Q)
    (drink_tags brands : list string) (review_count_range : option (Z * Z))
    (rating_range : option (Q * Q)) (distance_range : option (Z * Z))
    (platform : option string) (log log' : list query) (res : list doc) :
  drink_tags <> [] ->
  find_drink_stores_with_menu store_answer longitude latitude drink_tags brands
    review_count_range rating_range distance_range platform log = (Ok res, log') ->
  exists stores menu_items,
    (stores = []
     \/ exists conds,
          store_answer "store"
            (tagged_store_pipeline longitude latitude brands review_count_range
               rating_range distance_range platform conds) = Ok stores)
    /\ res ≡ₚ map (ranked menu_items) stores
    /\ forall n, filter (fun d => menu_size d = n) res
                 = filter (fun d => menu_size d = n) (map (ranked menu_items) stores).
Proof.
  intros Htags Hrun.
  assert (forall menu_items : list doc,
            [] ≡ₚ map (ranked menu_items) []
            /\ forall n, filter (fun d => menu_size d = n) []
                         = filter (fun d => menu_size d = n) (map (ranked menu_items) []))
    as Hnil by (intros; split; reflexivity).
  unfold find_drink_stores_with_menu in Hrun.
  destruct drink_tags as [|tag tags]; [congruence|].
  unfold _find_stores_with_drink_tags in Hrun.
  apply bind_ok in Hrun as (matching_stores & log1 & _ & Hrun).
  destruct matching_stores as [|m ms].
  { apply ret_ok in Hrun as [-> _]. exists [], []. split; [left; reflexivity|apply Hnil]. }
  apply bind_ok in Hrun as (conds & log2 & _ & Hrun).
  apply bind_ok in Hrun as (stores & log3 & Hs & Hrun).
  apply aggregate_ok in Hs as [Hs _].
  destruct stores as [|st sts].
  { apply ret_ok in Hrun as [-> _]. exists [], []. split; [left; reflexivity|apply Hnil]. }
  unfold _join_menu_data in Hrun.
  apply bind_ok in Hrun as (conds' & log4 & _ & Hrun).
  apply bind_ok in Hrun as (menu_items & log5 & _ & Hrun).
  apply lift_ok in Hrun as [Hj _].
  exists (st :: sts), menu_items. split; [right; eauto|].
  apply (join_menu_stable (st :: sts) (tag :: tags) menu_items res Htags Hj).
Qed.

(** *** Drinks in order of relevance *)

(** [x["text_score"]] of a drink that has one. *)
Definition text_score_of (d : doc) : Q :=
  match d !! "text_score" with
  | Some (VNum q) => q
  | _ => 0
  end.

(** The sort key of a returned drink. *)
Definition score (d : doc) : value := dict_get "text_score" d.

(** A key does not come after a greater one: for keys that are numbers, and
    for keys that are strings. *)
Definition num_ge (x y : value) : Prop :=
  forall p q, num_of x = Some p -> num_of y = Some q -> (q <= p)%Q.

Definition str_ge (x y : value) : Prop :=
  forall a b, x = VStr a -> y = VStr b -> String.leb b a = true.

Definition is_num (v : value) : Prop := is_Some (num_of v).

Definition is_str (v : value) : Prop := exists a, v = VStr a.

(** Insertion sort puts in order what a strict weak order compares. *)
Lemma sort_by_sorted_on {A : Type} (lt : A -> A -> bool) (P : A -> Prop) (l : list A) :
  (forall x y, P x -> P y -> lt x y = true -> lt y x = false) ->
  (forall x y z, P x -> P y -> P z -> lt x y = false -> lt y z = false -> lt x z = false) ->
  Forall P l ->
  StronglySorted (fun a b => lt a b = false) (sort_by (fun a b => lt b a) l).
Proof.
  intros Hasym Htrans. induction 1 as [|x l Hx Hl IH]; [constructor|].
  unfold sort_by. cbn [foldr]. fold (sort_by (fun a b => lt b a) l).
  assert (Forall P (sort_by (fun a b => lt b a) l)) as Hsl
    by (rewrite sort_by_perm; exact Hl).
  revert IH Hsl. generalize (sort_by (fun a b => lt b a) l). clear l Hl.
  intros m Hm HP. induction Hm as [|y m Hm IH Hy]; cbn [insert_sorted].
  - constructor; constructor.
  - inversion HP as [|? ? Py Pm]; subst. cbn beta.
    destruct (lt x y) eqn:Hxy.
    + constructor; [exact (IH Pm)|].
      rewrite insert_sorted_perm. constructor; [exact (Hasym x y Hx Py Hxy)|exact Hy].
    + constructor; [constructor; assumption|].
      constructor; [exact Hxy|].
      apply Forall_forall. intros z Hz.
      apply (Htrans x y z Hx Py); [|exact Hxy|].
      * exact (proj1 (Forall_forall _ _) Pm z Hz).
      * exact (proj1 (Forall_forall _ _) Hy z Hz).
Qed.

Lemma StronglySorted_any {A : Type} (R : A -> A -> Prop) (l : list A) :
  (forall a b, a ∈ l -> b ∈ l -> R a b) -> StronglySorted R l.
Proof.
  induction l as [|x l IH]; intros H; constructor.
  - apply IH. intros a b Ha Hb. apply H; right; assumption.
  - apply Forall_forall. intros y Hy. apply H; [left|right; exact Hy].
Qed.

(** A number is comparable with numbers only, a string with strings
    only. *)
Lemma comparable_num (x y : value) :
  comparable x y = true -> (is_num x <-> is_num y).
Proof.
  unfold comparable, is_num.
  destruct x, y; cbn [py_lt num_of]; try discriminate; intros _;
    split; intros [v Hv]; try discriminate; eauto.
Qed.

Lemma comparable_str (x y : value) :
  comparable x y = true -> (is_str x <-> is_str y).
Proof.
  unfold comparable, is_str.
  destruct x, y; cbn [py_lt num_of]; try discriminate; intros _;
    split; intros [v Hv]; try discriminate; eauto.
Qed.

(** Keys that can all be compared with one another are all of a class, or
    none of them is. *)
Lemma pairwise_comparable_class (P : value -> Prop) (keys : list value) :
  (forall k, P k \/ ~ P k) ->
  (forall x y, comparable x y = true -> (P x <-> P y)) ->
  pairwise_comparable keys = true ->
  Forall P keys \/ Forall (fun k => ~ P k) keys.
Proof.
  intros Hdec Hclass. destruct keys as [|k ks]; [left; constructor|].
  cbn [pairwise_comparable]. intros H. apply andb_true_iff in H as [Hk _].
  rewrite forallb_forall in Hk.
  destruct (Hdec k) as [Hp|Hp]; [left|right]; (constructor; [exact Hp|]);
    apply Forall_forall; intros k' Hin; apply list_elem_of_In in Hin;
    specialize (Hclass k k' (Hk k' Hin)); tauto.
Qed.

Lemma is_num_dec (k : value) : is_num k \/ ~ is_num k.
Proof.
  unfold is_num. destruct (num_of k); [left; eauto|right; intros [x Hx]; discriminate].
Qed.

Lemma is_str_dec (k : value) : is_str k \/ ~ is_str k.
Proof.
  unfold is_str. destruct k; try (right; intros [a Ha]; discriminate). left; eauto.
Qed.

(** The order of numbers, and the order of strings. *)
Lemma less_num_asym (x y : value) :
  is_num x -> is_num y -> less x y = true -> less y x = false.
Proof.
  intros [p Hp] [q Hq]. unfold less.
  assert (forall u v a b, num_of u = Some a -> num_of v = Some b ->
            py_lt u v = Ok (negb (Qle_bool b a))) as Hlt.
  { intros u v a b Ha Hb. destruct u, v; cbn [py_lt num_of] in *; try discriminate;
      inversion Ha; inversion Hb; reflexivity. }
  rewrite (Hlt x y p q Hp Hq), (Hlt y x q p Hq Hp).
  intros H. apply negb_true_iff in H. apply negb_false_iff, Qle_bool_iff.
  destruct (Qlt_le_dec q p) as [Hlt'|Hle]; [|].
  - apply Qlt_le_weak in Hlt'. apply Qle_bool_iff in Hlt'. congruence.
  - exact Hle.
Qed.

Lemma less_num (x y : value) (p q : Q) :
  num_of x = Some p -> num_of y = Some q -> less x y = negb (Qle_bool q p).
Proof.
  intros Hp Hq. unfold less.
  destruct x, y; cbn [py_lt num_of] in *; try discriminate;
    inversion Hp; inversion Hq; reflexivity.
Qed.

Lemma less_num_trans (x y z : value) :
  is_num x -> is_num y -> is_num z ->
  less x y = false -> less y z = false -> less x z = false.
Proof.
  intros [p Hp] [q Hq] [r Hr].
  rewrite (less_num x y p q Hp Hq), (less_num y z q r Hq Hr), (less_num x z p r Hp Hr).
  intros H1 H2. apply negb_false_iff, Qle_bool_iff in H1, H2.
  apply negb_false_iff, Qle_bool_iff. eapply Qle_trans; eassumption.
Qed.

Lemma ltb_compare (a b : string) : String.ltb a b = false <-> String.compare a b <> Lt.
Proof. unfold String.ltb. destruct (String.compare a b); split; congruence. Qed.

Lemma compare_lt_trans (a b c : string) :
  String.compare a b = Lt -> String.compare b c = Lt -> String.compare a c = Lt.
Proof.
  revert b c. induction a as [|x a IH]; intros [|y b] [|z c]; cbn; try discriminate;
    try reflexivity.
  unfold Ascii.compare.
  destruct (N.compare_spec (N_of_ascii x) (N_of_ascii y)) as [Hxy|Hxy|Hxy];
    try discriminate;
    destruct (N.compare_spec (N_of_ascii y) (N_of_ascii z)) as [Hyz|Hyz|Hyz];
    try discriminate; intros H1 H2.
  - rewrite Hxy, Hyz, N.compare_refl. eapply IH; eassumption.
  - rewrite Hxy. apply N.compare_lt_iff in Hyz. rewrite Hyz. reflexivity.
  - rewrite <- Hyz. apply N.compare_lt_iff in Hxy. rewrite Hxy. reflexivity.
  - assert (N_of_ascii x < N_of_ascii z)%N as Hxz by (eapply N.lt_trans; eassumption).
    apply N.compare_lt_iff in Hxz. rewrite Hxz. reflexivity.
Qed.

Lemma less_str_asym (x y : value) :
  is_str x -> is_str y -> less x y = true -> less y x = false.
Proof.
  intros [a ->] [b ->]. unfold less. cbn [py_lt]. unfold String.ltb.
  rewrite (String.compare_antisym b a). destruct (String.compare a b); cbn; congruence.
Qed.

Lemma less_str_trans (x y z : value) :
  is_str x -> is_str y -> is_str z ->
  less x y = false -> less y z = false -> less x z = false.
Proof.
  intros [a ->] [b ->] [c ->]. unfold less. cbn [py_lt].
  rewrite !ltb_compare. intros Hab Hbc Hac.
  destruct (String.compare a b) eqn:Eab; [|congruence|].
  - apply String.compare_eq_iff in Eab. subst. congruence.
  - destruct (String.compare b c) eqn:Ebc; [|congruence|].
    + apply String.compare_eq_iff in Ebc. subst. congruence.
    + assert (String.compare c b = Lt) as Hcb
        by (rewrite String.compare_antisym, Ebc; reflexivity).
      assert (String.compare b a = Lt) as Hba
        by (rewrite String.compare_antisym, Eab; reflexivity).
      pose proof (compare_lt_trans c b a Hcb Hba) as Hca.
      rewrite String.compare_antisym, Hca in Hac. discriminate.
Qed.

(** What the sort leaves: the elements it was given, the numeric keys in
    non-increasing order, and the string keys too. *)
Lemma list_sort_reverse_sorted {A : Type} (keyed : list (value * A)) (res : list A) :
  list_sort_reverse keyed = Ok res ->
  exists sorted,
    res = map snd sorted /\ sorted ≡ₚ keyed
    /\ StronglySorted (fun a b : value * A => num_ge a.1 b.1) sorted
    /\ StronglySorted (fun a b : value * A => str_ge a.1 b.1) sorted.
Proof.
  unfold list_sort_reverse.
  destruct (pairwise_comparable (map fst keyed)) eqn:Hcmp; [|discriminate].
  intros H; inversion H; subst; clear H.
  set (lt := fun a b : value * A => less a.1 b.1).
  change (sort_by (fun a b : value * A => less b.1 a.1) keyed)
    with (sort_by (fun a b => lt b a) keyed).
  exists (sort_by (fun a b => lt b a) keyed).
  split; [reflexivity|]. split; [apply sort_by_perm|]. split.
  - destruct (pairwise_comparable_class is_num (map fst keyed) is_num_dec comparable_num
                Hcmp) as [Hall|Hnone].
    + assert (Forall (fun a : value * A => is_num a.1) keyed) as Hk.
      { apply Forall_forall. intros a Ha. apply (proj1 (Forall_forall _ _) Hall).
        exact (list_elem_of_fmap_2 fst keyed a Ha). }
      rewrite <- (map_id (sort_by (fun a b => lt b a) keyed)).
      apply (StronglySorted_map_on (fun a : value * A => is_num a.1)
               (fun a b => lt a b = false)).
      * intros a b _ _ Hab p q Hp Hq. unfold lt in Hab. cbn [id].
        rewrite (less_num a.1 b.1 p q Hp Hq) in Hab.
        apply negb_false_iff, Qle_bool_iff in Hab. exact Hab.
      * rewrite sort_by_perm. exact Hk.
      * apply sort_by_sorted_on with (P := fun a : value * A => is_num a.1).
        -- intros x y. apply less_num_asym.
        -- intros x y z. apply less_num_trans.
        -- exact Hk.
    + apply StronglySorted_any. intros a b Ha _ p q Hp _.
      rewrite sort_by_perm in Ha.
      destruct (proj1 (Forall_forall _ _) Hnone a.1 (list_elem_of_fmap_2 fst keyed a Ha)).
      unfold is_num. rewrite Hp. eauto.
  - destruct (pairwise_comparable_class is_str (map fst keyed) is_str_dec comparable_str
                Hcmp) as [Hall|Hnone].
    + assert (Forall (fun a : value * A => is_str a.1) keyed) as Hk.
      { apply Forall_forall. intros a Ha. apply (proj1 (Forall_forall _ _) Hall).
        exact (list_elem_of_fmap_2 fst keyed a Ha). }
      rewrite <- (map_id (sort_by (fun a b => lt b a) keyed)).
      apply (StronglySorted_map_on (fun a : value * A => is_str a.1)
               (fun a b => lt a b = false)).
      * intros a b _ _ Hab x y Hx Hy. unfold lt in Hab. cbn [id].
        unfold less in Hab. rewrite Hx, Hy in Hab. cbn [py_lt] in Hab.
        apply ltb_compare in Hab. unfold String.leb.
        rewrite String.compare_antisym. destruct (String.compare x y); cbn; congruence.
      * rewrite sort_by_perm. exact Hk.
      * apply sort_by_sorted_on with (P := fun a : value * A => is_str a.1).
        -- intros x y. apply less_str_asym.
        -- intros x y z. apply less_str_trans.
        -- exact Hk.
    + apply StronglySorted_any. intros a b Ha _ x y Hx _.
      rewrite sort_by_perm in Ha.
      destruct (proj1 (Forall_forall _ _) Hnone a.1 (list_elem_of_fmap_2 fst keyed a Ha)).
      unfold is_str. eauto.
Qed.

Lemma sort_by_text_score_sorted (drinks res : list doc) :
  sort_by_text_score drinks = Ok res ->
  Forall (fun d => is_Some (d !! "text_score")) res
  /\ StronglySorted (fun a b => num_ge (score a) (score b)) res
  /\ StronglySorted (fun a b => str_ge (score a) (score b)) res.
Proof.
  unfold sort_by_text_score.
  destruct (map_result text_score_key drinks) as [keys|e] eqn:Hkeys; [|discriminate].
  apply map_result_Forall2 in Hkeys.
  assert (Forall (fun kd : value * doc => kd.2 !! "text_score" = Some kd.1)
            (zip keys drinks)) as Hzip.
  { induction Hkeys as [|d k drinks keys Hk _ IH]; [constructor|].
    cbn [zip zip_with]. constructor; [|exact IH]. cbn.
    unfold text_score_key, getitem in Hk.
    destruct (d !! "text_score"); [congruence|discriminate]. }
  intros H. apply list_sort_reverse_sorted in H as (sorted & -> & Hperm & Hnum & Hstr).
  rewrite <- Hperm in Hzip.
  assert (forall kd : value * doc, kd.2 !! "text_score" = Some kd.1 -> score kd.2 = kd.1)
    as Hscore.
  { intros kd Hkd. unfold score, dict_get. rewrite Hkd. reflexivity. }
  split; [|split].
  - apply Forall_fmap. eapply Forall_impl; [exact Hzip|].
    intros kd Hkd. cbn. rewrite Hkd. eauto.
  - eapply StronglySorted_map_on; [|exact Hzip|exact Hnum].
    intros a b Ha Hb Hab. cbn beta in *. rewrite (Hscore a Ha), (Hscore b Hb). exact Hab.
  - eapply StronglySorted_map_on; [|exact Hzip|exact Hstr].
    intros a b Ha Hb Hab. cbn beta in *. rewrite (Hscore a Ha), (Hscore b Hb). exact Hab.
Qed.

(** X13.  With tags, every drink [find_drinks] returns has a [text_score],
    and the drinks are in non-increasing order of it, whether the scores
    are numbers, as the store's relevance is, or strings: no drink comes
    after one of smaller score. *)
Theorem drinks_sorted_by_text_score (longitude latitude : Q)
    (drink_tags brands : list string) (review_count_range : option (Z * Z))
    (rating_range : option (Q * Q)) (distance_range : option (Z * Z))
    (platform : option string) (limit : option Z) (log log' : list query)
    (res : list doc) :
  drink_tags <> [] ->
  find_drinks store_answer longitude latitude drink_tags brands review_count_range
    rating_range distance_range platform limit log = (Ok res, log') ->
  Forall (fun d => is_Some (d !! "text_score")) res
  /\ StronglySorted (fun a b => num_ge (score a) (score b)) res
  /\ StronglySorted (fun a b => str_ge (score a) (score b)) res.
Proof.
  intros Htags Hrun. unfold find_drinks in Hrun.
  apply bind_ok in Hrun as (stores & log1 & _ & Hrun).
  destruct stores as [|store stores].
  { apply ret_ok in Hrun as [-> _]. repeat split; constructor. }
  unfold _find_drinks_from_stores in Hrun.
  apply bind_ok in Hrun as (conds & log2 & _ & Hrun).
  apply bind_ok in Hrun as (menu_items & log3 & _ & Hrun).
  apply lift_ok in Hrun as [Hjoin _]. unfold join_drinks in Hjoin.
  destruct (fold_result index_store [] (store :: stores)) as [idx|e]; [|discriminate].
  destruct (fold_result (join_item idx) [] menu_items) as [drinks|e]; [|discriminate].
  destruct drink_tags as [|tag tags]; [congruence|].
  exact (sort_by_text_score_sorted drinks res Hjoin).
Qed.

(** *** The requests each operation issues *)










End Answers.

(** *** [find_nearby_stores] *)

Definition nearby_projection : list (string * projection) :=
  [("_id", PExclude); ("store_id", PInclude); ("name", PInclude);
   ("address", PInclude); ("platforms", PInclude); ("rating", PInclude);
   ("cuisines", PInclude); ("distance_km", PField "distance_in_km")].

(** The pipeline of [find_nearby_stores]. *)
Definition nearby_pipeline (longitude latitude radius_km : Q) (limit : option Z)
  : list stage :=
  [_build_geospatial_filter longitude latitude radius_km; Project nearby_projection] ++
  match truthy_int limit with
  | Some n => [Limit n]
  | None => []
  end.

(** MongoDriver.find_nearby_stores *)
Definition find_nearby_stores (store_answer : string -> list stage -> result (list doc))
    (longitude latitude radius_km : Q) (limit : option Z) : M (list doc) :=
  aggregate store_answer "store" (nearby_pipeline longitude latitude radius_km limit).

(** *** What the projections leave out *)

(** An entry of a projection that does not produce the field [k] from the
    document [d]. *)
Definition silent (k : string) (d : doc) (kp : string * projection) : Prop :=
  kp.1 = k ->
  match kp.2 with
  | PExclude => True
  | PInclude => d !! k = None
  | PField path => get_path path d = None
  | PRoundDiv _ _ _ => False
  end.

Lemma project_absent (k : string) (spec : list (string * projection)) (d : doc) :
  k <> "_id" -> Forall (silent k d) spec -> project spec d !! k = None.
Proof.
  intros Hid Hspec. unfold project.
  assert (forall out : doc, out !! k = None ->
            foldl (project_field d) out spec !! k = None) as Hfold.
  { induction Hspec as [|kp spec Hkp _ IH]; intros out Hout; [exact Hout|].
    cbn [foldl]. apply IH.
    destruct (decide (kp.1 = k)) as [Heq|Hne];
      [|rewrite project_field_other by exact Hne; exact Hout].
    specialize (Hkp Heq). unfold project_field.
    destruct kp.2 as [| |path|path divisor places].
    - exact Hout.
    - rewrite Heq, Hkp. exact Hout.
    - rewrite Hkp. exact Hout.
    - destruct Hkp. }
  apply Hfold.
  destruct (d !! "_id"), (excludes "_id" spec); rewrite ?lookup_empty; try reflexivity.
  apply lookup_singleton_ne. congruence.
Qed.

Lemma join_items_length (idx : list ((value * value) * doc)) (items acc res : list doc) :
  fold_result (join_item idx) acc items = Ok res ->
  length res <= length acc + length items.
Proof.
  revert acc. induction items as [|item items IH]; intros acc Hfold; cbn in Hfold.
  - inversion Hfold; subst. lia.
  - destruct (join_item idx acc item) as [acc'|e] eqn:Hstep; [|discriminate].
    apply IH in Hfold. cbn [length].
    assert (length acc' <= S (length acc)); [|lia].
    unfold join_item in Hstep.
    destruct (index_key item) as [key|e]; [|discriminate].
    destruct (alist_get pair_eq key idx) as [store_data|];
      [|inversion Hstep; subst; lia].
    destruct (bool_decide (size store_data = 0)); [inversion Hstep; subst; lia|].
    destruct (attach_store store_data item) as [item'|e]; [|discriminate].
    inversion Hstep; subst. rewrite length_app. cbn. lia.
Qed.

(** No menu item gives more than one drink. *)
Lemma join_drinks_length (stores : list doc) (drink_tags : list string)
    (menu_items res : list doc) :
  join_drinks stores drink_tags menu_items = Ok res -> length res <= length menu_items.
Proof.
  unfold join_drinks.
  destruct (fold_result index_store [] stores) as [idx|e]; [|discriminate].
  destruct (fold_result (join_item idx) [] menu_items) as [drinks|e] eqn:Hj;
    [|discriminate].
  apply join_items_length in Hj. cbn in Hj.
  destruct drink_tags.
  - intros H; inversion H; subst. exact Hj.
  - intros H. apply sort_by_text_score_perm in H. rewrite H. exact Hj.
Qed.

Section Served.

Variable text_score : string -> doc -> option Q.
Variable geo_distance : Q -> Q -> doc -> option Q.
Variable regex_match : string -> string -> string -> bool.
Variable db : string -> list doc.

Abbreviation the_store := (served text_score geo_distance regex_match db).

(** The documents a pipeline outputs lack the field [k] when one of its
    [$project] stages does not produce it and the later stages leave it
    alone. *)
Lemma pipeline_absent (k : string) (collection : list doc) (pre post : list stage)
    (spec : list (string * projection)) (docs : list doc) :
  run_pipeline text_score geo_distance regex_match collection
    (pre ++ Project spec :: post) = Ok docs ->
  k <> "_id" -> Forall (fun kp => kp.1 <> k) spec -> forallb (keeps k) post = true ->
  Forall (fun d => d !! k = None) docs.
Proof.
  intros Hrun Hid Hspec Hpost.
  apply run_pipeline_rows in Hrun as (rows & Hev & ->).
  apply eval_stages_app in Hev as (first' & mid & mid' & Hproj & Hrest).
  apply Forall_fmap. apply Forall_forall. intros r' Hr'. cbn.
  destruct (eval_stages_keeps text_score geo_distance regex_match k post false mid' rows
              Hpost Hrest r' Hr') as (r & Hr & ->).
  cbn [eval_stage] in Hproj. inversion Hproj; subst; clear Hproj.
  apply list_elem_of_fmap in Hr as (r0 & -> & _). cbn.
  apply project_absent; [exact Hid|].
  eapply Forall_impl; [exact Hspec|]. intros kp Hkp Heq. contradiction.
Qed.

Lemma drinks_pipeline_project (drink_tags : list string) (limit : option Z)
    (conds : list condition) :
  exists pre post,
    drinks_pipeline drink_tags limit conds
    = pre ++ Project (drink_projection drink_tags) :: post
    /\ forall k, forallb (keeps k) post = true.
Proof.
  unfold drinks_pipeline. destruct drink_tags as [|tag tags].
  - exists [Match (FGte "price" 20); Match (FOr conds)],
      (match truthy_int limit with Some n => [Limit n] | None => [] end).
    split; [reflexivity|]. intros k. destruct (truthy_int limit); reflexivity.
  - exists [Match (_build_drink_tags_filter (tag :: tags)); Match (FGte "price" 20);
            Match (FOr conds); AddTextScore "text_score"],
      (SortTextScore "text_score" ::
       match truthy_int limit with Some n => [Limit n] | None => [] end).
    split; [reflexivity|]. intros k. destruct (truthy_int limit); reflexivity.
Qed.

(** The menu items fetched for [find_drinks] have no [store] field. *)
Lemma drinks_pipeline_no_store (drink_tags : list string) (limit : option Z)
    (conds : list condition) (items : list doc) :
  the_store "menu_item" (drinks_pipeline drink_tags limit conds) = Ok items ->
  Forall (fun d => d !! "store" = None) items.
Proof.
  intros Hrun.
  destruct (drinks_pipeline_project drink_tags limit conds) as (pre & post & Hshape & Hpost).
  unfold served in Hrun. rewrite Hshape in Hrun.
  eapply pipeline_absent; [exact Hrun|discriminate| |apply Hpost].
  unfold drink_projection. apply Forall_app. split.
  - repeat (constructor; [discriminate|]). constructor.
  - destruct drink_tags; repeat (constructor; [discriminate|]); constructor.
Qed.

(** A drink returned by [find_drinks] has no [store] field: the fields of
    its store are at the top level, under [store_name], [store_url],
    [brand_name], [store_id] and [platform]. *)
Lemma find_drinks_no_store_field (longitude latitude : Q)
    (drink_tags brands : list string) (review_count_range : option (Z * Z))
    (rating_range : option (Q * Q)) (distance_range : option (Z * Z))
    (platform : option string) (limit : option Z) (log log' : list query)
    (res : list doc) :
  find_drinks the_store longitude latitude drink_tags brands review_count_range
    rating_range distance_range platform limit log = (Ok res, log') ->
  Forall (fun d => d !! "store" = None) res.
Proof.
  intros Hrun. unfold find_drinks in Hrun.
  apply bind_ok in Hrun as (stores & log1 & _ & Hrun).
  destruct stores as [|store stores].
  { apply ret_ok in Hrun as [-> _]. constructor. }
  unfold _find_drinks_from_stores in Hrun.
  apply bind_ok in Hrun as (conds & log2 & _ & Hrun).
  apply bind_ok in Hrun as (menu_items & log3 & Hitems & Hrun).
  apply aggregate_ok in Hitems as [Hitems _]. apply lift_ok in Hrun as [Hjoin _].
  apply drinks_pipeline_no_store in Hitems.
  apply join_drinks_joined in Hjoin as (idx & _ & Hjoined).
  eapply Forall_impl; [exact Hjoined|].
  intros d (item & key & store_data & Hin & _ & _ & Hatt).
  rewrite (attach_store_other store_data item d "store" Hatt) by discriminate.
  exact (proj1 (Forall_forall _ _) Hitems item Hin).
Qed.

Lemma eval_stages_limit (pre : list stage) (n : Z) (first : bool)
    (rows rows' : list row) :
  eval_stages text_score geo_distance regex_match first (pre ++ [Limit n]) rows = Ok rows' ->
  length rows' <= Z.to_nat n.
Proof.
  intros Hev. apply eval_stages_app in Hev as (first' & mid & mid' & Hlim & Hrest).
  cbn in Hrest. inversion Hrest; subst; clear Hrest.
  cbn [eval_stage] in Hlim. destruct (0 <? n)%Z; [|discriminate].
  inversion Hlim; subst. apply firstn_le_length.
Qed.

Lemma drinks_pipeline_limit (drink_tags : list string) (n : Z) (conds : list condition) :
  n <> 0%Z ->
  exists pre, drinks_pipeline drink_tags (Some n) conds = pre ++ [Limit n].
Proof.
  intros Hn. unfold drinks_pipeline.
  assert (truthy_int (Some n) = Some n) as -> by (destruct n; [congruence|reflexivity..]).
  rewrite !app_assoc. eexists. reflexivity.
Qed.

(** X15.  The limit of [find_drinks].  A limit of 0 is no limit: the
    operation runs as with [None].  A positive limit bounds the number of
    drinks returned, with or without tags. *)
Theorem find_drinks_limit (longitude latitude : Q)
    (drink_tags brands : list string) (review_count_range : option (Z * Z))
    (rating_range : option (Q * Q)) (distance_range : option (Z * Z))
    (platform : option string) (n : Z) (log log' : list query) (res : list doc) :
  (0 < n)%Z ->
  find_drinks the_store longitude latitude drink_tags brands review_count_range
    rating_range distance_range platform (Some n) log = (Ok res, log') ->
  length res <= Z.to_nat n
  /\ find_drinks the_store longitude latitude drink_tags brands review_count_range
       rating_range distance_range platform (Some 0%Z) log
     = find_drinks the_store longitude latitude drink_tags brands review_count_range
         rating_range distance_range platform None log.
Proof.
  intros Hn Hrun. split; [|reflexivity]. unfold find_drinks in Hrun.
  apply bind_ok in Hrun as (stores & log1 & _ & Hrun).
  destruct stores as [|store stores].
  { apply ret_ok in Hrun as [-> _]. cbn. lia. }
  unfold _find_drinks_from_stores in Hrun.
  apply bind_ok in Hrun as (conds & log2 & _ & Hrun).
  apply bind_ok in Hrun as (menu_items & log3 & Hitems & Hrun).
  apply aggregate_ok in Hitems as [Hitems _]. apply lift_ok in Hrun as [Hjoin _].
  apply join_drinks_length in Hjoin.
  destruct (drinks_pipeline_limit drink_tags n conds) as (pre & Hshape); [lia|].
  unfold served in Hitems. rewrite Hshape in Hitems.
  apply run_pipeline_rows in Hitems as (rows & Hev & ->).
  apply eval_stages_limit in Hev. rewrite length_map in Hjoin.
  exact (Nat.le_trans _ _ _ Hjoin Hev).
Qed.

(** X16.  [find_nearby_stores] projects [distance_km] from a field
    [distance_in_km] that no stage of its pipeline computes (the geospatial
    stage writes [distance_in_meter]).  When the stored documents have no
    such field, as those of [StoreDoc], the stores it returns carry no
    distance at all: neither [distance_km] nor [distance_in_meter]. *)
Theorem find_nearby_stores_no_distance (longitude latitude radius_km : Q)
    (limit : option Z) (log log' : list query) (res : list doc) :
  Forall (fun d => d !! "distance_in_km" = None) (db "store") ->
  find_nearby_stores the_store longitude latitude radius_km limit log = (Ok res, log') ->
  Forall (fun d => d !! "distance_km" = None /\ d !! "distance_in_meter" = None) res.
Proof.
  intros Hdb Hrun. unfold find_nearby_stores in Hrun.
  apply aggregate_ok in Hrun as [Hrun _]. unfold served in Hrun.
  apply run_pipeline_rows in Hrun as (rows & Hev & ->).
  unfold nearby_pipeline in Hev. cbn [app eval_stages] in Hev.
  destruct (eval_stage text_score geo_distance regex_match true
              (_build_geospatial_filter longitude latitude radius_km)
              (map (fun d => (d, None)) (db "store"))) as [near|e] eqn:Hgeo;
    [|discriminate].
  destruct (eval_stage text_score geo_distance regex_match false
              (Project nearby_projection) near) as [projected|e] eqn:Hproj;
    [|discriminate].
  assert (Forall (fun r : row => r.1 !! "distance_km" = None
                                 /\ r.1 !! "distance_in_meter" = None) projected) as Hp.
  { cbn [eval_stage] in Hproj. inversion Hproj; subst; clear Hproj.
    apply Forall_fmap. apply Forall_forall. intros r Hr. cbn beta. cbn [fst].
    destruct (eval_stage_keeps text_score geo_distance regex_match "distance_in_km" true
                (_build_geospatial_filter longitude latitude radius_km) _ near
                eq_refl Hgeo r Hr) as (r0 & Hr0 & Hkeep).
    apply list_elem_of_fmap in Hr0 as (d0 & -> & Hd0). cbn in Hkeep.
    rewrite (proj1 (Forall_forall _ _) Hdb d0 Hd0) in Hkeep.
    split; (apply project_absent; [discriminate|]);
      unfold nearby_projection; repeat (constructor; [intros Heq; discriminate Heq|]).
    - constructor; [|constructor]. intros _. cbn.
      change (get_path "distance_in_km" r.1) with (r.1 !! "distance_in_km"). exact Hkeep.
    - constructor. }
  assert (forall k, forallb (keeps k)
                      match truthy_int limit with Some n => [Limit n] | None => [] end
                    = true) as Hpost by (intros k; destruct (truthy_int limit); reflexivity).
  apply Forall_fmap. apply Forall_forall. intros r' Hr'. cbn.
  destruct (eval_stages_keeps text_score geo_distance regex_match "distance_km" _ false
              projected rows (Hpost _) Hev r' Hr') as (r1 & Hr1 & ->).
  destruct (eval_stages_keeps text_score geo_distance regex_match "distance_in_meter" _
              false projected rows (Hpost _) Hev r' Hr') as (r2 & Hr2 & ->).
  split.
  - exact (proj1 (proj1 (Forall_forall _ _) Hp r1 Hr1)).
  - exact (proj2 (proj1 (Forall_forall _ _) Hp r2 Hr2)).
Qed.

Lemma filter_none {A : Type} (P : A -> Prop) `{!forall x, Decision (P x)} (l : list A) :
  Forall (fun x => ~ P x) l -> filter P l = [].
Proof.
  induction 1 as [|x l Hx _ IH]; [reflexivity|].
  rewrite filter_cons, decide_False by exact Hx. exact IH.
Qed.

(** X17.  With tags and a platform, the tag search of
    [find_drink_stores_with_menu] keeps the menu items whose field
    [platforms] is the platform.  When no menu item has a field of that
    name (a [MenuItemDoc] has [platform]), the search finds nothing: the
    operation returns the empty list after this one request, whatever the
    items and the stores are. *)
Theorem tagged_search_reads_platforms (longitude latitude : Q)
    (drink_tags brands : list string) (review_count_range : option (Z * Z))
    (rating_range : option (Q * Q)) (distance_range : option (Z * Z))
    (platform : option string) (p : string) (log : list query) :
  Forall (fun d => d !! "platforms" = None) (db "menu_item") ->
  drink_tags <> [] ->
  truthy platform = Some p ->
  find_drink_stores_with_menu the_store longitude latitude drink_tags brands
    review_count_range rating_range distance_range platform log
  = (Ok [],
     log ++ [{| collection_name := "menu_item";
                pipeline := tagged_menu_pipeline drink_tags platform |}]).
Proof.
  intros Hdb Htags Hp. destruct drink_tags as [|tag tags]; [congruence|].
  assert (the_store "menu_item" (tagged_menu_pipeline (tag :: tags) platform) = Ok [])
    as Hnone.
  { unfold served, run_pipeline, tagged_menu_pipeline. rewrite Hp.
    cbn [app eval_stages eval_stage _build_drink_tags_filter plain_condition].
    rewrite filter_none; [reflexivity|].
    apply Forall_forall. intros r Hr.
    apply list_elem_of_omap in Hr as (r0 & Hr0 & Hsc).
    apply list_elem_of_fmap in Hr0 as (d & -> & Hd).
    cbn [fst] in Hsc. destruct (text_score _ d); [|discriminate].
    inversion Hsc; subst. cbn [fst satisfies].
    change (get_path "platforms" d) with (d !! "platforms").
    rewrite (proj1 (Forall_forall _ _) Hdb d Hd). cbn. discriminate. }
  unfold find_drink_stores_with_menu, _find_stores_with_drink_tags, bind, aggregate.
  rewrite Hnone. reflexivity.
Qed.



End Served.

(** ** A small store to run the driver on

    Text search: a document matches when its [name] contains the search
    string, with relevance 1, or 2 when the name is the search string.
    Distances are measured along the grid, a degree being 111 km.  A regular
    expression matches the strings that contain it. *)

Definition contains (part whole : string) : bool :=
  bool_decide (is_Some (String.index 0 part whole)).

Definition text_score (search : string) (d : doc) : option Q :=
  match d !! "name" with
  | Some (VStr name) =>
      if bool_decide (name = search) then Some 2%Q
      else if contains search name then Some 1%Q else None
  | _ => None
  end.

Definition geo_distance (longitude latitude : Q) (d : doc) : option Q :=
  match d !! "location" with
  | Some (VDict location) =>
      match location !! "coordinates" with
      | Some (VList [VNum x; VNum y]) =>
          Some (111000 * (Qabs (x - longitude) + Qabs (y - latitude)))%Q
      | _ => None
      end
  | _ => None
  end.

Definition regex_match (regex options input : string) : bool := contains regex input.

Definition point (longitude latitude : Q) : value :=
  VDict (list_to_map [("type", VStr "Point");
                      ("coordinates", VList [VNum longitude; VNum latitude])]).

(** A [StoreDoc] *)
Definition store_doc (store_id platform name brand source_url : string)
    (longitude latitude : Q) : doc :=
  list_to_map [("store_id", VStr store_id); ("platform", VStr platform);
               ("name", VStr name); ("brand", VStr brand);
               ("source_url", VStr source_url);
               ("location", point longitude latitude)].

(** A [MenuItemDoc] *)
Definition menu_item_doc (item_id store_id platform name : string) (price : Q) : doc :=
  list_to_map [("item_id", VStr item_id); ("store_id", VStr store_id);
               ("platform", VStr platform); ("name", VStr name);
               ("price", VNum price)].

Definition collections (stores menu_items : list doc) (collection_name : string)
  : list doc :=
  if bool_decide (collection_name = "store") then stores
  else if bool_decide (collection_name = "menu_item") then menu_items
  else [].

Definition serve (stores menu_items : list doc) : string -> list stage -> result (list doc) :=
  served text_score geo_distance regex_match (collections stores menu_items).

(** *** Runs *)

Definition ok {A : Type} (r : result A) : bool :=
  match r with
  | Ok _ => true
  | Raise _ => false
  end.

Definition value_of {A : Type} (r : result (list A)) : list A :=
  match r with
  | Ok l => l
  | Raise _ => []
  end.

Definition field (k : string) (docs : list doc) : list (option value) :=
  map (fun d : doc => d !! k) docs.

(** One store, on ubereats, and a menu with an item of a foodpanda store that
    has the same [store_id], and a cheap item. *)
Definition tea_house : doc :=
  store_doc "s1" "ubereats" "Tea House" "TH" "https://www.ubereats.com/tw/store/s1" 0 0.

Definition oolong_foodpanda : doc := menu_item_doc "i1" "s1" "foodpanda" "oolong tea" 50.

Definition water : doc := menu_item_doc "i2" "s1" "ubereats" "water" 10.

(** A store 5.55 km away from the origin. *)
Definition far_tea : doc :=
  store_doc "s9" "ubereats" "Far Tea" "FT" "https://www.ubereats.com/tw/store/s9" (1 # 20) 0.

(** Store A, with two items that match "tea", and store B, nearer, with
    one. *)
Definition store_a : doc := store_doc "a" "ubereats" "A" "" "" (1 # 100) 0.
Definition store_b : doc := store_doc "b" "ubereats" "B" "" "" 0 0.
Definition menu_ab : list doc :=
  [menu_item_doc "a1" "a" "ubereats" "green tea" 30;
   menu_item_doc "b1" "b" "ubereats" "milk tea" 30;
   menu_item_doc "a2" "a" "ubereats" "black tea" 30;
   menu_item_doc "b2" "b" "ubereats" "coffee" 30].


(** With the range (0, 3000) the store 5.55 km away is found; with no range
    (5 km) it is not. *)
Lemma far_store_within_range :
  field "store_id"
    (value_of (_find_qualifying_stores (serve [tea_house; far_tea] []) 0 0 [] None None
                 (Some (0, 3000)%Z) None []).1)
  = [Some (VStr "s1"); Some (VStr "s9")]
  /\ field "store_id"
       (value_of (_find_qualifying_stores (serve [tea_house; far_tea] []) 0 0 [] None
                    None None None []).1)
     = [Some (VStr "s1")].
Proof. split; vm_compute; reflexivity. Qed.

Definition ranked_run : result (list doc) * list query :=
  find_drink_stores_with_menu (serve [store_a; store_b] menu_ab) 0 0 ["tea"] []
    None None None None [].

Lemma stores_ranked_by_hit_count_witness :
  ok ranked_run.1 = true
  /\ field "store_id" (value_of ranked_run.1) = [Some (VStr "a"); Some (VStr "b")]
  /\ StronglySorted (fun a b => menu_size b <= menu_size a) (value_of ranked_run.1)
  /\ Forall (fun d => d !! "hit_count" = None) (value_of ranked_run.1).
Proof.
  assert (ok ranked_run.1 = true) as Hok by (vm_compute; reflexivity).
  split; [exact Hok|]. split; [vm_compute; reflexivity|].
  unfold ranked_run in *.
  destruct (find_drink_stores_with_menu (serve [store_a; store_b] menu_ab) 0 0 ["tea"] []
              None None None None []) as [[res|e] log'] eqn:Hrun; [|discriminate].
  destruct (stores_ranked_by_hit_count (serve [store_a; store_b] menu_ab) 0 0 ["tea"] []
              None None None None [] log' res ltac:(discriminate) Hrun) as (Hs & Hh & _).
  split; [exact Hs|exact Hh].
Defined.

Lemma find_drinks_no_store_witness :
  find_drinks (serve [] [oolong_foodpanda]) 0 0 ["tea"] [] None None None
    (Some "ubereats") None []
  = (Ok [], [{| collection_name := "store";
                pipeline := qualifying_pipeline 0 0 [] None None None (Some "ubereats") |}]).
Proof.
  apply (find_drinks_no_store (serve [] [oolong_foodpanda]) 0 0 ["tea"] [] None None None
           (Some "ubereats") None []).
  vm_compute. reflexivity.
Defined.

Definition priced_run : result (list doc) * list query :=
  find_drinks (serve [tea_house] [oolong_foodpanda; water]) 0 0 [] [] None None None
    (Some "ubereats") None [].

Lemma find_drinks_price_floor_witness :
  ok priced_run.1 = true
  /\ field "item_id" (value_of priced_run.1) = [Some (VStr "i1")]
  /\ Forall price_ok (value_of priced_run.1).
Proof.
  assert (ok priced_run.1 = true) as Hok by (vm_compute; reflexivity).
  split; [exact Hok|]. split; [vm_compute; reflexivity|].
  unfold priced_run in *.
  destruct (find_drinks (serve [tea_house] [oolong_foodpanda; water]) 0 0 [] [] None None
              None (Some "ubereats") None []) as [[res|e] log'] eqn:Hrun; [|discriminate].
  exact (proj2 (find_drinks_price_floor text_score geo_distance regex_match
                  (collections [tea_house] [oolong_foodpanda; water]) 0 0 [] [] None None
                  None (Some "ubereats") None [] log' res Hrun)).
Defined.

(** The run of [find_drinks], asked for ubereats, on the ubereats store s1
    and the menu item of the foodpanda store s1. *)
Definition cross_platform_run : result (list doc) * list query :=
  find_drinks (serve [tea_house] [oolong_foodpanda]) 0 0 [] [] None None None
    (Some "ubereats") None [].

(** C4.  Phase 1 finds the ubereats store s1 only; the menu item of the
    foodpanda store s1 has no phase-1 store of the same (store_id, platform),
    and yet it is returned, with the name, the URL and the brand of the
    ubereats store and with its platform. *)
Theorem find_drinks_joins_across_platforms :
  field "platform"
    (value_of (serve [tea_house] [oolong_foodpanda] "store"
                 (qualifying_pipeline 0 0 [] None None None (Some "ubereats"))))
  = [Some (VStr "ubereats")]
  /\ field "platform" [oolong_foodpanda] = [Some (VStr "foodpanda")]
  /\ ok cross_platform_run.1 = true
  /\ field "item_id" (value_of cross_platform_run.1) = field "item_id" [oolong_foodpanda]
  /\ field "platform" (value_of cross_platform_run.1) = [Some (VStr "ubereats")]
  /\ field "store_name" (value_of cross_platform_run.1) = [Some (VStr "Tea House")]
  /\ field "store_url" (value_of cross_platform_run.1)
     = [Some (VStr "https://www.ubereats.com/tw/store/s1")]
  /\ field "brand_name" (value_of cross_platform_run.1) = [Some (VStr "TH")].
Proof. repeat split; vm_compute; reflexivity. Qed.





(** *** Runs of the further properties *)

(** Store C, farther than A, with one item that matches "tea". *)
Definition store_c : doc := store_doc "c" "ubereats" "C" "" "" (2 # 100) 0.

Definition menu_abc : list doc :=
  menu_ab ++ [menu_item_doc "c1" "c" "ubereats" "tea" 30].

Definition listed_run : result (list doc) * list query :=
  find_drink_stores_with_menu (serve [store_a; store_b; store_c] menu_abc) 0 0 [] []
    None None None None [].

Lemma stores_listed_in_query_order_witness :
  ok listed_run.1 = true
  /\ field "store_id" (value_of listed_run.1)
     = [Some (VStr "b"); Some (VStr "a"); Some (VStr "c")]
  /\ map menu_size (value_of listed_run.1) = [2; 2; 1]
  /\ map collection_name listed_run.2 = ["store"; "menu_item"]
  /\ Forall (fun d => exists l, d !! "menu" = Some (VList l)) (value_of listed_run.1).
Proof.
  assert (ok listed_run.1 = true) as Hok by (vm_compute; reflexivity).
  split; [exact Hok|]. split; [vm_compute; reflexivity|].
  split; [vm_compute; reflexivity|].
  unfold listed_run in *.
  destruct (find_drink_stores_with_menu (serve [store_a; store_b; store_c] menu_abc) 0 0
              [] [] None None None None []) as [[res|e] log'] eqn:Hrun; [|discriminate].
  destruct (stores_listed_in_query_order (serve [store_a; store_b; store_c] menu_abc) 0 0
              [] None None None None [] log' res Hrun)
    as (stores & Hstores & [(-> & _ & _)|(conds & items & _ & _ & -> & _)] & Hall).
  - vm_compute in Hstores. discriminate Hstores.
  - split; [reflexivity|exact Hall].
Defined.

Definition stable_run : result (list doc) * list query :=
  find_drink_stores_with_menu (serve [store_a; store_b; store_c] menu_abc) 0 0 ["tea"] []
    None None None None [].

(** A has two matching items; B and C have one each, and B, the nearer,
    stays before C. *)
Lemma stores_ranking_stable_witness :
  ok stable_run.1 = true
  /\ field "store_id" (value_of stable_run.1)
     = [Some (VStr "a"); Some (VStr "b"); Some (VStr "c")]
  /\ exists stores menu_items,
       value_of stable_run.1 ≡ₚ map (ranked menu_items) stores
       /\ filter (fun d => menu_size d = 1) (value_of stable_run.1)
          = filter (fun d => menu_size d = 1) (map (ranked menu_items) stores).
Proof.
  assert (ok stable_run.1 = true) as Hok by (vm_compute; reflexivity).
  split; [exact Hok|]. split; [vm_compute; reflexivity|].
  unfold stable_run in *.
  destruct (find_drink_stores_with_menu (serve [store_a; store_b; store_c] menu_abc) 0 0
              ["tea"] [] None None None None []) as [[res|e] log'] eqn:Hrun; [|discriminate].
  destruct (stores_ranking_stable (serve [store_a; store_b; store_c] menu_abc) 0 0
              ["tea"] [] None None None None [] log' res ltac:(discriminate) Hrun)
    as (stores & items & _ & Hperm & Hstable).
  exists stores, items. split; [exact Hperm|apply Hstable].
Defined.

Definition relevance_run : result (list doc) * list query :=
  find_drinks (serve [store_a; store_b; store_c] menu_abc) 0 0 ["tea"] [] None None None
    None None [].

Lemma drinks_sorted_by_text_score_witness :
  ok relevance_run.1 = true
  /\ field "item_id" (value_of relevance_run.1)
     = [Some (VStr "c1"); Some (VStr "a1"); Some (VStr "b1"); Some (VStr "a2")]
  /\ map text_score_of (value_of relevance_run.1) = [2; 1; 1; 1]%Q
  /\ StronglySorted (fun a b => num_ge (score a) (score b)) (value_of relevance_run.1).
Proof.
  assert (ok relevance_run.1 = true) as Hok by (vm_compute; reflexivity).
  split; [exact Hok|]. split; [vm_compute; reflexivity|].
  split; [vm_compute; reflexivity|].
  unfold relevance_run in *.
  destruct (find_drinks (serve [store_a; store_b; store_c] menu_abc) 0 0 ["tea"] [] None
              None None None None []) as [[res|e] log'] eqn:Hrun; [|discriminate].
  exact (proj1 (proj2 (drinks_sorted_by_text_score
                         (serve [store_a; store_b; store_c] menu_abc)
                         0 0 ["tea"] [] None None None None None [] log' res
                         ltac:(discriminate) Hrun))).
Defined.

(** The sort on drinks given by their scores: one drink is returned whatever
    its score; strings are put in decreasing order; a number and a string, or
    two [None], cannot be ordered. *)
Definition scored (v : value) : doc := {["text_score" := v]}.

Lemma sort_by_text_score_cases :
  sort_by_text_score [scored (VStr "high")] = Ok [scored (VStr "high")]
  /\ sort_by_text_score [scored VNone] = Ok [scored VNone]
  /\ sort_by_text_score [scored (VStr "a"); scored (VStr "c"); scored (VStr "b")]
     = Ok [scored (VStr "c"); scored (VStr "b"); scored (VStr "a")]
  /\ sort_by_text_score [scored (VNum 1); scored (VBool true); scored (VNum 2)]
     = Ok [scored (VNum 2); scored (VNum 1); scored (VBool true)]
  /\ sort_by_text_score [scored (VList [VNum 1]); scored (VList [VNum 1; VNum 0])]
     = Ok [scored (VList [VNum 1; VNum 0]); scored (VList [VNum 1])]
  /\ ok (sort_by_text_score [scored (VNum 1); scored (VStr "a")]) = false
  /\ ok (sort_by_text_score [scored VNone; scored VNone]) = false
  /\ sort_by_text_score [scored (VNum 1); ∅] = Raise (KeyError "text_score").
Proof. repeat split; vm_compute; reflexivity. Qed.

Definition limited_run : result (list doc) * list query :=
  find_drinks (serve [store_a; store_b; store_c] menu_abc) 0 0 [] [] None None None
    None (Some 2%Z) [].

Lemma find_drinks_limit_witness :
  ok limited_run.1 = true
  /\ field "item_id" (value_of limited_run.1) = [Some (VStr "a1"); Some (VStr "b1")]
  /\ length (value_of limited_run.1) <= 2.
Proof.
  assert (ok limited_run.1 = true) as Hok by (vm_compute; reflexivity).
  split; [exact Hok|]. split; [vm_compute; reflexivity|].
  unfold limited_run in *.
  destruct (find_drinks (serve [store_a; store_b; store_c] menu_abc) 0 0 [] [] None None
              None None (Some 2%Z) []) as [[res|e] log'] eqn:Hrun; [|discriminate].
  exact (proj1 (find_drinks_limit text_score geo_distance regex_match
                  (collections [store_a; store_b; store_c] menu_abc) 0 0 [] [] None None
                  None None 2 [] log' res ltac:(lia) Hrun)).
Defined.

Definition nearby_run : result (list doc) * list query :=
  find_nearby_stores (serve [tea_house; far_tea] []) 0 0 5 None [].

Lemma find_nearby_stores_no_distance_witness :
  ok nearby_run.1 = true
  /\ field "store_id" (value_of nearby_run.1) = [Some (VStr "s1")]
  /\ Forall (fun d => d !! "distance_km" = None /\ d !! "distance_in_meter" = None)
       (value_of nearby_run.1).
Proof.
  assert (ok nearby_run.1 = true) as Hok by (vm_compute; reflexivity).
  split; [exact Hok|]. split; [vm_compute; reflexivity|].
  unfold nearby_run in *.
  destruct (find_nearby_stores (serve [tea_house; far_tea] []) 0 0 5 None [])
    as [[res|e] log'] eqn:Hrun; [|discriminate].
  apply (find_nearby_stores_no_distance text_score geo_distance regex_match
           (collections [tea_house; far_tea] []) 0 0 5 None [] log' res); [|exact Hrun].
  repeat constructor.
Defined.


(** The store of Tea House on foodpanda, whose oolong tea matches "tea":
    asked without a platform the store is found, asked for foodpanda
    nothing is. *)
Definition tea_house_foodpanda : doc :=
  store_doc "s1" "foodpanda" "Tea House" "TH" "https://www.foodpanda.com.tw/restaurant/s1"
    0 0.

Lemma tagged_search_reads_platforms_witness :
  field "store_id"
    (value_of (find_drink_stores_with_menu (serve [tea_house_foodpanda] [oolong_foodpanda])
                 0 0 ["tea"] [] None None None None []).1)
  = [Some (VStr "s1")]
  /\ find_drink_stores_with_menu (serve [tea_house_foodpanda] [oolong_foodpanda])
       0 0 ["tea"] [] None None None (Some "foodpanda") []
     = (Ok [], [{| collection_name := "menu_item";
                   pipeline := tagged_menu_pipeline ["tea"] (Some "foodpanda") |}]).
Proof.
  split; [vm_compute; reflexivity|].
  apply (tagged_search_reads_platforms text_score geo_distance regex_match
           (collections [tea_house_foodpanda] [oolong_foodpanda]) 0 0 ["tea"] [] None None
           None (Some "foodpanda") "foodpanda" []).
  - repeat constructor.
  - discriminate.
  - reflexivity.
Defined.

End Engine.

(** * Part III: the life cycle of the MongoDB driver ([driver/mongo.py]) *)

Module Lifecycle.

(** The exceptions of this part of the code. *)
Inductive error :=
| ImportError (msg : string)
| ValueError (msg : string)
| RuntimeError (msg : string)
| TypeError (msg : string)
| AttributeError (attr_name : string)
| ClientError (code : nat).      (* raised by the client library *)

Inductive outcome (A : Type) :=
| Return (a : A)
| Throw (e : error).
Arguments Return {A} a.
Arguments Throw {A} e.

(** The values of a configuration dictionary. *)
Inductive cfgval :=
| CNone
| CBool (b : bool)
| CInt (z : Z)
| CStr (s : string).

Abbreviation config := (gmap string cfgval).

(** [if v:] *)
Definition truthy (v : cfgval) : bool :=
  match v with
  | CNone => false
  | CBool b => b
  | CInt z => negb (z =? 0)%Z
  | CStr s => negb (bool_decide (s = ""))
  end.

(** [str(v)], which is also what an f-string writes for [v] *)
Definition str (v : cfgval) : string :=
  match v with
  | CNone => "None"
  | CBool true => "True"
  | CBool false => "False"
  | CInt z => pretty z
  | CStr s => s
  end.

(** [config.get(k)] and [config.get(k, default)] *)
Definition get (k : string) (c : config) : cfgval := default CNone (c !! k).

Definition get_default (k : string) (dflt : cfgval) (c : config) : cfgval :=
  default dflt (c !! k).

(** [part in whole] on strings *)
Definition contains (part whole : string) : bool :=
  bool_decide (is_Some (String.index 0 part whole)).

Section Driver.

(** The client library and the server: whether [AsyncMongoClient] could be
    imported, [int] on a string, the constructors [ServerApi] and
    [AsyncMongoClient], and the calls [client.admin.command("ping")],
    [client.close()] and [collection.aggregate(...).to_list()].  [World] is
    the state of the connections and of the server. *)
Context {World Client Api Answer : Type}.
Variable AsyncMongoClient_imported : bool.
Variable int_of_str : string -> outcome Z.
Variable ServerApi : string -> outcome Api.
Variable AsyncMongoClient : string -> Api -> Z -> Z -> World -> outcome Client * World.
Variable ping : Client -> World -> outcome unit * World.
Variable close : Client -> World -> outcome unit * World.
Variable collection_aggregate :
  Client -> string -> string -> list Engine.stage -> World -> outcome Answer * World.

(** [int(v)] *)
Definition int (v : cfgval) : outcome Z :=
  match v with
  | CNone => Throw (TypeError "int() argument must be a string or a number")
  | CBool b => Return (if b then 1 else 0)%Z
  | CInt z => Return z
  | CStr s => int_of_str s
  end.

(** The attributes of a [MongoDriver] object. *)
Record MongoDriver := {
  _driver : option Client;
  _database_name : option string;
  _connection_string : option string;
}.

(** MongoDriver.__init__ *)
Definition __init__ : MongoDriver :=
  {| _driver := None; _database_name := None; _connection_string := None |}.

(** MongoDriver._validate_dependencies *)
Definition _validate_dependencies : outcome unit :=
  if AsyncMongoClient_imported then Return tt
  else Throw (ImportError "pymongo 套件未安裝。請執行: pip install pymongo[async]").

(** MongoDriver._extract_config *)
Definition _extract_config (c : config) (self : MongoDriver) : outcome MongoDriver :=
  let database_name := get "database" c in
  let connection_string := get "connection_string" c in
  if negb (truthy connection_string) && negb (truthy database_name)
  then Throw (ValueError "必須提供 database 或 connection_string")
  else Return {| _driver := _driver self;
                 _database_name :=
                   if truthy database_name then Some (str database_name) else None;
                 _connection_string :=
                   if truthy connection_string then Some (str connection_string)
                   else None |}.

(** MongoDriver._build_connection_string *)
Definition _build_connection_string (c : config) : string :=
  let host := get_default "host" (CStr "localhost") c in
  let port := get_default "port" (CInt 27017) c in
  let username := get "username" c in
  let password := get "password" c in
  if truthy username && truthy password then
    if contains "mongodb.net" (str host)
    then "mongodb+srv://" +:+ str username +:+ ":" +:+ str password +:+ "@" +:+ str host
    else "mongodb://" +:+ str username +:+ ":" +:+ str password +:+ "@" +:+ str host
           +:+ ":" +:+ str port
  else "mongodb://" +:+ str host +:+ ":" +:+ str port.

(** The connection string [_create_driver] uses. *)
Definition uri_of (c : config) (self : MongoDriver) : string :=
  match _connection_string self with
  | Some s => if bool_decide (s = "") then _build_connection_string c else s
  | None => _build_connection_string c
  end.

(** MongoDriver._create_driver: the options are evaluated in the order of
    the dictionary display, then the client is built and stored. *)
Definition _create_driver (c : config) (self : MongoDriver) (w : World)
  : outcome Client * MongoDriver * World :=
  let uri := uri_of c self in
  match ServerApi (str (get_default "server_api" (CStr "1") c)) with
  | Throw e => (Throw e, self, w)
  | Return api =>
      match int (get_default "connect_timeout_ms" (CInt 120000) c) with
      | Throw e => (Throw e, self, w)
      | Return connect =>
          match int (get_default "socket_timeout_ms" (CInt 120000) c) with
          | Throw e => (Throw e, self, w)
          | Return socket =>
              match AsyncMongoClient uri api connect socket w with
              | (Throw e, w') => (Throw e, self, w')
              | (Return client, w') =>
                  (Return client,
                   {| _driver := Some client; _database_name := _database_name self;
                      _connection_string := _connection_string self |}, w')
              end
          end
      end
  end.

(** MongoDriver._test_connection: the error of the ping is raised again. *)
Definition _test_connection (client : Client) (w : World) : outcome unit * World :=
  ping client w.

(** MongoDriver.initialize *)
Definition initialize (c : config) (self : MongoDriver) (w : World)
  : outcome Client * MongoDriver * World :=
  match _validate_dependencies with
  | Throw e => (Throw e, self, w)
  | Return _ =>
      match _extract_config c self with
      | Throw e => (Throw e, self, w)
      | Return self1 =>
          match _create_driver c self1 w with
          | (Throw e, self2, w2) => (Throw e, self2, w2)
          | (Return client, self2, w2) =>
              match _test_connection client w2 with
              | (Throw e, w3) => (Throw e, self2, w3)
              | (Return _, w3) => (Return client, self2, w3)
              end
          end
      end
  end.

(** MongoDriver._reset_state *)
Definition _reset_state (self : MongoDriver) : MongoDriver :=
  {| _driver := None; _database_name := None; _connection_string := None |}.

(** MongoDriver.cleanup: an error of [close] is logged, and the state is
    reset in the [finally] clause.  [instance] is [None] or a client. *)
Definition cleanup (instance : option Client) (self : MongoDriver) (w : World)
  : unit * MongoDriver * World :=
  let w' :=
    match instance with
    | Some client => (close client w).2
    | None => w
    end in
  (tt, _reset_state self, w').

(** MongoDriver._is_initialized *)
Definition _is_initialized (self : MongoDriver) : bool :=
  bool_decide (is_Some (_driver self))
  && (bool_decide (is_Some (_database_name self))
      || bool_decide (is_Some (_connection_string self))).

(** MongoDriver._perform_health_check: any error gives [False]. *)
Definition _perform_health_check (instance : option Client) (w : World) : bool * World :=
  match instance with
  | Some client =>
      match ping client w with
      | (Return _, w') => (true, w')
      | (Throw _, w') => (false, w')
      end
  | None => (false, w)
  end.

(** MongoDriver.health_check *)
Definition health_check (instance : option Client) (self : MongoDriver) (w : World)
  : bool * World :=
  if negb (_is_initialized self) then (false, w)
  else _perform_health_check instance w.

Definition not_initialized : string :=
  "MongoDriver 尚未初始化，請先呼叫 initialize() 方法".

Definition no_database_name : string :=
  "必須提供 database_name 或在初始化時設定預設資料庫名稱".

(** MongoDriver._ensure_initialized *)
Definition _ensure_initialized (self : MongoDriver) : outcome unit :=
  if negb (_is_initialized self) then Throw (RuntimeError not_initialized)
  else Return tt.

(** [x or y] on a string-or-None *)
Definition or_else (x y : option string) : option string :=
  match x with
  | Some s => if bool_decide (s = "") then y else x
  | None => y
  end.

(** MongoDriver.get_database: the database object is the client indexed by
    the name. *)
Definition get_database (database_name : option string) (self : MongoDriver)
  : outcome (Client * string) :=
  match _ensure_initialized self with
  | Throw e => Throw e
  | Return _ =>
      match or_else database_name (_database_name self) with
      | Some name =>
          if bool_decide (name = "") then Throw (ValueError no_database_name)
          else match _driver self with
               | Some client => Return (client, name)
               | None => Throw (TypeError "'NoneType' object is not subscriptable")
               end
      | None => Throw (ValueError no_database_name)
      end
  end.

(** MongoDriver.get_collection *)
Definition get_collection (collection_name : string) (database_name : option string)
    (self : MongoDriver) : outcome (Client * string * string) :=
  match get_database database_name self with
  | Throw e => Throw e
  | Return database => Return (database, collection_name)
  end.

(** MongoDriver.aggregate *)
Definition aggregate (collection_name : string) (pipeline : list Engine.stage)
    (database_name : option string) (self : MongoDriver) (w : World)
  : outcome Answer * World :=
  match get_collection collection_name database_name self with
  | Throw e => (Throw e, w)
  | Return (client, database, collection) =>
      collection_aggregate client database collection pipeline w
  end.

(** ** Properties *)

Lemma extract_config_ok (c : config) (self self1 : MongoDriver) :
  _extract_config c self = Return self1 ->
  _driver self1 = _driver self
  /\ (is_Some (_database_name self1) \/ is_Some (_connection_string self1))
  /\ _database_name self1
     = (if truthy (get "database" c) then Some (str (get "database" c)) else None)
  /\ _connection_string self1
     = (if truthy (get "connection_string" c) then Some (str (get "connection_string" c))
        else None).
Proof.
  unfold _extract_config.
  destruct (truthy (get "connection_string" c)) eqn:Hc;
    destruct (truthy (get "database" c)) eqn:Hd; cbn; try discriminate;
    intros H; inversion H; subst; cbn; eauto 10.
Qed.

Lemma create_driver_state (c : config) (self self2 : MongoDriver) (w w2 : World)
    (r : outcome Client) :
  _create_driver c self w = (r, self2, w2) ->
  _database_name self2 = _database_name self
  /\ _connection_string self2 = _connection_string self
  /\ match r with
     | Return client => _driver self2 = Some client
     | Throw _ => self2 = self
     end.
Proof.
  unfold _create_driver.
  destruct (ServerApi _) as [api|e]; [|intros H; inversion H; subst; auto].
  destruct (int (get_default "connect_timeout_ms" _ c)) as [connect|e];
    [|intros H; inversion H; subst; auto].
  destruct (int (get_default "socket_timeout_ms" _ c)) as [socket|e];
    [|intros H; inversion H; subst; auto].
  destruct (AsyncMongoClient _ api connect socket w) as [[client|e] w'];
    intros H; inversion H; subst; auto.
Qed.

(** X18.  What a successful [initialize] establishes: the client returned
    is the one the driver object keeps, the object counts as initialized,
    the default database is the configured one (none when only a connection
    string was given), the connection was tested, and a health check made
    then pings the server. *)
Theorem initialize_establishes (c : config) (self self' : MongoDriver) (w w' : World)
    (client : Client) :
  initialize c self w = (Return client, self', w') ->
  _driver self' = Some client
  /\ _is_initialized self' = true
  /\ _database_name self'
     = (if truthy (get "database" c) then Some (str (get "database" c)) else None)
  /\ (exists w2, ping client w2 = (Return tt, w'))
  /\ health_check (Some client) self' w'
     = (match (ping client w').1 with Return _ => true | Throw _ => false end,
        (ping client w').2).
Proof.
  unfold initialize.
  destruct _validate_dependencies as [u|e]; [|discriminate].
  destruct (_extract_config c self) as [self1|e] eqn:Hext; [|discriminate].
  destruct (_create_driver c self1 w) as [[[cl|e] self2] w2] eqn:Hcreate; [|discriminate].
  unfold _test_connection.
  destruct (ping cl w2) as [[[]|e] w3] eqn:Hping; [|discriminate].
  intros H; inversion H; subst; clear H.
  destruct (extract_config_ok c self self1 Hext) as (_ & Hsome & Hdb & _).
  destruct (create_driver_state c self1 self' w w2 _ Hcreate) as (Hd & Hc & Hdrv).
  assert (_is_initialized self' = true) as Hinit.
  { unfold _is_initialized. rewrite Hdrv, Hd, Hc.
    rewrite bool_decide_eq_true_2 by eauto. cbn.
    destruct Hsome as [Hs|Hs];
      rewrite (bool_decide_eq_true_2 _ Hs); [reflexivity|apply orb_true_r]. }
  split; [exact Hdrv|]. split; [exact Hinit|]. split; [congruence|].
  split; [eauto|].
  unfold health_check, _perform_health_check. rewrite Hinit. cbn [negb].
  destruct (ping client w') as [[u'|e'] w4]; reflexivity.
Qed.

(** X19.  An [initialize] that fails at the connection test raises the
    error of the ping, but the client has been stored by then: the driver
    object is left initialized, so a health check goes on to ping and the
    query methods pass [_ensure_initialized]. *)
Theorem initialize_failed_ping (c : config) (self self1 self2 : MongoDriver)
    (w w2 w3 : World) (client : Client) (e : error) :
  AsyncMongoClient_imported = true ->
  _extract_config c self = Return self1 ->
  _create_driver c self1 w = (Return client, self2, w2) ->
  ping client w2 = (Throw e, w3) ->
  initialize c self w = (Throw e, self2, w3)
  /\ _driver self2 = Some client
  /\ _is_initialized self2 = true
  /\ _ensure_initialized self2 = Return tt.
Proof.
  intros Himp Hext Hcreate Hping.
  destruct (extract_config_ok c self self1 Hext) as (_ & Hsome & _).
  destruct (create_driver_state c self1 self2 w w2 _ Hcreate) as (Hd & Hc & Hdrv).
  assert (_is_initialized self2 = true) as Hinit.
  { unfold _is_initialized. rewrite Hdrv, Hd, Hc.
    rewrite bool_decide_eq_true_2 by eauto. cbn.
    destruct Hsome as [Hs|Hs];
      rewrite (bool_decide_eq_true_2 _ Hs); [reflexivity|apply orb_true_r]. }
  split; [|split; [exact Hdrv|split; [exact Hinit|]]].
  - unfold initialize, _validate_dependencies, _test_connection.
    rewrite Himp, Hext, Hcreate, Hping. reflexivity.
  - unfold _ensure_initialized. rewrite Hinit. reflexivity.
Qed.

(** X20.  [cleanup] always returns, with the driver object reset, whether
    there is an instance or not and whether closing it fails or not.
    Afterwards a health check answers [False] without pinging, and
    [get_database], [get_collection] and [aggregate] raise [RuntimeError]
    without asking the server anything. *)
Theorem cleanup_resets (instance : option Client) (self : MongoDriver) (w : World) :
  (cleanup instance self w).1.2 = __init__
  /\ (forall instance' w', health_check instance' (cleanup instance self w).1.2 w'
                           = (false, w'))
  /\ (forall name, get_database name (cleanup instance self w).1.2
                   = Throw (RuntimeError not_initialized))
  /\ (forall coll pipeline name w',
        aggregate coll pipeline name (cleanup instance self w).1.2 w'
        = (Throw (RuntimeError not_initialized), w')).
Proof. repeat split. Qed.

(** X21.  Which database [get_database] gives once [initialize] has
    succeeded: the name asked for when it is a non-empty string, otherwise
    the configured database; with no name and no configured database (a
    connection string only) it raises [ValueError]. *)
Theorem get_database_resolution (c : config) (self self' : MongoDriver) (w w' : World)
    (client : Client) (database_name : option string) :
  initialize c self w = (Return client, self', w') ->
  get_database database_name self'
  = match or_else database_name
            (if truthy (get "database" c) then Some (str (get "database" c)) else None)
    with
    | Some name =>
        if bool_decide (name = "") then Throw (ValueError no_database_name)
        else Return (client, name)
    | None => Throw (ValueError no_database_name)
    end.
Proof.
  unfold initialize.
  destruct _validate_dependencies as [u|e]; [|discriminate].
  destruct (_extract_config c self) as [self1|e] eqn:Hext; [|discriminate].
  destruct (_create_driver c self1 w) as [[[cl|e] self2] w2] eqn:Hcreate; [|discriminate].
  unfold _test_connection.
  destruct (ping cl w2) as [[[]|e] w3] eqn:Hping; [|discriminate].
  intros H; inversion H; subst; clear H.
  destruct (extract_config_ok c self self1 Hext) as (_ & Hsome & Hdb & _).
  destruct (create_driver_state c self1 self' w w2 _ Hcreate) as (Hd & Hc & Hdrv).
  unfold get_database, _ensure_initialized, _is_initialized.
  rewrite Hdrv, Hd, Hc, <- Hdb.
  rewrite bool_decide_eq_true_2 by eauto. cbn [andb].
  assert (bool_decide (is_Some (_database_name self1))
          || bool_decide (is_Some (_connection_string self1)) = true) as ->.
  { destruct Hsome as [Hs|Hs];
      rewrite (bool_decide_eq_true_2 _ Hs); [reflexivity|apply orb_true_r]. }
  reflexivity.
Qed.

(** X22.  A connection string takes precedence: when the configuration
    gives one, the client is built from it alone, and [host], [port],
    [username] and [password] have no effect on what [initialize] does. *)
Theorem connection_string_takes_precedence (c1 c2 : config) (s : string)
    (self : MongoDriver) (w : World) :
  s <> "" ->
  get "connection_string" c1 = CStr s ->
  get "connection_string" c2 = CStr s ->
  c1 !! "database" = c2 !! "database" ->
  c1 !! "server_api" = c2 !! "server_api" ->
  c1 !! "connect_timeout_ms" = c2 !! "connect_timeout_ms" ->
  c1 !! "socket_timeout_ms" = c2 !! "socket_timeout_ms" ->
  initialize c1 self w = initialize c2 self w
  /\ exists self1, _extract_config c1 self = Return self1 /\ uri_of c1 self1 = s.
Proof.
  intros Hs H1 H2 Hdb Hapi Hconnect Hsocket.
  assert (truthy (CStr s) = true) as Htrue.
  { cbn. rewrite bool_decide_eq_false_2 by exact Hs. reflexivity. }
  assert (get "database" c1 = get "database" c2) as Hget
    by (unfold get; rewrite Hdb; reflexivity).
  assert (forall c, get "connection_string" c = CStr s ->
            _extract_config c self
            = Return {| _driver := _driver self;
                        _database_name :=
                          if truthy (get "database" c) then Some (str (get "database" c))
                          else None;
                        _connection_string := Some s |}) as Hext.
  { intros c Hc. unfold _extract_config. rewrite Hc, Htrue. reflexivity. }
  assert (forall c self1, _connection_string self1 = Some s -> uri_of c self1 = s) as Huri.
  { intros c self1 Hc. unfold uri_of. rewrite Hc.
    rewrite bool_decide_eq_false_2 by exact Hs. reflexivity. }
  split.
  - unfold initialize. rewrite (Hext c1 H1), (Hext c2 H2), Hget.
    destruct _validate_dependencies as [u|e]; [|reflexivity].
    unfold _create_driver, get_default.
    rewrite !Huri by reflexivity. rewrite Hapi, Hconnect, Hsocket. reflexivity.
  - eexists. split; [apply (Hext c1 H1)|]. apply Huri. reflexivity.
Qed.

End Driver.

(** ** Runs *)

(** A library in which every import and constructor succeeds; a client is
    the number of commands sent before it was created, and the world counts
    the commands. *)
Definition new_client (uri : string) (api : string) (connect socket : Z) (w : nat)
  : outcome nat * nat :=
  (Return w, S w).

Definition server_api (version : string) : outcome string :=
  if bool_decide (version = "1") then Return version else Throw (ClientError 1).

Definition no_int (s : string) : outcome Z :=
  Throw (ValueError "invalid literal for int()").

Definition ping_up (client : nat) (w : nat) : outcome unit * nat := (Return tt, S w).

Definition ping_down (client : nat) (w : nat) : outcome unit * nat :=
  (Throw (ClientError 2), S w).

(** A configuration with a connection string and a database, as the
    application gives, and one with a connection string only. *)
Definition atlas_config : config :=
  <["connection_string" := CStr "mongodb+srv://u:p@db.example.mongodb.net"]>
    (<["database" := CStr "db"]> ∅).

Definition uri_only_config : config :=
  <["connection_string" := CStr "mongodb://localhost:27017"]> ∅.

Definition started : outcome nat * MongoDriver * nat :=
  initialize true no_int server_api new_client ping_up atlas_config __init__ 0.

Definition started_uri_only : outcome nat * MongoDriver * nat :=
  initialize true no_int server_api new_client ping_up uri_only_config __init__ 0.

Lemma initialize_establishes_witness :
  _driver started.1.2 = Some 0
  /\ _is_initialized started.1.2 = true
  /\ _database_name started.1.2 = Some "db".
Proof.
  assert (started = (Return 0, started.1.2, started.2)) as H by (vm_compute; reflexivity).
  unfold started at 1 in H.
  apply initialize_establishes in H as (Hd & Hi & Hn & _).
  split; [exact Hd|]. split; [exact Hi|]. rewrite Hn. reflexivity.
Defined.

Lemma initialize_failed_ping_witness :
  exists self2,
    initialize true no_int server_api new_client ping_down atlas_config __init__ 0
    = (Throw (ClientError 2), self2, 2)
    /\ _driver self2 = Some 0
    /\ _is_initialized self2 = true.
Proof.
  destruct (initialize_failed_ping true no_int server_api new_client ping_down atlas_config
              __init__
              {| _driver := None; _database_name := Some "db";
                 _connection_string := Some "mongodb+srv://u:p@db.example.mongodb.net" |}
              {| _driver := Some 0; _database_name := Some "db";
                 _connection_string := Some "mongodb+srv://u:p@db.example.mongodb.net" |}
              0 1 2 0 (ClientError 2))
    as (Hi & Hd & Hinit & _); [reflexivity| vm_compute; reflexivity
                              | vm_compute; reflexivity | reflexivity |].
  eexists. split; [exact Hi|]. split; [exact Hd|exact Hinit].
Defined.

Lemma get_database_resolution_witness :
  get_database None started.1.2 = Return (0, "db")
  /\ get_database (Some "") started.1.2 = Return (0, "db")
  /\ get_database (Some "other") started.1.2 = Return (0, "other")
  /\ get_database None started_uri_only.1.2 = Throw (ValueError no_database_name).
Proof.
  assert (started = (Return 0, started.1.2, started.2)) as H by (vm_compute; reflexivity).
  assert (started_uri_only = (Return 0, started_uri_only.1.2, started_uri_only.2)) as H'
    by (vm_compute; reflexivity).
  unfold started at 1 in H. unfold started_uri_only at 1 in H'.
  split; [|split; [|split]].
  - rewrite (get_database_resolution _ _ _ _ _ _ _ _ _ _ _ None H). reflexivity.
  - rewrite (get_database_resolution _ _ _ _ _ _ _ _ _ _ _ (Some "") H). reflexivity.
  - rewrite (get_database_resolution _ _ _ _ _ _ _ _ _ _ _ (Some "other") H). reflexivity.
  - rewrite (get_database_resolution _ _ _ _ _ _ _ _ _ _ _ None H'). reflexivity.
Defined.

(** The same configuration with a host, a port and credentials besides. *)
Definition atlas_config_with_host : config :=
  <["host" := CStr "db.internal"]> (<["port" := CInt 27018]>
    (<["username" := CStr "root"]> (<["password" := CStr "secret"]> atlas_config))).

Lemma connection_string_takes_precedence_witness :
  initialize true no_int server_api new_client ping_up atlas_config_with_host __init__ 0
  = started.
Proof.
  apply (connection_string_takes_precedence true no_int server_api new_client ping_up
           atlas_config_with_host atlas_config
           "mongodb+srv://u:p@db.example.mongodb.net" __init__ 0);
    [discriminate|reflexivity..].
Defined.


End Lifecycle.

(** * Part IV: the life cycle of the Cloud Storage driver ([driver/storage.py]) *)

Module Storage.

Import Lifecycle.

(** An attribute of an object.  [__init__] only annotates the attributes of
    a [StorageDriver], which creates none of them; reading an attribute that
    has not been assigned raises [AttributeError]. *)
Inductive attribute (A : Type) :=
| Unset
| Value (a : A).
Arguments Unset {A}.
Arguments Value {A} a.

Definition getattr {A : Type} (attr_name : string) (x : attribute A) : outcome A :=
  match x with
  | Value a => Return a
  | Unset => Throw (AttributeError attr_name)
  end.

Section Driver.

(** The client library and the service: whether [Storage] could be
    imported, the constructor [Storage] given the service file and the API
    root it is passed as keyword arguments, and the calls
    [client.list_buckets(project)], which answers a number of buckets, and
    [client.close()]. *)
Context {World Client : Type}.
Variable Storage_imported : bool.
Variable new_storage : option cfgval -> option cfgval -> World -> outcome Client * World.
Variable list_buckets : Client -> string -> World -> outcome nat * World.
Variable close : Client -> World -> outcome unit * World.

(** The attributes of a [StorageDriver] object. *)
Record StorageDriver := {
  _driver : attribute (option Client);
  _project : attribute string;
  _default_bucket : attribute (option string);
}.

(** StorageDriver.__init__ *)
Definition __init__ : StorageDriver :=
  {| _driver := Unset; _project := Unset; _default_bucket := Unset |}.

(** StorageDriver._validate_dependencies *)
Definition _validate_dependencies : outcome unit :=
  if Storage_imported then Return tt
  else Throw (ImportError "gcloud-aio-storage package is required for StorageDriver").

(** StorageDriver._extract_config *)
Definition _extract_config (c : config) (self : StorageDriver) : outcome StorageDriver :=
  let project := get "project" c in
  let default_bucket := get "default_bucket" c in
  if negb (truthy project) then Throw (ValueError "project is required for StorageDriver")
  else Return {| _driver := _driver self;
                 _project := Value (str project);
                 _default_bucket :=
                   Value (if truthy default_bucket then Some (str default_bucket)
                          else None) |}.

(** [if v := config.get(k): client_kwargs[k] = v] *)
Definition kwarg (k : string) (c : config) : option cfgval :=
  if truthy (get k c) then Some (get k c) else None.

(** StorageDriver._create_driver *)
Definition _create_driver (c : config) (self : StorageDriver) (w : World)
  : outcome Client * StorageDriver * World :=
  match new_storage (kwarg "service_file" c) (kwarg "api_root" c) w with
  | (Throw e, w') => (Throw e, self, w')
  | (Return client, w') =>
      (Return client,
       {| _driver := Value (Some client); _project := _project self;
          _default_bucket := _default_bucket self |}, w')
  end.

(** StorageDriver._test_connection: whatever is raised in the [try] block is
    logged as a warning. *)
Definition _test_connection (client : Client) (self : StorageDriver) (w : World)
  : unit * World :=
  match getattr "_project" (_project self) with
  | Throw _ => (tt, w)
  | Return project => (tt, (list_buckets client project w).2)
  end.

(** StorageDriver.initialize *)
Definition initialize (c : config) (self : StorageDriver) (w : World)
  : outcome Client * StorageDriver * World :=
  match _validate_dependencies with
  | Throw e => (Throw e, self, w)
  | Return _ =>
      match _extract_config c self with
      | Throw e => (Throw e, self, w)
      | Return self1 =>
          match _create_driver c self1 w with
          | (Throw e, self2, w2) => (Throw e, self2, w2)
          | (Return client, self2, w2) =>
              let '(_, w3) := _test_connection client self2 w2 in
              (Return client, self2, w3)
          end
      end
  end.

(** StorageDriver._reset_state *)
Definition _reset_state (self : StorageDriver) : StorageDriver :=
  {| _driver := Value None; _project := _project self;
     _default_bucket := _default_bucket self |}.

(** StorageDriver.cleanup: the state is reset inside the [try] block, after
    [close]; whatever is raised there is logged.  [instance] is [None] or a
    client, and closing [None] raises. *)
Definition cleanup (instance : option Client) (self : StorageDriver) (w : World)
  : unit * StorageDriver * World :=
  match instance with
  | Some client =>
      match close client w with
      | (Return _, w') => (tt, _reset_state self, w')
      | (Throw _, w') => (tt, self, w')
      end
  | None => (tt, self, w)
  end.

(** StorageDriver._is_initialized *)
Definition _is_initialized (self : StorageDriver) : outcome bool :=
  match getattr "_project" (_project self) with
  | Throw e => Throw e
  | Return _ =>
      match getattr "_driver" (_driver self) with
      | Throw e => Throw e
      | Return driver => Return (bool_decide (is_Some driver))
      end
  end.

(** StorageDriver._perform_health_check: any error gives [False]. *)
Definition _perform_health_check (instance : option Client) (self : StorageDriver)
    (w : World) : bool * World :=
  match instance, getattr "_project" (_project self) with
  | Some client, Return project =>
      match list_buckets client project w with
      | (Return _, w') => (true, w')
      | (Throw _, w') => (false, w')
      end
  | _, _ => (false, w)
  end.

(** StorageDriver.health_check *)
Definition health_check (instance : option Client) (self : StorageDriver) (w : World)
  : outcome bool * World :=
  match _is_initialized self with
  | Throw e => (Throw e, w)
  | Return false => (Return false, w)
  | Return true =>
      let '(is_healthy, w') := _perform_health_check instance self w in
      (Return is_healthy, w')
  end.

Definition not_initialized : string :=
  "StorageDriver not initialized. Call initialize() first.".

(** StorageDriver._ensure_initialized *)
Definition _ensure_initialized (self : StorageDriver) : outcome unit :=
  match getattr "_driver" (_driver self) with
  | Throw e => Throw e
  | Return None => Throw (RuntimeError not_initialized)
  | Return (Some _) =>
      match getattr "_project" (_project self) with
      | Throw e => Throw e
      | Return project =>
          if bool_decide (project = "") then Throw (RuntimeError not_initialized)
          else Return tt
      end
  end.

(** ** Properties *)

(** X23.  The connection test of the storage driver is advisory: once the
    configuration names a project and the client has been built,
    [initialize] returns the client whether listing the buckets succeeds or
    raises, and the driver object counts as initialized. *)
Theorem storage_initialize_ignores_test (c : config) (self : StorageDriver) (w w2 : World)
    (client : Client) :
  Storage_imported = true ->
  truthy (get "project" c) = true ->
  new_storage (kwarg "service_file" c) (kwarg "api_root" c) w = (Return client, w2) ->
  exists self',
    initialize c self w
    = (Return client, self', (list_buckets client (str (get "project" c)) w2).2)
    /\ _driver self' = Value (Some client)
    /\ _is_initialized self' = Return true.
Proof.
  intros Himp Hproj Hnew.
  unfold initialize, _validate_dependencies, _extract_config, _create_driver.
  rewrite Himp, Hproj. cbn [negb]. cbn [_driver _project _default_bucket].
  rewrite Hnew. unfold _test_connection. cbn [_project getattr].
  eexists. split; [reflexivity|]. split; [reflexivity|].
  unfold _is_initialized. cbn [_project _driver getattr].
  rewrite bool_decide_eq_true_2 by eauto. reflexivity.
Qed.

(** X24.  [cleanup] of the storage driver resets the driver object only
    when [close] returns.  When [close] raises, [cleanup] still returns
    normally but the object keeps its client: it still counts as
    initialized and a health check still asks the service.  When [close]
    returns, the client is dropped and a health check answers [False]
    without asking. *)
Theorem storage_cleanup_failed_close (self : StorageDriver) (client : Client)
    (project : string) (w w' : World) (r : outcome unit) :
  _driver self = Value (Some client) ->
  _project self = Value project ->
  close client w = (r, w') ->
  match r with
  | Throw _ =>
      (cleanup (Some client) self w).1.2 = self
      /\ _is_initialized (cleanup (Some client) self w).1.2 = Return true
      /\ forall w1, health_check (Some client) (cleanup (Some client) self w).1.2 w1
                    = (Return (match (list_buckets client project w1).1 with
                               | Return _ => true
                               | Throw _ => false
                               end), (list_buckets client project w1).2)
  | Return _ =>
      _driver (cleanup (Some client) self w).1.2 = Value None
      /\ forall instance w1,
           health_check instance (cleanup (Some client) self w).1.2 w1 = (Return false, w1)
  end.
Proof.
  intros Hd Hp Hclose. unfold cleanup. rewrite Hclose.
  destruct r as [u|e]; cbn [fst snd].
  - split; [reflexivity|]. intros instance w1.
    unfold health_check, _is_initialized, _reset_state. cbn [_project _driver].
    rewrite Hp. cbn [getattr].
    rewrite bool_decide_eq_false_2; [reflexivity|]. intros [x Hx]. discriminate.
  - split; [reflexivity|].
    assert (_is_initialized self = Return true) as Hinit.
    { unfold _is_initialized. rewrite Hp, Hd. cbn [getattr].
      rewrite bool_decide_eq_true_2 by eauto. reflexivity. }
    split; [exact Hinit|]. intros w1.
    unfold health_check, _perform_health_check. rewrite Hinit, Hp. cbn [getattr].
    destruct (list_buckets client project w1) as [[n|e'] w2]; reflexivity.
Qed.

(** X25.  A storage driver whose [initialize] has failed has not all its
    attributes: whatever made [initialize] fail (the import, the
    configuration, the construction of the client), a health check made on
    the object afterwards raises [AttributeError] instead of answering
    [False], and so does [_ensure_initialized] instead of raising
    [RuntimeError]. *)
Theorem storage_failed_initialize (c : config) (self' : StorageDriver) (w w' : World)
    (e : error) :
  initialize c __init__ w = (Throw e, self', w') ->
  (forall instance w1,
     exists attr_name,
       health_check instance self' w1 = (Throw (AttributeError attr_name), w1))
  /\ _ensure_initialized self' = Throw (AttributeError "_driver").
Proof.
  unfold initialize.
  destruct _validate_dependencies as [u|e0].
  2:{ intros H; inversion H; subst. split; [|reflexivity]. intros. eexists. reflexivity. }
  unfold _extract_config.
  destruct (truthy (get "project" c)); cbn [negb].
  2:{ intros H; inversion H; subst. split; [|reflexivity]. intros. eexists. reflexivity. }
  unfold _create_driver. cbn [_driver _project _default_bucket __init__].
  destruct (new_storage _ _ w) as [[client|e0] w2].
  - unfold _test_connection. cbn [_project getattr].
    destruct (list_buckets client _ w2); discriminate.
  - intros H; inversion H; subst. split; [|reflexivity]. intros. eexists. reflexivity.
Qed.

End Driver.

(** ** Runs *)

Definition storage_client (service_file api_root : option cfgval) (w : nat)
  : outcome nat * nat :=
  (Return w, S w).

Definition no_credentials (service_file api_root : option cfgval) (w : nat)
  : outcome nat * nat :=
  (Throw (ClientError 5), w).

Definition buckets_down (client : nat) (project : string) (w : nat) : outcome nat * nat :=
  (Throw (ClientError 3), S w).

Definition close_fails (client : nat) (w : nat) : outcome unit * nat :=
  (Throw (ClientError 4), S w).

(** The configuration the application gives: a project. *)
Definition project_config : config := <["project" := CStr "cake"]> ∅.

Lemma storage_initialize_ignores_test_witness :
  exists self',
    initialize true storage_client buckets_down project_config __init__ 0
    = (Return 0, self', 2)
    /\ _is_initialized self' = Return true.
Proof.
  destruct (storage_initialize_ignores_test true storage_client buckets_down
              project_config __init__ 0 1 0) as (self' & Hi & _ & Hinit);
    [reflexivity|reflexivity|reflexivity|].
  exists self'. split; [exact Hi|exact Hinit].
Defined.

Lemma storage_cleanup_failed_close_witness :
  let self := {| _driver := Value (Some 0); _project := Value "cake";
                 _default_bucket := Value None |} in
  (cleanup close_fails (Some 0) self 2).1.2 = self
  /\ _is_initialized (cleanup close_fails (Some 0) self 2).1.2 = Return true.
Proof.
  intros self.
  destruct (storage_cleanup_failed_close buckets_down close_fails self 0 "cake" 2 3
              (Throw (ClientError 4)) eq_refl eq_refl eq_refl) as (Hs & Hi & _).
  split; [exact Hs|exact Hi].
Defined.

Lemma storage_failed_initialize_witness :
  initialize true no_credentials buckets_down project_config __init__ 0
  = (Throw (ClientError 5),
     {| _driver := Unset; _project := Value "cake"; _default_bucket := Value None |}, 0)
  /\ exists attr_name,
       health_check buckets_down (Some 0)
         {| _driver := Unset; _project := Value "cake"; _default_bucket := Value None |} 7
       = (Throw (AttributeError attr_name), 7).
Proof.
  assert (initialize true no_credentials buckets_down project_config __init__ 0
          = (Throw (ClientError 5),
             {| _driver := Unset; _project := Value "cake"; _default_bucket := Value None |},
             0)) as H by reflexivity.
  split; [exact H|].
  apply (storage_failed_initialize true no_credentials buckets_down) in H as [Hh _].
  apply Hh.
Defined.

End Storage.

(** * Part V: the simplified drinks of the service layer ([service/mongo.py]) *)

Module Service.

Import Engine.

(** The keyword arguments with which [_convert_to_simplified_drinks] builds
    a [SimplifiedDrinkItem]. *)
Record SimplifiedDrinkItem := {
  name : value;
  description : value;
  image_url : value;
  store_name : value;
  store_id : value;
  store_url : string;
}.

Inductive converted (A : Type) :=
| Converted (a : A)
| AttributeError (msg : string).   (* [.get] on a value that is not a dict *)
Arguments Converted {A} a.
Arguments AttributeError {A} msg.

Section Convert.

(** What an f-string writes for a value that is not a string. *)
Variable format_other : value -> string.

Definition format (v : value) : string :=
  match v with
  | VStr s => s
  | _ => format_other v
  end.

(** _build_store_url *)
Definition _build_store_url (store_id platform : value) : string :=
  if py_eq platform (VStr "ubereats")
  then "https://www.ubereats.com/tw/store/" +:+ format store_id
  else if py_eq platform (VStr "foodpanda")
  then "https://www.foodpanda.com.tw/restaurant/" +:+ format store_id
  else "".

(** [d.get(k, default)] *)
Definition get_default (k : string) (dflt : value) (d : doc) : value :=
  default dflt (d !! k).

(** The body of the loop of [_convert_to_simplified_drinks]. *)
Definition convert_drink (drink : doc) : converted SimplifiedDrinkItem :=
  match get_default "store" (VDict ∅) drink with
  | VDict store_data =>
      let store_name := get_default "name" (VStr "") store_data in
      let store_id := get_default "store_id" (VStr "") store_data in
      let platform := get_default "platforms" (VStr "ubereats") store_data in
      Converted {| name := get_default "name" (VStr "") drink;
                   description := dict_get "description" drink;
                   image_url := VNone;
                   store_name := store_name;
                   store_id := store_id;
                   store_url := _build_store_url store_id platform |}
  | _ => AttributeError "get"
  end.

(** _convert_to_simplified_drinks *)
Fixpoint _convert_to_simplified_drinks (raw_drinks : list doc)
  : converted (list SimplifiedDrinkItem) :=
  match raw_drinks with
  | [] => Converted []
  | drink :: rest =>
      match convert_drink drink with
      | AttributeError msg => AttributeError msg
      | Converted simplified_drink =>
          match _convert_to_simplified_drinks rest with
          | AttributeError msg => AttributeError msg
          | Converted simplified_drinks => Converted (simplified_drink :: simplified_drinks)
          end
      end
  end.

Lemma append_inj (p a b : string) : p +:+ a = p +:+ b -> a = b.
Proof. induction p as [|c p IH]; cbn; [auto|]. intros H. inversion H. auto. Qed.

(** X26.  The store URL is empty exactly for a platform other than
    "ubereats" and "foodpanda", and for those two it determines the store
    identifier. *)
Theorem store_url_by_platform (platform : value) :
  (forall store_id,
     _build_store_url store_id platform = ""
     <-> py_eq platform (VStr "ubereats") = false
         /\ py_eq platform (VStr "foodpanda") = false)
  /\ (forall a b,
        _build_store_url (VStr a) platform = _build_store_url (VStr b) platform ->
        _build_store_url (VStr a) platform <> "" -> a = b).
Proof.
  unfold _build_store_url. split.
  - intros store_id.
    destruct (py_eq platform (VStr "ubereats"));
      [split; [intros H; vm_compute in H; discriminate H|intros [H _]; discriminate H]|].
    destruct (py_eq platform (VStr "foodpanda"));
      [split; [intros H; vm_compute in H; discriminate H|intros [_ H]; discriminate H]|].
    split; auto.
  - intros a b H Hne.
    destruct (py_eq platform (VStr "ubereats")); [apply append_inj in H; exact H|].
    destruct (py_eq platform (VStr "foodpanda")); [apply append_inj in H; exact H|].
    congruence.
Qed.

Lemma convert_without_store (drinks : list doc) :
  Forall (fun d : doc => d !! "store" = None) drinks ->
  exists items,
    _convert_to_simplified_drinks drinks = Converted items
    /\ length items = length drinks
    /\ Forall (fun s => store_name s = VStr "" /\ store_id s = VStr ""
                        /\ store_url s = "https://www.ubereats.com/tw/store/") items.
Proof.
  induction 1 as [|d drinks Hd _ (items & Hc & Hl & Hall)].
  - exists []. repeat split. constructor.
  - cbn [_convert_to_simplified_drinks]. unfold convert_drink at 1, get_default at 1.
    rewrite Hd. cbn [default]. rewrite Hc. eexists. split; [reflexivity|].
    split; [cbn; rewrite Hl; reflexivity|].
    constructor; [|exact Hall]. cbn. unfold get_default. rewrite !lookup_empty. cbn.
    repeat split.
Qed.

Section Served.

Variable text_score : string -> doc -> option Q.
Variable geo_distance : Q -> Q -> doc -> option Q.
Variable regex_match : string -> string -> string -> bool.
Variable db : string -> list doc.

(** X27.  The conversion looks for the store of a drink under the key
    [store], and [find_drinks] returns flat drinks, which have no such key.
    So the conversion of any result of [find_drinks] succeeds, gives one
    item per drink, and gives every item an empty [store_name], an empty
    [store_id], and the bare ubereats prefix as [store_url]. *)
Theorem simplified_drinks_lose_store (longitude latitude : Q)
    (drink_tags brands : list string) (review_count_range : option (Z * Z))
    (rating_range : option (Q * Q)) (distance_range : option (Z * Z))
    (platform : option string) (limit : option Z) (log log' : list query)
    (raw_drinks : list doc) :
  find_drinks (served text_score geo_distance regex_match db) longitude latitude
    drink_tags brands review_count_range rating_range distance_range platform limit log
  = (Ok raw_drinks, log') ->
  exists items,
    _convert_to_simplified_drinks raw_drinks = Converted items
    /\ length items = length raw_drinks
    /\ Forall (fun s => store_name s = VStr "" /\ store_id s = VStr ""
                        /\ store_url s = "https://www.ubereats.com/tw/store/") items.
Proof.
  intros Hrun. apply convert_without_store.
  eapply find_drinks_no_store_field. exact Hrun.
Qed.

End Served.

End Convert.

(** ** Runs *)

(** Values other than strings are written as "?" here. *)
Definition question_mark (v : value) : string := "?".

Lemma store_url_by_platform_witness :
  _build_store_url question_mark (VStr "s1") (VStr "ubereats")
  = "https://www.ubereats.com/tw/store/s1"
  /\ _build_store_url question_mark (VStr "s1") (VStr "foodpanda")
     = "https://www.foodpanda.com.tw/restaurant/s1"
  /\ _build_store_url question_mark (VStr "s1") (VStr "other") = ""
  /\ (forall b, _build_store_url question_mark (VStr "s1") (VStr "ubereats")
                = _build_store_url question_mark (VStr b) (VStr "ubereats") -> "s1" = b).
Proof.
  split; [reflexivity|]. split; [reflexivity|]. split; [reflexivity|].
  intros b H.
  apply (proj2 (store_url_by_platform question_mark (VStr "ubereats")) "s1" b H).
  discriminate.
Defined.

(** The drink of [Engine.cross_platform_run], whose store is Tea House. *)
Lemma simplified_drinks_lose_store_witness :
  field "store_name" (value_of cross_platform_run.1) = [Some (VStr "Tea House")]
  /\ exists items,
       _convert_to_simplified_drinks question_mark (value_of cross_platform_run.1)
       = Converted items
       /\ length items = 1
       /\ Forall (fun s => store_name s = VStr "" /\ store_id s = VStr ""
                           /\ store_url s = "https://www.ubereats.com/tw/store/") items.
Proof.
  split; [vm_compute; reflexivity|].
  assert (ok cross_platform_run.1 = true) as Hok by (vm_compute; reflexivity).
  assert (length (value_of cross_platform_run.1) = 1) as Hlen by (vm_compute; reflexivity).
  unfold cross_platform_run in *.
  destruct (find_drinks (serve [tea_house] [oolong_foodpanda]) 0 0 [] [] None None None
              (Some "ubereats") None []) as [[res|e] log'] eqn:Hrun; [|discriminate].
  destruct (simplified_drinks_lose_store question_mark text_score geo_distance regex_match
              (collections [tea_house] [oolong_foodpanda]) 0 0 [] [] None None None
              (Some "ubereats") None [] log' res Hrun) as (items & Hc & Hl & Hall).
  exists items. split; [exact Hc|]. split; [|exact Hall].
  cbn [value_of fst] in Hlen. rewrite Hl. exact Hlen.
Defined.

End Service.
